(** * structor: evaluation of expressions held in struct tags

    A shallow embedding of [structor.go]: the evaluator walks the fields
    of a Go struct by reflection, picks an interpreter for each field
    from the field's tag, runs it, writes the result back and descends
    into nested structs, collecting the errors of the fields that fail.

    The source works on Go values through package [reflect], so the
    development starts with a model of the part of [reflect] the source
    calls: types, values in a store addressed by pointers, and
    [reflect.Value] handles with their addressable and read-only flags.
    Panics are outcomes of their own, since the source recovers some of
    them ([reflectSet]) and lets others escape. *)

From Stdlib Require Import ZArith String Ascii List Lia.
From stdpp Require Import base option list gmap strings pretty.

#[local] Set Warnings "-register-all".
Local Open Scope string_scope.
Local Open Scope list_scope.

(** ** Outcomes, errors and panics *)

(** A Go [error] value, by what the engine can tell of it: its text, and
    whether it is a [*multierror.Error], which [multierror.Append]
    flattens. *)
Inductive error : Type :=
| ErrString (msg : string)
| ErrMulti (errs : list string).

(** The operand of a [panic]: reflect panics with strings and with
    [*reflect.ValueError], the runtime with [runtime.Error]; [recover]
    in [reflectSet] tells an [error] from any other operand. *)
Inductive panic_value : Type :=
| PanicString (msg : string)
| PanicError (e : error).

(** How a call ends: it returns, it panics, the store does not have the
    shape the types promise ([Stuck], unreachable from well-formed Go
    data), or the bound on the recursion depth was reached. *)
Inductive outcome (A : Type) : Type :=
| Ret (a : A)
| Panic (p : panic_value)
| Stuck
| OutOfFuel.

Arguments Ret {A} a.
Arguments Panic {A} p.
Arguments Stuck {A}.
Arguments OutOfFuel {A}.

Definition obind {A B : Type} (o : outcome A) (k : A -> outcome B) : outcome B :=
  match o with
  | Ret a => k a
  | Panic p => Panic p
  | Stuck => Stuck
  | OutOfFuel => OutOfFuel
  end.

Definition of_option {A : Type} (o : option A) : outcome A :=
  match o with
  | Some a => Ret a
  | None => Stuck
  end.

Global Instance outcome_bind : MBind outcome := fun A B k o => obind o k.

(** ** Types ([reflect.Type]) *)

(** [reflect.StructField], by the members the source reads, and
    [PkgPath]: the package path that qualifies the name of a field that
    is not exported, empty exactly for an exported field. [Value.Field]
    reads the same bit of the type. *)
Record StructField (T : Type) : Type := MkStructField {
  Name : string;
  PkgPath : string;
  Tag : string;
  Type_ : T;
}.

Arguments MkStructField {T} _ _ _ _.
Arguments Name {T} _.
Arguments PkgPath {T} _.
Arguments Tag {T} _.
Arguments Type_ {T} _.

Definition exported {T : Type} (f : StructField T) : bool :=
  bool_decide (PkgPath f = "").

(** The types of the model. Struct types are the defined (named) ones;
    [name] is the qualified name [%T] prints. The only interface type is
    [interface{}]. *)
Inductive rtype : Type :=
| TBool
| TInt
| TString
| TSlice (elem : rtype)
| TPtr (elem : rtype)
| TInterface
| TStruct (name : string) (fields : list (StructField rtype)).

Inductive Kind : Type :=
| Invalid | Bool | Int | String_ | Slice | Ptr | Interface | Struct.

Global Instance Kind_eq_dec : EqDecision Kind.
Proof. solve_decision. Defined.

Definition kind_of (t : rtype) : Kind :=
  match t with
  | TBool => Bool
  | TInt => Int
  | TString => String_
  | TSlice _ => Slice
  | TPtr _ => Ptr
  | TInterface => Interface
  | TStruct _ _ => Struct
  end.

Definition kind_string (k : Kind) : string :=
  match k with
  | Invalid => "invalid"
  | Bool => "bool"
  | Int => "int"
  | String_ => "string"
  | Slice => "slice"
  | Ptr => "ptr"
  | Interface => "interface"
  | Struct => "struct"
  end.

(** [Type.String()], which is also what [%T] prints. *)
Fixpoint type_string (t : rtype) : string :=
  match t with
  | TBool => "bool"
  | TInt => "int"
  | TString => "string"
  | TSlice e => "[]" ++ type_string e
  | TPtr e => "*" ++ type_string e
  | TInterface => "interface {}"
  | TStruct n _ => n
  end.

Global Instance StructField_eq_dec {T : Type} `{EqDecision T} : EqDecision (StructField T).
Proof. solve_decision. Defined.

Definition rtype_eq_dec : forall a b : rtype, Decision (a = b).
Proof.
  fix IH 1. intros a b. unfold Decision.
  decide equality.
  - apply (@list_eq_dec _ (@StructField_eq_dec _ IH)).
  - apply (decide_rel (=)).
Defined.

Global Instance rtype_eq_decision : EqDecision rtype := rtype_eq_dec.

(** A type without its struct tags, at every depth: conversion ignores
    them. *)
Fixpoint erase_tags (t : rtype) : rtype :=
  match t with
  | TSlice e => TSlice (erase_tags e)
  | TPtr e => TPtr (erase_tags e)
  | TStruct n fs =>
      TStruct n
        (map (fun f => MkStructField (Name f) (PkgPath f) "" (erase_tags (Type_ f))) fs)
  | _ => t
  end.

(** The underlying type: a defined struct type without its name. *)
Definition underlying (t : rtype) : rtype :=
  match t with
  | TStruct _ fs => TStruct "" fs
  | _ => t
  end.

(** ** Values and the store *)

Abbreviation loc := nat.

(** An address: an allocated object and the path of field indices to
    the part of it that is meant ([&x.I] is [x]'s object and path [[i]]). *)
Definition ref : Type := loc * list nat.

(** A Go value; what an interface holds comes with its dynamic type. *)
Inductive gval : Type :=
| VBool (b : bool)
| VInt (n : Z)
| VString (s : string)
| VSlice (elems : list gval)
| VPtr (target : option ref)
| VIface (dyn : option (rtype * gval))
| VStruct (fields : list gval).

(** An [interface{}] value: nil, or a dynamic type and a value of it. *)
Definition iface : Type := option (rtype * gval).

Abbreviation heap := (gmap loc gval).

Fixpoint value_at (v : gval) (p : list nat) : option gval :=
  match p with
  | [] => Some v
  | i :: p' =>
      match v with
      | VStruct fs => f ← fs !! i; value_at f p'
      | _ => None
      end
  end.

Fixpoint value_upd (v : gval) (p : list nat) (x : gval) : option gval :=
  match p with
  | [] => Some x
  | i :: p' =>
      match v with
      | VStruct fs =>
          f ← fs !! i; f' ← value_upd f p' x; Some (VStruct (<[i := f']> fs))
      | _ => None
      end
  end.

Definition load (h : heap) (r : ref) : option gval :=
  v ← h !! r.1; value_at v r.2.

Definition store (h : heap) (r : ref) (x : gval) : option heap :=
  v ← h !! r.1; v' ← value_upd v r.2 x; Some (<[r.1 := v']> h).

(** The zero value of a type ([reflect.Zero]). *)
Fixpoint zero_value (t : rtype) : gval :=
  match t with
  | TBool => VBool false
  | TInt => VInt 0
  | TString => VString ""
  | TSlice _ => VSlice []
  | TPtr _ => VPtr None
  | TInterface => VIface None
  | TStruct _ fs => VStruct (map (fun f => zero_value (Type_ f)) fs)
  end.

(** [string(rune(n))]: the UTF-8 encoding of the code point, U+FFFD for
    an integer that is none. *)
Definition byte_chr (n : Z) : ascii := ascii_of_N (Z.to_N n).

Definition bytes_string (bs : list Z) : string :=
  fold_right (fun b s => String (byte_chr b) s) EmptyString bs.

Definition rune_string (r : Z) : string :=
  if ((r <? 0) || (1114111 <? r) || ((55296 <=? r) && (r <=? 57343)))%Z then
    bytes_string [239; 191; 189]%Z
  else if (r <? 128)%Z then bytes_string [r]
  else if (r <? 2048)%Z then
    bytes_string [Z.lor 192 (Z.shiftr r 6); Z.lor 128 (Z.land r 63)]
  else if (r <? 65536)%Z then
    bytes_string [Z.lor 224 (Z.shiftr r 12);
                  Z.lor 128 (Z.land (Z.shiftr r 6) 63);
                  Z.lor 128 (Z.land r 63)]
  else
    bytes_string [Z.lor 240 (Z.shiftr r 18);
                  Z.lor 128 (Z.land (Z.shiftr r 12) 63);
                  Z.lor 128 (Z.land (Z.shiftr r 6) 63);
                  Z.lor 128 (Z.land r 63)].

(** ** Package [reflect] *)

Module reflect.

(** Where a [Value] keeps its data: in the store, which makes it
    addressable ([flagAddr]), or in the handle itself. *)
Inductive place : Type :=
| Stored (r : ref)
| Temp (v : gval).

(** [reflect.Value]: the zero Value, or a type, a place and [flagRO]
    (reached through an unexported field). *)
Inductive Value : Type :=
| ZeroValue
| MkValue (t : rtype) (p : place) (ro : bool).

(** A [*reflect.ValueError]: a method called on a Value of the wrong kind. *)
Definition value_error (method : string) (k : Kind) : panic_value :=
  PanicError (ErrString ("reflect: call of " ++ method ++ " on "
    ++ (if decide (k = Invalid) then "zero" else kind_string k) ++ " Value")).

Definition read (h : heap) (p : place) : option gval :=
  match p with
  | Stored r => load h r
  | Temp v => Some v
  end.

Definition ValueOf (i : iface) : Value :=
  match i with
  | None => ZeroValue
  | Some (t, v) => MkValue t (Temp v) false
  end.

Definition IsValid (v : Value) : bool :=
  match v with
  | ZeroValue => false
  | MkValue _ _ _ => true
  end.

Definition Kind (v : Value) : Kind :=
  match v with
  | ZeroValue => Invalid
  | MkValue t _ _ => kind_of t
  end.

Definition TypeOf (v : Value) : outcome rtype :=
  match v with
  | ZeroValue => Panic (value_error "reflect.Value.Type" Invalid)
  | MkValue t _ _ => Ret t
  end.

Definition CanAddr (v : Value) : bool :=
  match v with
  | MkValue _ (Stored _) _ => true
  | _ => false
  end.

Definition CanSet (v : Value) : bool :=
  match v with
  | MkValue _ (Stored _) ro => negb ro
  | _ => false
  end.

Definition Addr (v : Value) : outcome Value :=
  match v with
  | MkValue t (Stored r) ro => Ret (MkValue (TPtr t) (Temp (VPtr (Some r))) ro)
  | _ => Panic (PanicString "reflect.Value.Addr of unaddressable value")
  end.

(** [v.Elem()]: what a pointer points to, or what an interface holds. *)
Definition Elem (h : heap) (v : Value) : outcome Value :=
  match v with
  | MkValue (TPtr e) p ro =>
      x ← of_option (read h p);
      match x with
      | VPtr None => Ret ZeroValue
      | VPtr (Some r) => Ret (MkValue e (Stored r) ro)
      | _ => Stuck
      end
  | MkValue TInterface p ro =>
      x ← of_option (read h p);
      match x with
      | VIface None => Ret ZeroValue
      | VIface (Some (t, d)) => Ret (MkValue t (Temp d) ro)
      | _ => Stuck
      end
  | ZeroValue => Panic (value_error "reflect.Value.Elem" Invalid)
  | MkValue t _ _ => Panic (value_error "reflect.Value.Elem" (kind_of t))
  end.

Definition Indirect (h : heap) (v : Value) : outcome Value :=
  if decide (Kind v = Ptr) then Elem h v else Ret v.

(** [t.NumField()] and [t.Field(i)] of a [reflect.Type]. *)
Definition NumField (t : rtype) : outcome nat :=
  match t with
  | TStruct _ fs => Ret (length fs)
  | _ => Panic (PanicString ("reflect: NumField of non-struct type " ++ type_string t))
  end.

Definition TypeField (t : rtype) (i : nat) : outcome (StructField rtype) :=
  match t with
  | TStruct _ fs =>
      match fs !! i with
      | Some f => Ret f
      | None => Panic (PanicString "reflect: Field index out of bounds")
      end
  | _ => Panic (PanicString ("reflect: Field of non-struct type " ++ type_string t))
  end.

(** [v.Field(i)]: the field keeps the struct's addressability; it is
    read-only when the struct is, or when the field is not exported. *)
Definition Field (v : Value) (i : nat) : outcome Value :=
  match v with
  | MkValue (TStruct _ fs) p ro =>
      match fs !! i with
      | None => Panic (PanicString "reflect: Field index out of range")
      | Some f =>
          let ro' := ro || negb (exported f) in
          match p with
          | Stored r => Ret (MkValue (Type_ f) (Stored (r.1, r.2 ++ [i])) ro')
          | Temp (VStruct vs) =>
              x ← of_option (vs !! i); Ret (MkValue (Type_ f) (Temp x) ro')
          | Temp _ => Stuck
          end
      end
  | ZeroValue => Panic (value_error "reflect.Value.Field" Invalid)
  | MkValue t _ _ => Panic (value_error "reflect.Value.Field" (kind_of t))
  end.

(** [v.Interface()]: the value as an [interface{}]; of an interface, what
    it holds. *)
Definition Interface (h : heap) (v : Value) : outcome iface :=
  match v with
  | ZeroValue => Panic (value_error "reflect.Value.Interface" Invalid)
  | MkValue t p ro =>
      if ro then
        Panic (PanicString
          "reflect.Value.Interface: cannot return value obtained from unexported field or method")
      else
        x ← of_option (read h p);
        match t, x with
        | TInterface, VIface d => Ret d
        | TInterface, _ => Stuck
        | _, _ => Ret (Some (t, x))
        end
  end.

Definition Zero (t : rtype) : Value := MkValue t (Temp (zero_value t)) false.

(** [haveIdenticalUnderlyingType] without comparing tags. *)
Definition same_underlying (a b : rtype) : bool :=
  bool_decide (erase_tags (underlying a) = erase_tags (underlying b)).

(** [src.ConvertibleTo(dst)], as [convertOp] decides it on these types. *)
Definition ConvertibleTo (src dst : rtype) : bool :=
  match src, dst with
  | TInt, TInt => true
  | TInt, TString => true
  | _, _ =>
      same_underlying dst src
      || match dst, src with
         | TPtr d, TPtr s => same_underlying d s
         | _, _ => false
         end
      || bool_decide (dst = TInterface)
  end.

(** [v.Convert(t)]: a Value of type [t] that is no longer addressable. *)
Definition Convert (h : heap) (v : Value) (t : rtype) : outcome Value :=
  match v with
  | ZeroValue => Panic (value_error "reflect.Value.Convert" Invalid)
  | MkValue src p ro =>
      if negb (ConvertibleTo src t) then
        Panic (PanicString ("reflect.Value.Convert: value of type " ++ type_string src
                            ++ " cannot be converted to type " ++ type_string t))
      else
        x ← of_option (read h p);
        match src, t, x with
        | TInt, TString, VInt n => Ret (MkValue t (Temp (VString (rune_string n))) ro)
        | TInt, TString, _ => Stuck
        | TInterface, TInterface, _ => Ret (MkValue t (Temp x) ro)
        | _, TInterface, _ => Ret (MkValue t (Temp (VIface (Some (src, x)))) ro)
        | _, _, _ => Ret (MkValue t (Temp x) ro)
        end
  end.

(** [v.Set(x)]: [v] must be settable, [x] valid and exported, and [x]'s
    type assignable to [v]'s. On these types that is the same type, or
    any type into an [interface{}]. The store is returned. *)
Definition Set_ (h : heap) (v x : Value) : outcome heap :=
  match v with
  | ZeroValue => Panic (value_error "reflect.Value.Set" Invalid)
  | MkValue _ _ true =>
      Panic (PanicString
        "reflect: reflect.Value.Set using value obtained using unexported field")
  | MkValue _ (Temp _) false =>
      Panic (PanicString "reflect: reflect.Value.Set using unaddressable value")
  | MkValue dst (Stored r) false =>
      match x with
      | ZeroValue => Panic (value_error "reflect.Value.Set" Invalid)
      | MkValue _ _ true =>
          Panic (PanicString
            "reflect: reflect.Value.Set using value obtained using unexported field")
      | MkValue src p false =>
          if decide (dst = src) then
            y ← of_option (read h p); of_option (store h r y)
          else if decide (dst = TInterface) then
            y ← of_option (read h p); of_option (store h r (VIface (Some (src, y))))
          else
            Panic (PanicString ("reflect.Set: value of type " ++ type_string src
                                ++ " is not assignable to type " ++ type_string dst))
      end
  end.

End reflect.

(** ** Package [el]: the expression context and the interpreters *)

Module el.

(** [el.Context]. The [EvalExpr] member is left out: it is always the
    evaluator's own [evalExpr], the same at every field. *)
Record Context : Type := mkContext {
  Name : string;
  LongName : string;
  Tags : gmap string string;
  Struct : iface;
  Extra : iface;
  Sub : iface;
  Val : iface;
}.

(** An implementation of [el.Interpreter]: [Execute] returns a result
    and an error, and may change the store on the way. A value of the
    interface type is an [option] of these where the source holds one:
    [None] is the nil interface. *)
Record Interpreter : Type := mkInterpreter {
  Execute : string -> Context -> heap -> heap * (iface * option error);
}.

End el.

(** ** Package [scanner] *)

Module scanner.

Record Scanner : Type := mkScanner {
  Tags : string -> gmap string string * option error;
}.

End scanner.

(** ** Package [multierror] and the texts of [fmt] *)

Module multierror.

Definition errors_of (e : error) : list string :=
  match e with
  | ErrString m => [m]
  | ErrMulti l => l
  end.

(** The errors of an [error] that may be nil. *)
Definition list_of (err : option error) : list string :=
  match err with
  | Some x => errors_of x
  | None => []
  end.

(** [multierror.Append(err, e)]: one flat [*multierror.Error]. *)
Definition Append (err : option error) (e : error) : error :=
  ErrMulti (list_of err ++ errors_of e).

Definition newline : string := String (ascii_of_nat 10) EmptyString.

(** The [Error()] text of a [multierror.Error], in the default list format. *)
Definition Error_text (l : list string) : string :=
  (pretty (length l) ++ " error(s) occurred:" ++ newline ++ newline
   ++ String.concat newline (map (fun m => "* " ++ m) l))%string.

End multierror.

(** [err.Error()]. *)
Definition error_text (e : error) : string :=
  match e with
  | ErrString m => m
  | ErrMulti l => multierror.Error_text l
  end.

(** [%T] of an interface value. *)
Definition fmt_T (i : iface) : string :=
  match i with
  | None => "<nil>"
  | Some (t, _) => type_string t
  end.

(** [fmt.Sprintf("%T.%s", curr, name)]: the long name of a field. *)
Definition long_name (curr : iface) (name : string) : string :=
  (fmt_T curr ++ "." ++ name)%string.

(** [strings.Contains]. *)
Fixpoint contains (s sub : string) : bool :=
  String.prefix sub s ||
  match s with
  | EmptyString => false
  | String _ s' => contains s' sub
  end.

(** ** What the Go runtime decides *)

(** The order in which a [range] over a map yields its entries is the
    runtime's choice, made anew at every loop: [range_order n m] is the
    order of the [n]-th loop of a run over the map [m], some enumeration
    of its entries. [fmt_v] is [%v] of a value, which prints addresses. *)
Record Runtime : Type := mkRuntime {
  range_order : nat -> gmap string string -> list (string * string);
  range_order_perm : forall n m, range_order n m ≡ₚ map_to_list m;
  fmt_v : heap -> iface -> string;
}.

(** The state a run threads: the store and the number of map loops so far. *)
Record world : Type := mkWorld {
  mem : heap;
  ticks : nat;
}.

(** ** Package [structor] *)

(** [Interpreters], a [map[string]el.Interpreter]: a name may be bound
    to the nil interface. *)
Abbreviation Interpreters := (gmap string (option el.Interpreter)).

Definition WholeTag : string := "".

Record Options : Type := mkOptions {
  NonMutating : bool;
  EvalEmptyTags : bool;
}.

Record evaluator : Type := mkEvaluator {
  scanner : scanner.Scanner;
  interpreters : Interpreters;
  options : Options;
}.

Definition NewEvaluatorWithOptions (sc : scanner.Scanner) (interps : Interpreters)
    (opts : Options) : outcome evaluator :=
  if decide (size interps = 0) then Panic (PanicString "no interpreters registered")
  else Ret (mkEvaluator sc interps opts).

Definition NewEvaluator (sc : scanner.Scanner) (interps : Interpreters) : outcome evaluator :=
  NewEvaluatorWithOptions sc interps (mkOptions false false).

Definition NewNonmutatingEvaluator (sc : scanner.Scanner) (interps : Interpreters)
    : outcome evaluator :=
  NewEvaluatorWithOptions sc interps (mkOptions true false).

Definition nil_dereference : panic_value :=
  PanicError (ErrString "runtime error: invalid memory address or nil pointer dereference").

Definition evalExpr (ev : evaluator) (intrprName expr : string) (ctx : el.Context)
    (h : heap) : outcome (heap * (iface * option error)) :=
  match interpreters ev !! intrprName with
  | None => Ret (h, (None, Some (ErrString ("unknown interpreter: " ++ intrprName))))
  | Some None => Panic nil_dereference
  | Some (Some intrpr) => Ret (el.Execute intrpr expr ctx h)
  end.

(** [fmt.Errorf("structor: <<%s>>: %v", longName, err)]. *)
Definition field_error (longName : string) (err : error) : error :=
  ErrString ("structor: <<" ++ longName ++ ">>: " ++ error_text err).

Definition structIntrospect (rt : Runtime) (h : heap) (s : iface)
    : outcome (reflect.Value * rtype * option error) :=
  v ← reflect.Indirect h (reflect.ValueOf s);
  t ← reflect.TypeOf v;
  if decide (kind_of t ≠ Struct) then
    Ret (v, t, Some (ErrString ("structor: " ++ fmt_v rt h s
           ++ " must be a struct or a pointer to struct, actually: "
           ++ kind_string (kind_of t))))
  else Ret (v, t, None).

Record fieldDescr : Type := mkFieldDescr {
  name : string;
  expr : string;
  interpreter : option el.Interpreter;
  value : reflect.Value;
  typ : rtype;
  tags : gmap string string;
  settable : bool;
}.

(** The loop [for k, t := range tags] of [fieldIntrospect], over the
    entries in the order the runtime yields them: the first entry whose
    key is a registered name ends it. *)
Fixpoint rangeTags (interps : Interpreters) (entries : list (string * string))
    : option (string * string * option el.Interpreter) :=
  match entries with
  | [] => None
  | (k, t) :: rest =>
      match interps !! k with
      | Some intr => Some (k, t, intr)
      | None => rangeTags interps rest
      end
  end.

Definition fieldIntrospect (ev : evaluator) (rt : Runtime) (val : reflect.Value)
    (typ : rtype) (i : nat) (w : world) : world * outcome (fieldDescr * option error) :=
  match (f ← reflect.TypeField typ i;
         fv ← reflect.Field val i;
         v ← reflect.Indirect (mem w) fv;
         Ret (f, v)) with
  | Ret (f, v) =>
      let '(tags, err) := scanner.Tags (scanner ev) (Tag f) in
      match err with
      | Some e => (w, Ret (mkFieldDescr (Name f) "" None v (Type_ f) tags false, Some e))
      | None =>
          let settable :=
            reflect.CanSet v
            || (reflect.CanAddr v
                && match reflect.Addr v with Ret a => reflect.CanSet a | _ => false end) in
          let w' := mkWorld (mem w) (S (ticks w)) in
          match rangeTags (interpreters ev) (range_order rt (ticks w) tags) with
          | Some (k, t, intr) =>
              (w', Ret (mkFieldDescr (Name f) t intr v (Type_ f)
                          (delete k tags) settable, None))
          | None =>
              match interpreters ev !! WholeTag with
              | Some intr =>
                  (w', Ret (mkFieldDescr (Name f) (Tag f) intr v (Type_ f)
                              (delete WholeTag tags) settable, None))
              | None =>
                  (w', Ret (mkFieldDescr (Name f) "" None v (Type_ f) tags settable, None))
              end
          end
      end
  | Panic p => (w, Panic p)
  | Stuck => (w, Stuck)
  | OutOfFuel => (w, OutOfFuel)
  end.

(** The body of [reflectSet], before its deferred [recover]. *)
Definition reflectSet_body (h : heap) (v : reflect.Value) (vt : rtype) (nv : iface)
    : outcome heap :=
  match nv with
  | None => if reflect.IsValid v then reflect.Set_ h v (reflect.Zero vt) else Ret h
  | Some _ =>
      let vnv := reflect.ValueOf nv in
      t ← reflect.TypeOf vnv;
      if negb (reflect.ConvertibleTo t vt) && bool_decide (reflect.Kind v = Struct) then Ret h
      else x ← reflect.Convert h vnv vt; reflect.Set_ h v x
  end.

(** [reflectSet]: a panic of the body is recovered and returned as the
    error; an operand that is no [error] is wrapped by
    [fmt.Errorf("structor: %v", r)]. *)
Definition reflectSet (h : heap) (v : reflect.Value) (vt : rtype) (nv : iface)
    : outcome (heap * option error) :=
  match reflectSet_body h v vt nv with
  | Ret h' => Ret (h', None)
  | Panic (PanicError e) => Ret (h, Some e)
  | Panic (PanicString m) => Ret (h, Some (ErrString ("structor: " ++ m)))
  | Stuck => Stuck
  | OutOfFuel => OutOfFuel
  end.

Definition byRef (h : heap) (v : reflect.Value) : outcome iface :=
  if reflect.CanAddr v then a ← reflect.Addr v; reflect.Interface h a
  else reflect.Interface h v.

(** *** The walk

    What a run did is kept beside its outcome, as a tree that follows
    the recursion: one node per field the walk got to, with the call of
    [Execute] made for it, if any, the error the field's closure
    returned, and the nodes of the nested struct, if the walk went into
    one. *)

Record Call : Type := mkCall {
  c_interp : el.Interpreter;
  c_expr : string;
  c_ctx : el.Context;
  c_result : iface;
  c_err : option error;
}.

Inductive tnode : Type :=
| TNode (call : option Call) (err : option error) (nested : option (list tnode)).

Definition node_call (n : tnode) : option Call :=
  match n with TNode c _ _ => c end.

Definition node_err (n : tnode) : option error :=
  match n with TNode _ e _ => e end.

Definition node_nested (n : tnode) : option (list tnode) :=
  match n with TNode _ _ ns => ns end.

(** What one field's step and a whole [eval] hand back. *)
Definition step_result : Type := world * tnode * outcome (option error).
Definition eval_result : Type := world * list tnode * outcome (option error).

(** [eval] as the closure of a field calls it: [s], [extra],
    [substruct], [subctx]. *)
Definition eval_fn : Type := iface -> iface -> iface -> iface -> world -> eval_result.

(** An outcome that is no return, at another type. *)
Definition no_return {A B : Type} (o : outcome A) : outcome B :=
  match o with
  | Ret _ => Stuck
  | Panic p => Panic p
  | Stuck => Stuck
  | OutOfFuel => OutOfFuel
  end.

(** The error a closure returned, if it returned. *)
Definition returned (o : outcome (option error)) : option error :=
  match o with
  | Ret e => e
  | _ => None
  end.

(** Lines 148 to 159 of the closure: the context of the field. *)
Definition fieldContext (s extra subctx : iface) (longName : string) (f : fieldDescr)
    (h : heap) : outcome el.Context :=
  v ← (if reflect.IsValid (value f) then reflect.Interface h (value f) else Ret None);
  Ret (el.mkContext (name f) longName (tags f) s extra subctx v).

(** Lines 171 to 181 of the closure: look at the field's value, through
    an interface if it is one, and go into it if it is a struct. *)
Definition descend (rec : eval_fn) (s extra : iface) (f : fieldDescr) (result : iface)
    (call : option Call) (w : world) : step_result :=
  let v := value f in
  let k := reflect.Kind v in
  match (if decide (k = Interface) then
           v' ← reflect.Elem (mem w) v;
           i ← reflect.Indirect (mem w) v';
           Ret (v', reflect.Kind i)
         else Ret (v, k)) with
  | Ret (v, k) =>
      if decide (k = Struct) then
        match byRef (mem w) v with
        | Ret sub =>
            let '(w', ns, o) := rec s extra sub result w in
            (w', TNode call (returned o) (Some ns), o)
        | o => (w, TNode call None None, no_return o)
        end
      else (w, TNode call None None, Ret None)
  | o => (w, TNode call None None, no_return o)
  end.

(** The closure [func() error] that [eval] runs for field [i]. *)
Definition evalField (rec : eval_fn) (ev : evaluator) (rt : Runtime)
    (s extra curr subctx : iface) (val : reflect.Value) (styp : rtype) (i : nat)
    (w : world) : step_result :=
  let '(w1, o) := fieldIntrospect ev rt val styp i w in
  match o with
  | Ret (f, err) =>
      let longName := long_name curr (name f) in
      match err with
      | Some e =>
          let e' := field_error longName e in
          (w1, TNode None (Some e') None, Ret (Some e'))
      | None =>
          if negb (bool_decide (expr f = "")) || EvalEmptyTags (options ev) then
            match fieldContext s extra subctx longName f (mem w1) with
            | Ret ctx =>
                match interpreter f with
                | None => (w1, TNode None None None, Panic nil_dereference)
                | Some intr =>
                    let '(h2, (result, err)) := el.Execute intr (expr f) ctx (mem w1) in
                    let w2 := mkWorld h2 (ticks w1) in
                    let call := Some (mkCall intr (expr f) ctx result err) in
                    match err with
                    | Some e => (w2, TNode call (Some e) None, Ret (Some e))
                    | None =>
                        if negb (NonMutating (options ev)) && settable f then
                          match reflectSet (mem w2) (value f) (typ f) result with
                          | Ret (h3, Some e) =>
                              let e' := field_error longName e in
                              (mkWorld h3 (ticks w2), TNode call (Some e') None,
                               Ret (Some e'))
                          | Ret (h3, None) =>
                              descend rec s extra f result call (mkWorld h3 (ticks w2))
                          | o => (w2, TNode call None None, no_return o)
                          end
                        else descend rec s extra f result call w2
                    end
                end
            | o => (w1, TNode None None None, no_return o)
            end
          else descend rec s extra f None None w1
      end
  | o => (w1, TNode None None None, no_return o)
  end.

(** The loop of [eval] over the field indices, with [merr] so far. *)
Fixpoint evalFields (field : nat -> world -> step_result) (indices : list nat)
    (merr : option error) (w : world) : eval_result :=
  match indices with
  | [] => (w, [], Ret merr)
  | i :: rest =>
      let '(w1, n, o) := field i w in
      match o with
      | Ret err =>
          let merr' :=
            match err with
            | Some e => Some (multierror.Append merr e)
            | None => merr
            end in
          let '(w2, ns, o2) := evalFields field rest merr' w1 in
          (w2, n :: ns, o2)
      | o => (w1, [n], no_return o)
      end
  end.

(** [curr] of [eval]: [s], or [substruct] when that is not nil. *)
Definition current (s substruct : iface) : iface :=
  match substruct with
  | Some _ => substruct
  | None => s
  end.

(** The body of [eval], with [rec] for the call to itself. *)
Definition eval_body (rec : eval_fn) (ev : evaluator) (rt : Runtime)
    (s extra substruct subctx : iface) (w : world) : eval_result :=
  let curr := current s substruct in
  match structIntrospect rt (mem w) curr with
  | Ret (val, styp, Some err) => (w, [], Ret (Some err))
  | Ret (val, styp, None) =>
      match reflect.NumField styp with
      | Ret l =>
          evalFields (evalField rec ev rt s extra curr subctx val styp) (seq 0 l) None w
      | o => (w, [], no_return o)
      end
  | o => (w, [], no_return o)
  end.

(** [eval], with a bound on the depth of the recursion: data that holds
    a struct inside itself through an interface or a pointer sends the
    source down without end. *)
Fixpoint eval (fuel : nat) (ev : evaluator) (rt : Runtime)
    (s extra substruct subctx : iface) (w : world) : eval_result :=
  match fuel with
  | O => (w, [], OutOfFuel)
  | S n => eval_body (eval n ev rt) ev rt s extra substruct subctx w
  end.

Definition Eval (fuel : nat) (ev : evaluator) (rt : Runtime) (s extra : iface) (w : world)
    : eval_result :=
  eval fuel ev rt s extra None None w.

(** The parts of what a step or a walk hands back. *)
Definition final_world {A : Type} (r : world * A * outcome (option error)) : world := r.1.1.
Definition nodes_of (r : eval_result) : list tnode := r.1.2.
Definition node_of (r : step_result) : tnode := r.1.2.
Definition outcome_of {A : Type} (r : world * A * outcome (option error))
    : outcome (option error) := r.2.

(** The result the closure of a field hands down as [subctx]: what its
    call of [Execute] returned, nil if it made none. *)
Definition result_of (call : option Call) : iface :=
  match call with
  | Some c => c_result c
  | None => None
  end.

(** The contexts of a tree of calls are those of a walk started with
    [s] and [extra], at a place where [sub] was handed down: every
    context has [s], [extra] and [sub] in its slots, and the nodes of a
    nested struct have the same [s] and [extra], and the result of the
    field they hang from as their [sub]. *)
Inductive ctx_ok (s extra : iface) : iface -> tnode -> Prop :=
| ctx_ok_node sub call err nested :
    (forall c, call = Some c ->
       el.Struct (c_ctx c) = s /\ el.Extra (c_ctx c) = extra /\ el.Sub (c_ctx c) = sub) ->
    (forall ns, nested = Some ns -> Forall (ctx_ok s extra (result_of call)) ns) ->
    ctx_ok s extra sub (TNode call err nested).

(** The closure of field [i] gets as far as calling [Execute]: the scan
    went through and left [f], there is an expression or empty tags are
    evaluated too, the context [ctx] was put together, and dispatch
    selected [intr]. *)
Definition reaches_Execute (ev : evaluator) (rt : Runtime) (s extra curr subctx : iface)
    (val : reflect.Value) (styp : rtype) (i : nat) (w w1 : world) (f : fieldDescr)
    (ctx : el.Context) (intr : el.Interpreter) : Prop :=
  fieldIntrospect ev rt val styp i w = (w1, Ret (f, None)) /\
  (expr f <> "" \/ EvalEmptyTags (options ev) = true) /\
  fieldContext s extra subctx (long_name curr (name f)) f (mem w1) = Ret ctx /\
  interpreter f = Some intr.

(** The store after the calls of a tree alone, made again in their
    order from the store [h]: what the interpreters did to it, without
    anything the engine may have written. *)
Fixpoint replay (n : tnode) (h : heap) : heap :=
  match n with
  | TNode c _ ns =>
      let h1 :=
        match c with
        | Some c => (el.Execute (c_interp c) (c_expr c) (c_ctx c) h).1
        | None => h
        end in
      match ns with
      | Some l => fold_left (fun h n => replay n h) l h1
      | None => h1
      end
  end.

Definition replay_all (ns : list tnode) (h : heap) : heap :=
  fold_left (fun h n => replay n h) ns h.

(** No field of the tree failed, at any depth. *)
Inductive no_failure : tnode -> Prop :=
| no_failure_node call nested :
    (forall ns, nested = Some ns -> Forall no_failure ns) ->
    no_failure (TNode call None nested).

(** [rec2] ends as [rec1] does, wherever [rec1] does not end by the
    bound on the depth. *)
Definition refines (rec1 rec2 : eval_fn) : Prop :=
  forall a b c d w r, rec1 a b c d w = r -> outcome_of r <> OutOfFuel -> rec2 a b c d w = r.

(** No tag map the scanner yields has two keys that are registered names. *)
Definition one_recognized (ev : evaluator) : Prop :=
  forall raw k k',
    is_Some ((scanner.Tags (scanner ev) raw).1 !! k) -> is_Some (interpreters ev !! k) ->
    is_Some ((scanner.Tags (scanner ev) raw).1 !! k') -> is_Some (interpreters ev !! k') ->
    k = k'.

(** The interpreters of an evaluator leave the store as it is. *)
Definition pure_interpreters (ev : evaluator) : Prop :=
  forall k intr, interpreters ev !! k = Some (Some intr) ->
    forall e ctx h, (el.Execute intr e ctx h).1 = h.

(** No name is registered with the nil interpreter. *)
Definition no_nil_registered (ev : evaluator) : Prop :=
  forall k, interpreters ev !! k <> Some None.

(** An outcome other than the panic of a call of [Execute] on the nil
    interpreter. *)
Definition no_nil_call {A : Type} (o : outcome A) : Prop := o <> Panic nil_dereference.

(** How deep records are nested in a type, through pointers; and
    whether a type is without an [interface{}] at the places the walk
    gets to, which are fields of records, also behind a pointer. *)
Fixpoint nesting (t : rtype) : nat :=
  match t with
  | TPtr e => nesting e
  | TStruct _ fs => S (list_max (map (fun f => nesting (Type_ f)) fs))
  | _ => 0
  end.

Fixpoint interface_free (t : rtype) : bool :=
  match t with
  | TInterface => false
  | TPtr e => interface_free e
  | TStruct _ fs => forallb (fun f => interface_free (Type_ f)) fs
  | _ => true
  end.

(** A type without pointers and interfaces at the places the walk gets
    to: a record of such a type holds all its records by value. *)
Fixpoint pointer_free (t : rtype) : bool :=
  match t with
  | TPtr _ | TInterface => false
  | TStruct _ fs => forallb (fun f => pointer_free (Type_ f)) fs
  | _ => true
  end.

(** The evaluator with the [NonMutating] option set. *)
Definition nonmutating (ev : evaluator) : evaluator :=
  mkEvaluator (scanner ev) (interpreters ev) (mkOptions true (EvalEmptyTags (options ev))).

(** A type the walk neither goes into nor looks through: no record, no
    pointer and no interface. *)
Definition plain (t : rtype) : bool :=
  match t with
  | TBool | TInt | TString | TSlice _ => true
  | _ => false
  end.

(** What the closure of field [i] of a record with the fields [fs] has
    made of the field, when it returned no error: [before] and [after]
    are what the storage of the field holds before and after, and [nd]
    is the node of the field. Without a call of [Execute] the field is
    as it was; after a call that returned nil it holds the zero value
    of its type; after a call that returned a result it holds the
    result converted to its type. *)
Definition field_post (fs : list (StructField rtype)) (i : nat) (nd : tnode)
    (before after : option gval) : Prop :=
  exists sf, fs !! i = Some sf /\
    match node_call nd with
    | None => after = before
    | Some c =>
        match c_result c with
        | None => after = Some (zero_value (Type_ sf))
        | Some (t, x) =>
            exists y,
              (forall h, reflect.Convert h (reflect.ValueOf (Some (t, x))) (Type_ sf)
                 = Ret (reflect.MkValue (Type_ sf) (reflect.Temp y) false)) /\
              after = Some y /\ (t = Type_ sf -> y = x)
        end
    end.

(** The objects a walk stays in. [owned F v]: the pointers in the
    value [v] all point into the objects [F]; a store is closed for [F]
    when that holds of what the objects [F] hold. *)
Fixpoint owned (F : gset loc) (v : gval) : bool :=
  match v with
  | VPtr (Some r) => bool_decide (r.1 ∈ F)
  | VIface (Some (_, d)) => owned F d
  | VSlice es => forallb (owned F) es
  | VStruct fs => forallb (owned F) fs
  | _ => true
  end.

Definition closed (F : gset loc) (h : heap) : Prop :=
  forall l v, l ∈ F -> h !! l = Some v -> owned F v = true.

Definition iface_in (F : gset loc) (i : iface) : Prop :=
  match i with
  | Some (_, x) => owned F x = true
  | None => True
  end.

Definition handle_in (F : gset loc) (v : reflect.Value) : Prop :=
  match v with
  | reflect.ZeroValue => True
  | reflect.MkValue _ (reflect.Stored r) _ => r.1 ∈ F
  | reflect.MkValue _ (reflect.Temp x) _ => owned F x = true
  end.

(** A property of the store that does not depend on what the objects
    [F] hold. *)
Definition outside (F : gset loc) (I : heap -> Prop) : Prop :=
  forall h l v, l ∈ F -> I h -> I (<[l := v]> h).

(** The interpreters of [ev], on the contexts of a walk of [s] with
    [extra]: they leave the store closed for [F], they keep [I], and
    the pointers in what they return point into [F]. *)
Definition interpreters_keep (F : gset loc) (I : heap -> Prop) (ev : evaluator)
    (s extra : iface) : Prop :=
  forall k intr e ctx h, interpreters ev !! k = Some (Some intr) ->
    el.Struct ctx = s -> el.Extra ctx = extra ->
    closed F h -> I h ->
    closed F (el.Execute intr e ctx h).1 /\ I (el.Execute intr e ctx h).1 /\
    iface_in F (el.Execute intr e ctx h).2.1.

(** * Test data

    The interpreters, scanner and records of the package's tests, and a
    few more in their style. *)

(** Whether a name written in ASCII begins with an upper-case letter. *)
Definition upper_initial (name : string) : bool :=
  match name with
  | String c _ => let n := nat_of_ascii c in (65 <=? n)%nat && (n <=? 90)%nat
  | EmptyString => false
  end.

(** A field as the compiler describes it, for a name written in ASCII,
    as the names of the records below are: exported when the name
    begins with an upper-case letter, and qualified by the package of
    the tests when it does not. *)
Definition mkField {T : Type} (name tag : string) (t : T) : StructField T :=
  MkStructField name (if upper_initial name then "" else "structor_test") tag t.

(** The char counting interpreter [cc] of the tests. *)
Definition cc : el.Interpreter :=
  el.mkInterpreter
    (fun e _ h => (h, (Some (TInt, VInt (Z.of_nat (String.length e))), None))).

(** An interpreter that fails, whatever the expression. *)
Definition failing (msg : string) : el.Interpreter :=
  el.mkInterpreter (fun _ _ h => (h, (None, Some (ErrString msg)))).

(** An interpreter that returns nil and no error. *)
Definition nothing : el.Interpreter :=
  el.mkInterpreter (fun _ _ h => (h, (None, None))).

(** An interpreter with a side effect: it writes 99 into the first
    field of the record its context points to, and returns nil. *)
Definition poke : el.Interpreter :=
  el.mkInterpreter (fun _ ctx h =>
    match el.Struct ctx with
    | Some (_, VPtr (Some r)) =>
        match store h (r.1, r.2 ++ [0%nat]) (VInt 99) with
        | Some h' => (h', (None, None))
        | None => (h, (None, None))
        end
    | _ => (h, (None, None))
    end).

(** A scanner given by its table: the tags of each raw string it knows. *)
Definition table_scanner (tbl : list (string * list (string * string))) : scanner.Scanner :=
  scanner.mkScanner (fun raw =>
    match list_find (fun e => e.1 = raw) tbl with
    | Some (_, (_, kvs)) => (list_to_map kvs, None)
    | None => (∅, None)
    end).

(** Two runtimes: one ranges over a map in the order of [map_to_list],
    the other in the reverse order. *)
Definition rt_fwd : Runtime :=
  mkRuntime (fun _ m => map_to_list m) (fun _ m => reflexivity (map_to_list m))
            (fun _ _ => "?").

Definition rt_rev : Runtime :=
  mkRuntime (fun _ m => reverse (map_to_list m))
            (fun _ m => reverse_Permutation (map_to_list m))
            (fun _ _ => "?").

(** [type theStruct struct { A int `cc:"something"` }], the raw tag
    written without its quotes, and a record of it at address 0. *)
Definition theStruct : rtype :=
  TStruct "structor_test.theStruct" [mkField "A" "cc:something" TInt].

Definition the_scanner : scanner.Scanner :=
  table_scanner [("cc:something", [("cc", "something")])].

Definition heap0 : heap := {[ 0%nat := VStruct [VInt 0] ]}.

Definition root0 : iface := Some (TPtr theStruct, VPtr (Some (0%nat, []))).

Definition world0 : world := mkWorld heap0 0.

Definition ev_cc : evaluator :=
  mkEvaluator the_scanner {[ "cc" := Some cc ]} (mkOptions false false).

(** The handle on that record, and what [fieldIntrospect] finds of its
    field [A]. *)
Definition val0 : reflect.Value := reflect.MkValue theStruct (reflect.Stored (0%nat, [])) false.

Definition field_A : fieldDescr :=
  mkFieldDescr "A" "something" (Some cc)
    (reflect.MkValue TInt (reflect.Stored (0%nat, [0%nat])) false) TInt ∅ true.

(** The same record under an interpreter that fails, and under one with
    a side effect in an evaluator that does not mutate. *)
Definition ev_boom : evaluator :=
  mkEvaluator the_scanner {[ "cc" := Some (failing "boom") ]} (mkOptions false false).

Definition ev_poke : evaluator :=
  mkEvaluator the_scanner {[ "cc" := Some poke ]} (mkOptions true false).

Definition ev_cc_nonmutating : evaluator :=
  mkEvaluator the_scanner {[ "cc" := Some cc ]} (mkOptions true false).

(** An evaluator whose [cc] is registered with the nil interpreter. *)
Definition ev_nil : evaluator :=
  mkEvaluator the_scanner {[ "cc" := None ]} (mkOptions false false).

(** An evaluator that evaluates empty tags too, and knows no [cc]. *)
Definition ev_empty_tags : evaluator :=
  mkEvaluator the_scanner {[ "eval" := Some cc ]} (mkOptions false true).

(** [type pair struct { A int `boom:"x"`; B int `cc:"something"` }]
    at address 0, and an evaluator whose [boom] fails. *)
Definition pair : rtype :=
  TStruct "structor_test.pair"
    [mkField "A" "boom:x" TInt; mkField "B" "cc:something" TInt].

Definition pair_scanner : scanner.Scanner :=
  table_scanner [("boom:x", [("boom", "x")]); ("cc:something", [("cc", "something")])].

Definition ev_pair : evaluator :=
  mkEvaluator pair_scanner {[ "boom" := Some (failing "boom"); "cc" := Some cc ]}
    (mkOptions false false).

Definition heap_pair : heap := {[ 0%nat := VStruct [VInt 0; VInt 0] ]}.
Definition root_pair : iface := Some (TPtr pair, VPtr (Some (0%nat, []))).
Definition val_pair : reflect.Value := reflect.MkValue pair (reflect.Stored (0%nat, [])) false.

Definition field_pair_A : fieldDescr :=
  mkFieldDescr "A" "x" (Some (failing "boom"))
    (reflect.MkValue TInt (reflect.Stored (0%nat, [0%nat])) false) TInt ∅ true.

Definition ctx_pair_A : el.Context :=
  el.mkContext "A" "*structor_test.pair.A" ∅ root_pair None None (Some (TInt, VInt 0)).

(** [type outer struct { N theStruct `cc:"something"` }] at address 0:
    a nested record whose own field has an expression. *)
Definition outer : rtype :=
  TStruct "structor_test.outer" [mkField "N" "cc:something" theStruct].

Definition heap_outer : heap := {[ 0%nat := VStruct [VStruct [VInt 0]] ]}.
Definition root_outer : iface := Some (TPtr outer, VPtr (Some (0%nat, []))).
Definition val_outer : reflect.Value := reflect.MkValue outer (reflect.Stored (0%nat, [])) false.

Definition field_outer_N (intr : el.Interpreter) : fieldDescr :=
  mkFieldDescr "N" "something" (Some intr)
    (reflect.MkValue theStruct (reflect.Stored (0%nat, [0%nat])) false) theStruct ∅ true.

(** The record of [outer] again, with an int 7 at address 1 for [extra]
    to point to. *)
Definition heap_outer_extra : heap :=
  {[ 0%nat := VStruct [VStruct [VInt 0]]; 1%nat := VInt 7 ]}.
Definition extra_int : iface := Some (TPtr TInt, VPtr (Some (1%nat, []))).

(** [type holder struct { D *int `cc:"something"` }] at address 0, [D]
    pointing to an int 5 at address 1. *)
Definition holder : rtype :=
  TStruct "structor_test.holder" [mkField "D" "cc:something" (TPtr TInt)].

Definition heap_holder : heap :=
  {[ 0%nat := VStruct [VPtr (Some (1%nat, []))]; 1%nat := VInt 5 ]}.
Definition root_holder : iface := Some (TPtr holder, VPtr (Some (0%nat, []))).
Definition val_holder : reflect.Value :=
  reflect.MkValue holder (reflect.Stored (0%nat, [])) false.

(** [type holderS struct { F *theStruct `cc:"something"` }] at address
    0, [F] pointing to a record at address 1. *)
Definition holderS : rtype :=
  TStruct "structor_test.holderS" [mkField "F" "cc:something" (TPtr theStruct)].

Definition heap_holderS : heap :=
  {[ 0%nat := VStruct [VPtr (Some (1%nat, []))]; 1%nat := VStruct [VInt 0] ]}.
Definition root_holderS : iface := Some (TPtr holderS, VPtr (Some (0%nat, []))).
Definition val_holderS : reflect.Value :=
  reflect.MkValue holderS (reflect.Stored (0%nat, [])) false.

Definition ev_nothing : evaluator :=
  mkEvaluator the_scanner {[ "cc" := Some nothing ]} (mkOptions false false).

(** [type twoTags struct { A int `a:"x" b:"yy"` }] at address 0, with
    both tag names registered. *)
Definition twoTags : rtype :=
  TStruct "structor_test.twoTags" [mkField "A" "a:x b:yy" TInt].

Definition ev_two : evaluator :=
  mkEvaluator (table_scanner [("a:x b:yy", [("a", "x"); ("b", "yy")])])
    {[ "a" := Some cc; "b" := Some cc ]} (mkOptions false false).

Definition root_two : iface := Some (TPtr twoTags, VPtr (Some (0%nat, []))).

(** [type tagged struct { A int `cc:"something" json:"a"` }] at address
    0: two tag names, of which only [cc] is registered. *)
Definition tagged : rtype :=
  TStruct "structor_test.tagged" [mkField "A" "cc:something json:a" TInt].

Definition tags_tagged : gmap string string :=
  list_to_map [("cc", "something"); ("json", "a")].

Definition ev_tagged : evaluator :=
  mkEvaluator (table_scanner [("cc:something json:a", [("cc", "something"); ("json", "a")])])
    {[ "cc" := Some cc ]} (mkOptions false false).

Definition root_tagged : iface := Some (TPtr tagged, VPtr (Some (0%nat, []))).

(** The records of [TestWholeTag], [TestNonMutatingEvaluator],
    [TestError] and [TestObj], with interpreters that stand for what the
    template interpreter of the tests computes there. *)

(** An interpreter that returns the expression as a string, and one
    that returns a given result. *)
Definition echo : el.Interpreter :=
  el.mkInterpreter (fun e _ h => (h, (Some (TString, VString e), None))).

Definition constant (r : iface) : el.Interpreter :=
  el.mkInterpreter (fun _ _ h => (h, (r, None))).

Definition whole_tag : string :=
  "this whole string should be processed as an EL expression".

Definition wholeStruct : rtype :=
  TStruct "structor_test.theStruct" [mkField "A" whole_tag TInt].

Definition ev_whole : evaluator :=
  mkEvaluator (table_scanner []) {[ WholeTag := Some cc ]} (mkOptions false false).

Definition nmStruct : rtype :=
  TStruct "structor_test.theStruct"
    [mkField "A" "set 40" TInt; mkField "D" "set 5" (TPtr TInt)].

Definition ev_nm : evaluator :=
  mkEvaluator (table_scanner []) {[ WholeTag := Some (constant (Some (TInt, VInt 5))) ]}
    (mkOptions true false).

Definition heap_nm : heap := {[ 0%nat := VStruct [VInt 0; VPtr None] ]}.

Definition errStruct2 : rtype :=
  TStruct "structor_test.errStruct2" [mkField "A" "eval:42" TInt].

Definition ev_echo : evaluator :=
  mkEvaluator (table_scanner [("eval:42", [("eval", "42")])]) {[ "eval" := Some echo ]}
    (mkOptions false false).

Definition objStruct : rtype :=
  TStruct "structor_test.obj" [mkField "H" "ten:x" TString; mkField "N" "nil:x" TInterface].

Definition ev_obj : evaluator :=
  mkEvaluator (table_scanner [("ten:x", [("ten", "x")]); ("nil:x", [("nil", "x")])])
    {[ "ten" := Some (constant (Some (TInt, VInt 10))); "nil" := Some nothing ]}
    (mkOptions false false).

Definition heap_obj : heap :=
  {[ 0%nat := VStruct [VString ""; VIface (Some (TString, VString "xxx"))] ]}.

(** A scanner that fails on every tag. *)
Definition broken_scanner (msg : string) : scanner.Scanner :=
  scanner.mkScanner (fun _ => (∅, Some (ErrString msg))).

Definition ev_broken : evaluator :=
  mkEvaluator (broken_scanner "bad tag") {[ "cc" := Some cc ]} (mkOptions false false).

(** [type hidden struct { a int `cc:"something"` }] at address 0: the
    field is not exported. *)
Definition hidden : rtype :=
  TStruct "structor_test.hidden" [mkField "a" "cc:something" TInt].

Definition val_hidden : reflect.Value :=
  reflect.MkValue hidden (reflect.Stored (0%nat, [])) false.

Definition field_hidden_a : fieldDescr :=
  mkFieldDescr "a" "something" (Some cc)
    (reflect.MkValue TInt (reflect.Stored (0%nat, [0%nat])) true) TInt ∅ false.

(** [type umlaut struct { Ä int `cc:"something"` }] at address 0: the
    name of the field begins with an upper-case letter that is not
    ASCII, so the field is exported and its [PkgPath] is empty. *)
Definition umlaut : rtype :=
  TStruct "structor_test.umlaut" [MkStructField "Ä" "" "cc:something" TInt].

Definition root_umlaut : iface := Some (TPtr umlaut, VPtr (Some (0%nat, []))).

(** [type mixed struct { A int `boom:"x"`; b int `cc:"something"`;
    C int `cc:"something"` }] at address 0. *)
Definition mixed : rtype :=
  TStruct "structor_test.mixed"
    [mkField "A" "boom:x" TInt; mkField "b" "cc:something" TInt;
     mkField "C" "cc:something" TInt].

Definition heap_mixed : heap := {[ 0%nat := VStruct [VInt 0; VInt 0; VInt 0] ]}.
Definition root_mixed : iface := Some (TPtr mixed, VPtr (Some (0%nat, []))).
Definition val_mixed : reflect.Value :=
  reflect.MkValue mixed (reflect.Stored (0%nat, [])) false.

(** The record of [TestNonMutatingEvaluator] under an evaluator that
    mutates. *)
Definition ev_five : evaluator :=
  mkEvaluator (table_scanner []) {[ WholeTag := Some (constant (Some (TInt, VInt 5))) ]}
    (mkOptions false false).

Definition val_nm : reflect.Value :=
  reflect.MkValue nmStruct (reflect.Stored (0%nat, [])) false.

Definition field_nm_D : fieldDescr :=
  mkFieldDescr "D" "set 5" (Some (constant (Some (TInt, VInt 5))))
    reflect.ZeroValue (TPtr TInt) ∅ false.

(** [type box struct { V interface{} }] at address 0, with [V] holding
    the pointer to the box itself. *)
Definition box : rtype := TStruct "structor_test.box" [mkField "V" "" TInterface].

Definition root_box : iface := Some (TPtr box, VPtr (Some (0%nat, []))).

Definition heap_box : heap := {[ 0%nat := VStruct [VIface root_box] ]}.

(** [type twin struct { A int `cc:"something"`; B int `cc:"something"` }]
    at address 0. *)
Definition twin : rtype :=
  TStruct "structor_test.twin"
    [mkField "A" "cc:something" TInt; mkField "B" "cc:something" TInt].

Definition root_twin : iface := Some (TPtr twin, VPtr (Some (0%nat, []))).

(** The field [V] of the box that holds itself. *)
Definition field_box_V : fieldDescr :=
  mkFieldDescr "V" "" None
    (reflect.MkValue TInterface (reflect.Stored (0%nat, [0%nat])) false) TInterface ∅ true.

(** * Properties *)

(** ** The tests of the package

    The model run on the records of the tests gives what the tests
    assert. *)

(** [TestCustomInterpretor]: [A] is 9, the length of the expression. *)
Example TestCustomInterpretor :
  let r := Eval 2 ev_cc rt_fwd root0 None world0 in
  outcome_of r = Ret None /\ load (mem (final_world r)) (0%nat, [0%nat]) = Some (VInt 9).
Proof. split; vm_compute; reflexivity. Qed.

(** [TestWholeTag]: the interpreter under [WholeTag] gets the whole raw
    tag, and [A] is 57. *)
Example TestWholeTag :
  let r := Eval 2 ev_whole rt_fwd (Some (TPtr wholeStruct, VPtr (Some (0%nat, [])))) None
             world0 in
  outcome_of r = Ret None /\ load (mem (final_world r)) (0%nat, [0%nat]) = Some (VInt 57).
Proof. split; vm_compute; reflexivity. Qed.

(** [TestNonMutatingEvaluator]: no error, [A] is still 0 and [D] still nil. *)
Example TestNonMutatingEvaluator :
  let r := Eval 2 ev_nm rt_fwd (Some (TPtr nmStruct, VPtr (Some (0%nat, [])))) None
             (mkWorld heap_nm 0) in
  outcome_of r = Ret None /\ mem (final_world r) = heap_nm.
Proof. split; vm_compute; reflexivity. Qed.

(** [TestError], second half: the string 42 does not convert to the
    int field, and the error names the field. *)
Example TestError_conversion :
  let r := Eval 2 ev_echo rt_fwd (Some (TPtr errStruct2, VPtr (Some (0%nat, [])))) None
             world0 in
  exists e, outcome_of r = Ret (Some e) /\
            contains (error_text e) "<<*structor_test.errStruct2.A>>" = true /\
            mem (final_world r) = heap0.
Proof. eexists. repeat split; vm_compute; reflexivity. Qed.

(** [TestObj], fields [H] and [N]: the int 10 is converted to the
    string of the line feed, and nil empties the interface. *)
Example TestObj_H_N :
  let r := Eval 2 ev_obj rt_fwd (Some (TPtr objStruct, VPtr (Some (0%nat, [])))) None
             (mkWorld heap_obj 0) in
  outcome_of r = Ret None /\
  load (mem (final_world r)) (0%nat, [0%nat]) = Some (VString multierror.newline) /\
  load (mem (final_world r)) (0%nat, [1%nat]) = Some (VIface None).
Proof. repeat split; vm_compute; reflexivity. Qed.

(** ** Interpreter dispatch *)

Lemma rangeTags_Some (interps : Interpreters) entries k t intr :
  rangeTags interps entries = Some (k, t, intr) ->
  (k, t) ∈ entries /\ interps !! k = Some intr.
Proof.
  induction entries as [|[k' t'] rest IH]; simpl; [done|].
  destruct (interps !! k') as [intr'|] eqn:Hk.
  - intros [= -> -> ->]. split; [left | done].
  - intros H. destruct (IH H) as [Hin Hl]. split; [by right | done].
Qed.

Lemma rangeTags_None (interps : Interpreters) entries :
  rangeTags interps entries = None ->
  forall k t, (k, t) ∈ entries -> interps !! k = None.
Proof.
  induction entries as [|[k' t'] rest IH]; simpl; intros H k t Hin.
  - by apply elem_of_nil in Hin.
  - destruct (interps !! k') as [intr'|] eqn:Hk; [done|].
    apply elem_of_cons in Hin as [[= -> ->]|Hin]; [done | by eapply IH].
Qed.

Lemma range_order_elem (rt : Runtime) n (m : gmap string string) k t :
  (k, t) ∈ range_order rt n m <-> m !! k = Some t.
Proof. rewrite (range_order_perm rt n m). apply elem_of_map_to_list. Qed.

(** What [fieldIntrospect] returns when the scan went through: the
    field's tag map is the scanner's, and dispatch has taken one of the
    three ways. *)
Lemma fieldIntrospect_cases ev rt val typ i w w' f sf :
  reflect.TypeField typ i = Ret sf ->
  fieldIntrospect ev rt val typ i w = (w', Ret (f, None)) ->
  let tags0 := (scanner.Tags (scanner ev) (Tag sf)).1 in
  let entries := range_order rt (ticks w) tags0 in
  (exists k t intr, rangeTags (interpreters ev) entries = Some (k, t, intr) /\
     interpreter f = intr /\ expr f = t /\ tags f = delete k tags0) \/
  (rangeTags (interpreters ev) entries = None /\
     exists intr, interpreters ev !! WholeTag = Some intr /\
       interpreter f = intr /\ expr f = Tag sf /\ tags f = delete WholeTag tags0) \/
  (rangeTags (interpreters ev) entries = None /\ interpreters ev !! WholeTag = None /\
     interpreter f = None /\ expr f = "" /\ tags f = tags0).
Proof.
  intros Hsf. unfold fieldIntrospect. rewrite Hsf. simpl.
  destruct (reflect.Field val i) as [fv| | |]; simpl; try done.
  destruct (reflect.Indirect (mem w) fv) as [v| | |]; simpl; try done.
  destruct (scanner.Tags (scanner ev) (Tag sf)) as [tags0 [e|]]; simpl; [done|].
  destruct (rangeTags _ _) as [[[k t] intr]|] eqn:Hr.
  - intros [= <- <-]. left. by exists k, t, intr.
  - destruct (interpreters ev !! WholeTag) as [intr|] eqn:Hw.
    + intros [= <- <-]. right; left. split; [done|]. by exists intr.
    + intros [= <- <-]. right; right. done.
Qed.



(** ** What [fieldIntrospect] finds of a field *)

Lemma fieldIntrospect_inv ev rt val styp i w w1 f err :
  fieldIntrospect ev rt val styp i w = (w1, Ret (f, err)) ->
  exists sf fv,
    reflect.TypeField styp i = Ret sf /\ reflect.Field val i = Ret fv /\
    reflect.Indirect (mem w) fv = Ret (value f) /\
    name f = Name sf /\ typ f = Type_ sf /\ mem w1 = mem w /\
    err = (scanner.Tags (scanner ev) (Tag sf)).2 /\
    settable f =
      match err with
      | Some _ => false
      | None =>
          reflect.CanSet (value f)
          || (reflect.CanAddr (value f)
              && match reflect.Addr (value f) with
                 | Ret a => reflect.CanSet a
                 | _ => false
                 end)
      end.
Proof.
  unfold fieldIntrospect.
  destruct (reflect.TypeField styp i) as [sf| | |] eqn:Hsf; simpl; try done.
  destruct (reflect.Field val i) as [fv| | |] eqn:Hfv; simpl; try done.
  destruct (reflect.Indirect (mem w) fv) as [v| | |] eqn:Hv; simpl; try done.
  destruct (scanner.Tags (scanner ev) (Tag sf)) as [tags0 [e|]] eqn:Hsc; simpl.
  { intros ?; simplify_eq. exists sf, fv. rewrite Hsc. repeat split; simpl; done. }
  destruct (rangeTags _ _) as [[[k t] intr]|];
    [|destruct (interpreters ev !! WholeTag) as [intr|]].
  all: intros ?; simplify_eq; exists sf, fv; rewrite Hsc; repeat split; simpl; done.
Qed.

(** The handle on a field: it has the declared type, it is read-only
    when the field is not exported, and it is in the store only if the
    record is. *)
Lemma Field_handle val styp i sf fv :
  reflect.TypeOf val = Ret styp -> reflect.TypeField styp i = Ret sf ->
  reflect.Field val i = Ret fv ->
  exists p ro, fv = reflect.MkValue (Type_ sf) p ro /\
    (exported sf = false -> ro = true) /\
    (reflect.CanAddr val = false -> exists x, p = reflect.Temp x).
Proof.
  destruct val as [|t p ro]; [done|]. simpl. intros [= ->].
  destruct styp; simpl; try done.
  destruct (fields !! i) as [f|]; [|done]. intros [= ->].
  destruct p as [r|x]; simpl.
  - intros [= <-]. eexists _, _. split; [done|]. split; [|done].
    intros ->. by rewrite orb_true_r.
  - destruct x; try done. destruct (fields0 !! i); simpl; [|done].
    intros [= <-]. eexists _, _. split; [done|]. split; [|by eauto].
    intros ->. by rewrite orb_true_r.
Qed.

Lemma Indirect_handle h t p ro v :
  reflect.Indirect h (reflect.MkValue t p ro) = Ret v ->
  (kind_of t <> Ptr /\ v = reflect.MkValue t p ro) \/
  (exists e, t = TPtr e /\
     (v = reflect.ZeroValue \/ exists r, v = reflect.MkValue e (reflect.Stored r) ro)).
Proof.
  unfold reflect.Indirect. simpl. destruct (decide (kind_of t = Ptr)) as [Hk|Hk].
  - destruct t; try done. simpl. destruct (reflect.read h p) as [x|]; simpl; [|done].
    destruct x as [| | | |[r|]| |]; try done; intros [= <-]; right; eexists; by eauto.
  - intros [= <-]. by left.
Qed.

(** ** Construction *)

(** C8. Constructing an evaluator with an empty registry panics at
    once, whatever the scanner and the options, also through
    [NewEvaluator] and [NewNonmutatingEvaluator]; with a registry that
    is not empty it returns the evaluator made of its three arguments.
    So no evaluator that comes out of a constructor has an empty
    registry. *)
Theorem NewEvaluatorWithOptions_registry sc (interps : Interpreters) opts :
  (interps = ∅ <->
     NewEvaluatorWithOptions sc interps opts
       = Panic (PanicString "no interpreters registered")) /\
  (interps ≠ ∅ <->
     NewEvaluatorWithOptions sc interps opts = Ret (mkEvaluator sc interps opts)) /\
  (forall ev, NewEvaluatorWithOptions sc interps opts = Ret ev ->
     ev = mkEvaluator sc interps opts /\ interpreters ev ≠ ∅) /\
  NewEvaluator sc ∅ = Panic (PanicString "no interpreters registered") /\
  NewNonmutatingEvaluator sc ∅ = Panic (PanicString "no interpreters registered").
Proof.
  split; [|split; [|split; [|split; reflexivity]]]; unfold NewEvaluatorWithOptions.
  - destruct (decide (size interps = 0)) as [Hz|Hz].
    + by apply map_size_empty_iff in Hz.
    + split; [|done]. intros ->. by rewrite map_size_empty in Hz.
  - destruct (decide (size interps = 0)) as [Hz|Hz].
    + apply map_size_empty_iff in Hz. split; [done | intros; done].
    + split; [done|]. intros _ ->. by rewrite map_size_empty in Hz.
  - destruct (decide (size interps = 0)) as [Hz|Hz]; [done|].
    intros ev [= <-]. split; [done|]. simpl. intros ->. by rewrite map_size_empty in Hz.
Qed.

(** ** The store *)

Lemma value_upd_is_Some v p x : is_Some (value_at v p) -> is_Some (value_upd v p x).
Proof.
  revert v. induction p as [|i p IH]; intros v; simpl; [by eauto|].
  destruct v; simpl; try by intros [? [=]].
  destruct (fields !! i) as [f|] eqn:Hf; simpl; [|by intros [? [=]]].
  intros Hs. destruct (IH f Hs) as [f' Hf']. rewrite Hf'. simpl. by eauto.
Qed.

Lemma value_at_upd v p x v' : value_upd v p x = Some v' -> value_at v' p = Some x.
Proof.
  revert v v'. induction p as [|i p IH]; intros v v'; simpl; [by intros [= ->]|].
  destruct v; simpl; try done.
  destruct (fields !! i) as [f|] eqn:Hf; simpl; [|done].
  destruct (value_upd f p x) as [f'|] eqn:Hf'; simpl; [|done].
  intros [= <-]. simpl.
  rewrite list_lookup_insert_eq; [|by eapply lookup_lt_Some]. simpl. by eapply IH.
Qed.

Lemma store_is_Some h r x : is_Some (load h r) -> is_Some (store h r x).
Proof.
  unfold load, store. destruct (h !! r.1) as [v|]; simpl; [|by intros [? [=]]].
  intros Hs. destruct (value_upd_is_Some v r.2 x Hs) as [v' Hv']. rewrite Hv'. by eauto.
Qed.

Lemma store_load h r x h' : store h r x = Some h' -> load h' r = Some x.
Proof.
  unfold load, store. destruct (h !! r.1) as [v|]; simpl; [|done].
  destruct (value_upd v r.2 x) as [v'|] eqn:Hv'; simpl; [|done].
  intros [= <-]. rewrite lookup_insert_eq. simpl. by eapply value_at_upd.
Qed.

(** ** Texts *)

Lemma prefix_app a b : String.prefix a (a ++ b) = true.
Proof.
  induction a as [|c a IH]; simpl; [by destruct b|].
  destruct (ascii_dec c c); [done | congruence].
Qed.

Lemma contains_app_r a b sub : contains b sub = true -> contains (a ++ b) sub = true.
Proof.
  induction a as [|c a IH]; simpl; [done|].
  intros H. rewrite (IH H). by rewrite orb_true_r.
Qed.

Lemma contains_prefix s sub : String.prefix sub s = true -> contains s sub = true.
Proof. intros H. destruct s; cbn [contains]; by rewrite H. Qed.

Lemma contains_infix a b c : contains (a ++ b ++ c) b = true.
Proof. apply contains_app_r, contains_prefix, prefix_app. Qed.

Lemma string_app_assoc (a b c : string) : ((a ++ b) ++ c = a ++ (b ++ c))%string.
Proof.
  induction a as [|x a IH]; [done|].
  change (String x ((a ++ b) ++ c) = String x (a ++ (b ++ c)))%string. by f_equal.
Qed.

Lemma field_error_names_field longName e :
  contains (error_text (field_error longName e)) ("<<" ++ longName ++ ">>") = true.
Proof.
  unfold field_error. cbn [error_text].
  change ("structor: <<" ++ longName ++ ">>: " ++ error_text e)%string
    with ("structor: " ++ ("<<" ++ (longName ++ (">>" ++ (": " ++ error_text e)))))%string.
  rewrite <- (string_app_assoc longName ">>" _).
  rewrite <- (string_app_assoc "<<" (longName ++ ">>") _).
  apply contains_infix.
Qed.

(** ** Coercion and assignment *)

Ltac unfold_outcome := unfold mbind, outcome_bind, obind, of_option in *.

Lemma Set_not_OutOfFuel h v x : reflect.Set_ h v x <> OutOfFuel.
Proof. unfold reflect.Set_. unfold_outcome. repeat case_match; done. Qed.

Lemma Convert_not_OutOfFuel h v t : reflect.Convert h v t <> OutOfFuel.
Proof. unfold reflect.Convert. unfold_outcome. repeat case_match; done. Qed.

Lemma bind_not_OutOfFuel {A B} (o : outcome A) (k : A -> outcome B) :
  o <> OutOfFuel -> (forall a, k a <> OutOfFuel) -> (o ≫= k) <> OutOfFuel.
Proof. intros Ho Hk. destruct o; simpl; done. Qed.

Lemma reflectSet_body_not_OutOfFuel h v vt nv : reflectSet_body h v vt nv <> OutOfFuel.
Proof.
  unfold reflectSet_body. destruct nv as [[t x]|].
  - apply bind_not_OutOfFuel; [done|]. intros t'. case_match; [done|].
    apply bind_not_OutOfFuel; [apply Convert_not_OutOfFuel|].
    intros a. apply Set_not_OutOfFuel.
  - case_match; [apply Set_not_OutOfFuel | done].
Qed.

Lemma reflectSet_no_panic h v vt nv :
  (exists h', reflectSet h v vt nv = Ret (h', None)) \/
  (exists e, reflectSet h v vt nv = Ret (h, Some e)) \/
  reflectSet h v vt nv = Stuck.
Proof.
  unfold reflectSet.
  pose proof (reflectSet_body_not_OutOfFuel h v vt nv).
  destruct (reflectSet_body h v vt nv) as [h'|[m|e]| |]; eauto. done.
Qed.

Lemma reflectSet_nil_assigns_zero h vt r :
  is_Some (load h r) ->
  exists h', reflectSet h (reflect.MkValue vt (reflect.Stored r) false) vt None = Ret (h', None)
    /\ store h r (zero_value vt) = Some h' /\ load h' r = Some (zero_value vt).
Proof.
  intros Hl. destruct (store_is_Some h r (zero_value vt) Hl) as [h' Hs].
  exists h'. split; [|split; [done | by eapply store_load]].
  unfold reflectSet, reflectSet_body. simpl.
  rewrite decide_True by done. simpl. unfold_outcome. by rewrite Hs.
Qed.

Lemma reflectSet_nil_invalid h vt : reflectSet h reflect.ZeroValue vt None = Ret (h, None).
Proof. done. Qed.

Lemma reflectSet_seed h v vt t x :
  reflect.ConvertibleTo t vt = false -> reflect.Kind v = Struct ->
  reflectSet h v vt (Some (t, x)) = Ret (h, None).
Proof.
  intros Hc Hk. unfold reflectSet, reflectSet_body. simpl. rewrite Hc, Hk. done.
Qed.

Lemma reflectSet_unconvertible h v vt t x :
  reflect.ConvertibleTo t vt = false -> reflect.Kind v <> Struct ->
  reflectSet h v vt (Some (t, x)) =
    Ret (h, Some (ErrString ("structor: reflect.Value.Convert: value of type "
                             ++ type_string t ++ " cannot be converted to type "
                             ++ type_string vt))).
Proof.
  intros Hc Hk. unfold reflectSet, reflectSet_body. simpl. rewrite Hc.
  rewrite bool_decide_eq_false_2 by done. simpl. done.
Qed.

Lemma reflectSet_converts h vt r t x :
  reflect.ConvertibleTo t vt = true ->
  (t = TInt -> exists n, x = VInt n) ->
  is_Some (load h r) ->
  exists h' y,
    reflect.Convert h (reflect.ValueOf (Some (t, x))) vt
      = Ret (reflect.MkValue vt (reflect.Temp y) false) /\
    reflectSet h (reflect.MkValue vt (reflect.Stored r) false) vt (Some (t, x))
      = Ret (h', None) /\
    load h' r = Some y.
Proof.
  intros Hc Hshape Hl.
  assert (exists y, reflect.Convert h (reflect.ValueOf (Some (t, x))) vt
      = Ret (reflect.MkValue vt (reflect.Temp y) false)) as [y Hy].
  { unfold reflect.Convert. simpl. rewrite Hc. simpl.
    destruct t; try (destruct vt; by eauto).
    destruct (Hshape eq_refl) as [n ->]. destruct vt; by eauto. }
  destruct (store_is_Some h r y Hl) as [h' Hs].
  exists h', y. split; [done|]. split; [|by eapply store_load].
  unfold reflectSet, reflectSet_body. cbn [reflect.ValueOf reflect.TypeOf mbind outcome_bind obind].
  rewrite Hc. cbn [negb andb]. 
  change (reflect.ValueOf (Some (t, x))) with (reflect.MkValue t (reflect.Temp x) false) in Hy.
  unfold reflect.ValueOf. rewrite Hy. simpl.
  rewrite decide_True by done. simpl. unfold_outcome. by rewrite Hs.
Qed.

Lemma Convert_returns h t x vt :
  (t = TInt -> exists n, x = VInt n) ->
  (exists y ro, reflect.Convert h (reflect.MkValue t (reflect.Temp x) false) vt
     = Ret (reflect.MkValue vt (reflect.Temp y) ro)) \/
  (exists p, reflect.Convert h (reflect.MkValue t (reflect.Temp x) false) vt = Panic p).
Proof.
  intros Hshape. unfold reflect.Convert.
  destruct (negb (reflect.ConvertibleTo t vt)); [by eauto|]. left. simpl.
  destruct t; try (destruct vt; by eauto).
  destruct (Hshape eq_refl) as [n ->]. destruct vt; by eauto.
Qed.

Lemma Set_returns h v y x_t ro :
  (forall t r ro', v = reflect.MkValue t (reflect.Stored r) ro' -> is_Some (load h r)) ->
  (exists h', reflect.Set_ h v (reflect.MkValue x_t (reflect.Temp y) ro) = Ret h') \/
  (exists p, reflect.Set_ h v (reflect.MkValue x_t (reflect.Temp y) ro) = Panic p).
Proof.
  intros Hst. unfold reflect.Set_.
  destruct v as [|dst [r|tv] [|]]; try by eauto.
  destruct ro; [by eauto|].
  specialize (Hst dst r false eq_refl).
  repeat case_match; simpl; try by eauto.
  - destruct (store_is_Some h r y Hst) as [h' ->]. by eauto.
  - destruct (store_is_Some h r (VIface (Some (x_t, y))) Hst) as [h' ->]. by eauto.
Qed.

(** On a store that holds the field, [reflectSet] returns. *)
Lemma reflectSet_returns h v vt nv :
  (forall t r ro, v = reflect.MkValue t (reflect.Stored r) ro -> is_Some (load h r)) ->
  (forall t x, nv = Some (t, x) -> t = TInt -> exists n, x = VInt n) ->
  exists res, reflectSet h v vt nv = Ret res.
Proof.
  intros Hst Hshape. unfold reflectSet, reflectSet_body.
  destruct nv as [[t x]|].
  - cbn [reflect.ValueOf reflect.TypeOf mbind outcome_bind obind].
    destruct (negb (reflect.ConvertibleTo t vt) && bool_decide (reflect.Kind v = Struct));
      [by eauto|].
    destruct (Convert_returns h t x vt (Hshape t x eq_refl)) as [(y & ro & ->)|[p ->]].
    + cbn [mbind outcome_bind obind].
      destruct (Set_returns h v y vt ro Hst) as [[h' ->]|[[m|e] ->]]; by eauto.
    + cbn [mbind outcome_bind obind]. destruct p; by eauto.
  - destruct (reflect.IsValid v); [|by eauto]. unfold reflect.Zero.
    destruct (Set_returns h v (zero_value vt) vt false Hst) as [[h' ->]|[[m|e] ->]]; by eauto.
Qed.

Lemma Set_writes h v x h' :
  reflect.Set_ h v x = Ret h' ->
  exists t r y, v = reflect.MkValue t (reflect.Stored r) false /\ store h r y = Some h'.
Proof.
  unfold reflect.Set_, mbind, outcome_bind, obind, of_option.
  repeat case_match; try done; intros; simplify_eq; by eauto.
Qed.

(** [reflectSet] writes nowhere but to the storage of the field. *)
Lemma reflectSet_writes h v vt nv h' e :
  reflectSet h v vt nv = Ret (h', e) ->
  h' = h \/
  exists t r y, v = reflect.MkValue t (reflect.Stored r) false /\ store h r y = Some h'.
Proof.
  unfold reflectSet. destruct (reflectSet_body h v vt nv) as [h1|[m|e1]| |] eqn:Hb;
    try done; try (intros [= <- <-]; by left).
  intros [= <- <-]. unfold reflectSet_body in Hb.
  destruct nv as [[t x]|].
  - cbn [reflect.ValueOf reflect.TypeOf mbind outcome_bind obind] in Hb.
    destruct (negb (reflect.ConvertibleTo t vt) && bool_decide (reflect.Kind v = Struct));
      [by left; simplify_eq|].
    destruct (reflect.Convert h _ vt) as [c| | |]; try done.
    cbn [mbind outcome_bind obind] in Hb. right. by eapply Set_writes.
  - destruct (reflect.IsValid v); [|by left; simplify_eq].
    right. by eapply Set_writes.
Qed.

Lemma rtype_neq_TPtr t : t <> TPtr t.
Proof. induction t; try done. intros [= H]. by apply IHt. Qed.

(** [reflectSet] with the value a pointer points to and the pointer
    type, as it is called for a field declared as a pointer: the
    assignment of a pointer to the storage of what it points to is
    refused, so the store is never changed, and there is an error
    unless nothing was tried. *)
Lemma reflectSet_pointee h T p ro nv h' e :
  T <> TInterface ->
  reflectSet h (reflect.MkValue T p ro) (TPtr T) nv = Ret (h', e) ->
  h' = h /\
  (e = None ->
     exists t x, nv = Some (t, x) /\ reflect.ConvertibleTo t (TPtr T) = false /\
       kind_of T = Struct).
Proof.
  intros Hni. unfold reflectSet.
  destruct (reflectSet_body h _ (TPtr T) nv) as [h1|[m|e1]| |] eqn:Hb; try done.
  2, 3: intros [= <- <-]; split; done.
  intros [= <- <-]. unfold reflectSet_body in Hb.
  assert (forall x, reflect.Set_ h (reflect.MkValue T p ro)
                      (reflect.MkValue (TPtr T) (reflect.Temp x) false) <> Ret h1) as Hset.
  { intros x. unfold reflect.Set_. destruct p as [r|y], ro; try done.
    rewrite decide_False by apply rtype_neq_TPtr. by rewrite decide_False. }
  destruct nv as [[t x]|].
  - cbn [reflect.ValueOf reflect.TypeOf mbind outcome_bind obind] in Hb.
    destruct (reflect.ConvertibleTo t (TPtr T)) eqn:Hc; cbn [negb andb] in Hb.
    + exfalso. unfold reflect.Convert in Hb. rewrite Hc in Hb.
      cbn [negb reflect.read of_option mbind outcome_bind obind] in Hb.
      destruct t; by apply Hset in Hb.
    + destruct (bool_decide (reflect.Kind (reflect.MkValue T p ro) = Struct)) eqn:Hk.
      * injection Hb as <-. split; [done|]. intros _. exists t, x.
        split; [done|]. split; [done|]. by apply bool_decide_eq_true_1 in Hk.
      * unfold reflect.Convert in Hb. by rewrite Hc in Hb.
  - exfalso. cbn [reflect.IsValid] in Hb. by apply Hset in Hb.
Qed.

Lemma reflectSet_pointee_nil h T r :
  T <> TInterface ->
  reflectSet h (reflect.MkValue T (reflect.Stored r) false) (TPtr T) None
    = Ret (h, Some (ErrString ("structor: reflect.Set: value of type " ++ type_string (TPtr T)
                               ++ " is not assignable to type " ++ type_string T))).
Proof.
  intros Hni. unfold reflectSet, reflectSet_body. cbn [reflect.IsValid reflect.Zero reflect.Set_].
  rewrite decide_False by apply rtype_neq_TPtr. by rewrite decide_False.
Qed.

(** ** The closure of a field *)

Lemma evalField_executed rec ev rt s extra curr subctx val styp i w w1 f ctx intr :
  reaches_Execute ev rt s extra curr subctx val styp i w w1 f ctx intr ->
  evalField rec ev rt s extra curr subctx val styp i w =
    let '(h2, (result, err)) := el.Execute intr (expr f) ctx (mem w1) in
    let w2 := mkWorld h2 (ticks w1) in
    let call := Some (mkCall intr (expr f) ctx result err) in
    match err with
    | Some e => (w2, TNode call (Some e) None, Ret (Some e))
    | None =>
        if negb (NonMutating (options ev)) && settable f then
          match reflectSet (mem w2) (value f) (typ f) result with
          | Ret (h3, Some e) =>
              let e' := field_error (long_name curr (name f)) e in
              (mkWorld h3 (ticks w2), TNode call (Some e') None, Ret (Some e'))
          | Ret (h3, None) => descend rec s extra f result call (mkWorld h3 (ticks w2))
          | o => (w2, TNode call None None, no_return o)
          end
        else descend rec s extra f result call w2
    end.
Proof.
  intros (Hfi & Hguard & Hctx & Hintr). unfold evalField. rewrite Hfi.
  assert (negb (bool_decide (expr f = "")) || EvalEmptyTags (options ev) = true) as ->.
  { destruct Hguard as [Hne| ->]; [|by rewrite orb_true_r].
    by rewrite bool_decide_eq_false_2. }
  rewrite Hctx, Hintr. done.
Qed.

Lemma evalField_skipped rec ev rt s extra curr subctx val styp i w w1 f :
  fieldIntrospect ev rt val styp i w = (w1, Ret (f, None)) ->
  expr f = "" -> EvalEmptyTags (options ev) = false ->
  evalField rec ev rt s extra curr subctx val styp i w = descend rec s extra f None None w1.
Proof.
  intros Hfi He Hopt. unfold evalField. rewrite Hfi, He, Hopt. done.
Qed.

(** ** The loop over the fields *)

Lemma evalFields_app field pre post merr w :
  evalFields field (pre ++ post) merr w =
    let '(w1, ns1, o1) := evalFields field pre merr w in
    match o1 with
    | Ret m1 =>
        let '(w2, ns2, o2) := evalFields field post m1 w1 in (w2, ns1 ++ ns2, o2)
    | _ => (w1, ns1, o1)
    end.
Proof.
  revert merr w. induction pre as [|i pre IH]; intros merr w; simpl.
  - by destruct (evalFields field post merr w) as [[w2 ns2] o2].
  - destruct (field i w) as [[w1 n] o]. destruct o as [err| | |]; simpl; try done.
    rewrite IH.
    destruct (evalFields field pre _ w1) as [[w2 ns] o2].
    destruct o2 as [m1| | |]; try done.
    by destruct (evalFields field post m1 w2) as [[w3 ns3] o3].
Qed.

(** The errors [merr] holds are kept, in their order, by the rest of the loop. *)
Lemma evalFields_keeps field indices merr w w' ns merr' :
  evalFields field indices merr w = (w', ns, Ret merr') ->
  exists l, multierror.list_of merr' = multierror.list_of merr ++ l.
Proof.
  revert merr w w' ns. induction indices as [|i rest IH]; intros merr w w' ns; simpl.
  - intros [= <- <- <-]. exists []. by rewrite app_nil_r.
  - destruct (field i w) as [[w1 n] o]. destruct o as [err| | |]; try done.
    destruct (evalFields field rest _ w1) as [[w2 ns2] o2] eqn:Hrest.
    intros [= <- <- ->]. apply IH in Hrest as [l Hl]. rewrite Hl.
    destruct err as [e|]; [|by eauto]. simpl. rewrite <- app_assoc. by eauto.
Qed.

Lemma eval_fields ev rt n s extra substruct subctx w val styp l :
  let curr := current s substruct in
  structIntrospect rt (mem w) curr = Ret (val, styp, None) ->
  reflect.NumField styp = Ret l ->
  eval (S n) ev rt s extra substruct subctx w =
    evalFields (evalField (eval n ev rt) ev rt s extra curr subctx val styp) (seq 0 l) None w.
Proof.
  intros curr Hs Hn. change (eval (S n) ev rt s extra substruct subctx w)
    with (eval_body (eval n ev rt) ev rt s extra substruct subctx w).
  subst curr. unfold eval_body. by rewrite Hs, Hn.
Qed.

Lemma TypeField_NumField styp i sf :
  reflect.TypeField styp i = Ret sf ->
  exists l, reflect.NumField styp = Ret l /\ (i < l)%nat.
Proof.
  destruct styp; simpl; try done.
  destruct (fields !! i) eqn:Hf; [|done]. intros _. eexists. split; [done|].
  by eapply lookup_lt_Some.
Qed.

Lemma seq_split_at i l : (i < l)%nat -> seq 0 l = seq 0 i ++ i :: seq (S i) (l - S i).
Proof.
  intros Hi. replace l with (i + S (l - S i))%nat at 1 by lia.
  rewrite seq_app. simpl. done.
Qed.

Lemma fieldIntrospect_no_match ev rt val typ i w w' f sf :
  reflect.TypeField typ i = Ret sf ->
  fieldIntrospect ev rt val typ i w = (w', Ret (f, None)) ->
  (forall k, is_Some ((scanner.Tags (scanner ev) (Tag sf)).1 !! k) ->
     interpreters ev !! k = None) ->
  interpreters ev !! WholeTag = None ->
  interpreter f = None /\ expr f = "" /\ tags f = (scanner.Tags (scanner ev) (Tag sf)).1.
Proof.
  intros Hsf Hfi Hnone Hw.
  destruct (fieldIntrospect_cases _ _ _ _ _ _ _ _ _ Hsf Hfi)
    as [(k & t & intr & Hr & _)|[(_ & intr & Hw' & _)|(_ & _ & ?)]].
  - apply rangeTags_Some in Hr as [Hin Hl]. apply range_order_elem in Hin.
    rewrite Hnone in Hl; [done | by exists t].
  - congruence.
  - done.
Qed.

Lemma evalField_guard ev f :
  expr f <> "" \/ EvalEmptyTags (options ev) = true ->
  negb (bool_decide (expr f = "")) || EvalEmptyTags (options ev) = true.
Proof.
  intros [Hne| ->]; [|by rewrite orb_true_r]. by rewrite bool_decide_eq_false_2.
Qed.

Lemma evalField_nil_interpreter rec ev rt s extra curr subctx val styp i w w1 f ctx :
  expr f <> "" \/ EvalEmptyTags (options ev) = true ->
  fieldIntrospect ev rt val styp i w = (w1, Ret (f, None)) ->
  interpreter f = None ->
  fieldContext s extra subctx (long_name curr (name f)) f (mem w1) = Ret ctx ->
  evalField rec ev rt s extra curr subctx val styp i w
    = (w1, TNode None None None, Panic nil_dereference).
Proof.
  intros Hg Hfi Hi Hctx. unfold evalField.
  by rewrite Hfi, (evalField_guard _ _ Hg), Hctx, Hi.
Qed.

Lemma evalField_no_context rec ev rt s extra curr subctx val styp i w w1 f p :
  expr f <> "" \/ EvalEmptyTags (options ev) = true ->
  fieldIntrospect ev rt val styp i w = (w1, Ret (f, None)) ->
  fieldContext s extra subctx (long_name curr (name f)) f (mem w1) = Panic p ->
  evalField rec ev rt s extra curr subctx val styp i w = (w1, TNode None None None, Panic p).
Proof.
  intros Hg Hfi Hctx. unfold evalField.
  by rewrite Hfi, (evalField_guard _ _ Hg), Hctx.
Qed.

Lemma evalField_nested rec ev rt s extra curr subctx val styp i w w' c e ns o :
  evalField rec ev rt s extra curr subctx val styp i w = (w', TNode c e (Some ns), o) ->
  exists sub w0, rec s extra sub (result_of c) w0 = (w', ns, o) /\ e = returned o.
Proof.
  assert (forall f result call w0, result_of call = result ->
    descend rec s extra f result call w0 = (w', TNode c e (Some ns), o) ->
    exists sub w0, rec s extra sub (result_of c) w0 = (w', ns, o) /\ e = returned o) as Hd.
  { intros f result call w0 Hres. unfold descend.
    repeat case_match; intros; simplify_eq; eauto. }
  unfold evalField. repeat case_match; intros; simplify_eq;
    try (by eapply Hd; [|eassumption]).
Qed.

(** ** The contexts of a walk *)

Lemma evalFields_nodes (P : tnode -> Prop) field indices merr w :
  (forall i w, P (node_of (field i w))) ->
  Forall P (nodes_of (evalFields field indices merr w)).
Proof.
  intros Hf. revert merr w. induction indices as [|i rest IH]; intros merr w; simpl.
  - constructor.
  - specialize (Hf i w). destruct (field i w) as [[w1 n] o]. unfold node_of in Hf. simpl in Hf.
    destruct o as [err| | |]; try (by repeat constructor).
    specialize (IH (match err with Some e => Some (multierror.Append merr e) | None => merr end) w1).
    destruct (evalFields field rest _ w1) as [[w2 ns] o2]. by constructor.
Qed.

Lemma fieldContext_slots s extra subctx longName f h ctx :
  fieldContext s extra subctx longName f h = Ret ctx ->
  el.Struct ctx = s /\ el.Extra ctx = extra /\ el.Sub ctx = subctx /\
  el.Name ctx = name f /\ el.LongName ctx = longName /\ el.Tags ctx = tags f.
Proof.
  unfold fieldContext.
  destruct (if reflect.IsValid (value f) then _ else _) as [v| | |]; simpl; try done.
  by intros [= <-].
Qed.

Lemma ctx_ok_leaf s extra sub err : ctx_ok s extra sub (TNode None err None).
Proof. by constructor. Qed.

Lemma descend_ctx_ok (rec : eval_fn) s extra sub f result call w :
  (forall c, call = Some c ->
     el.Struct (c_ctx c) = s /\ el.Extra (c_ctx c) = extra /\ el.Sub (c_ctx c) = sub) ->
  result_of call = result ->
  (forall substruct subctx w,
     Forall (ctx_ok s extra subctx) (nodes_of (rec s extra substruct subctx w))) ->
  ctx_ok s extra sub (node_of (descend rec s extra f result call w)).
Proof.
  intros Hcall Hres Hrec. unfold descend.
  repeat case_match; unfold node_of; simpl; try (by constructor).
  all: match goal with H : _ ?a ?b ?c ?d ?w = (_, _, _) |- _ =>
    specialize (Hrec c d w); rewrite H in Hrec end.
  all: constructor; [done|]; intros ns [= <-]; by rewrite Hres.
Qed.

Lemma evalField_ctx_ok rec ev rt s extra curr subctx val styp i w :
  (forall substruct subctx w,
     Forall (ctx_ok s extra subctx) (nodes_of (rec s extra substruct subctx w))) ->
  ctx_ok s extra subctx (node_of (evalField rec ev rt s extra curr subctx val styp i w)).
Proof.
  intros Hrec. unfold evalField.
  destruct (fieldIntrospect ev rt val styp i w) as [w1 [[f [e|]]|p| |]];
    try apply ctx_ok_leaf.
  destruct (negb (bool_decide (expr f = "")) || EvalEmptyTags (options ev)).
  2: { by apply descend_ctx_ok. }
  destruct (fieldContext _ _ _ _ _ _) as [ctx|p| |] eqn:Hctx; try apply ctx_ok_leaf.
  apply fieldContext_slots in Hctx as (Hs & He & Hsub & _).
  destruct (interpreter f) as [intr|]; try apply ctx_ok_leaf.
  destruct (el.Execute intr (expr f) ctx (mem w1)) as [h2 [result [e|]]].
  { constructor; [by intros c [= <-] | done]. }
  destruct (negb (NonMutating (options ev)) && settable f).
  2: { apply descend_ctx_ok; [by intros c [= <-] | done | done]. }
  destruct (reflectSet _ _ _ _) as [[h3 [e|]]|p| |].
  2: { apply descend_ctx_ok; [by intros c [= <-] | done | done]. }
  all: constructor; [by intros c [= <-] | done].
Qed.

(** ** What the engine writes *)

Lemma fieldIntrospect_mem ev rt val typ i w :
  mem (fieldIntrospect ev rt val typ i w).1 = mem w.
Proof. unfold fieldIntrospect. repeat case_match; done. Qed.

Lemma evalFields_mem field indices merr w :
  (forall i w, mem (final_world (field i w)) = mem w) ->
  mem (final_world (evalFields field indices merr w)) = mem w.
Proof.
  intros Hf. revert merr w. induction indices as [|i rest IH]; intros merr w; simpl; [done|].
  specialize (Hf i w). destruct (field i w) as [[w1 n] o]. unfold final_world in *. simpl in Hf.
  destruct o as [err| | |]; try done.
  specialize (IH (match err with Some e => Some (multierror.Append merr e) | None => merr end) w1).
  destruct (evalFields field rest _ w1) as [[w2 ns] o2]. simpl in *. congruence.
Qed.

Lemma descend_mem (rec : eval_fn) s extra f result call w :
  (forall a b c d w, mem (final_world (rec a b c d w)) = mem w) ->
  mem (final_world (descend rec s extra f result call w)) = mem w.
Proof.
  intros Hrec. unfold descend.
  repeat case_match; try done.
  all: match goal with H : _ ?a ?b ?c ?d ?w = (_, _, _) |- _ =>
    specialize (Hrec a b c d w); rewrite H in Hrec end; done.
Qed.

Lemma fieldIntrospect_interpreter ev rt val typ i w w1 f err intr :
  fieldIntrospect ev rt val typ i w = (w1, Ret (f, err)) ->
  interpreter f = Some intr ->
  exists k, interpreters ev !! k = Some (Some intr).
Proof.
  unfold fieldIntrospect. repeat case_match; intros; simplify_eq; simpl in *; simplify_eq.
  all: try match goal with H : rangeTags _ _ = Some _ |- _ =>
    apply rangeTags_Some in H as [_ H] end; eauto.
Qed.

Lemma evalFields_replay field indices merr w :
  (forall i w, mem (final_world (field i w)) = replay (node_of (field i w)) (mem w)) ->
  mem (final_world (evalFields field indices merr w))
    = replay_all (nodes_of (evalFields field indices merr w)) (mem w).
Proof.
  intros Hf. revert merr w. induction indices as [|i rest IH]; intros merr w; simpl; [done|].
  specialize (Hf i w). destruct (field i w) as [[w1 n] o].
  unfold final_world, node_of, nodes_of in *. simpl in Hf.
  destruct o as [err| | |]; try (simpl; by rewrite Hf).
  specialize (IH (match err with Some e => Some (multierror.Append merr e) | None => merr end) w1).
  destruct (evalFields field rest _ w1) as [[w2 ns] o2]. simpl in *.
  unfold replay_all in *. simpl. by rewrite <- Hf.
Qed.

Lemma descend_replay (rec : eval_fn) s extra f result call w h0 :
  (forall a b c d w, mem (final_world (rec a b c d w))
     = replay_all (nodes_of (rec a b c d w)) (mem w)) ->
  match call with
  | Some c => (el.Execute (c_interp c) (c_expr c) (c_ctx c) h0).1
  | None => h0
  end = mem w ->
  mem (final_world (descend rec s extra f result call w))
    = replay (node_of (descend rec s extra f result call w)) h0.
Proof.
  intros Hrec Hcall. unfold descend.
  repeat case_match; unfold final_world, node_of; simpl;
    try (simplify_eq; simpl; first [by rewrite Hcall | done]).
  all: match goal with H : _ ?a ?b ?c ?d ?w = (_, _, _) |- _ =>
    specialize (Hrec a b c d w); rewrite H in Hrec end.
  all: unfold final_world, nodes_of, replay_all in Hrec; simpl in Hrec.
  all: simplify_eq; simpl; first [by rewrite Hcall | done].
Qed.

(** An evaluator that does not mutate. *)
Section NonMutating.

Variable ev : evaluator.
Variable rt : Runtime.
Hypothesis Hnm : NonMutating (options ev) = true.

Lemma evalField_replay rec s extra curr subctx val styp i w :
  (forall a b c d w, mem (final_world (rec a b c d w))
     = replay_all (nodes_of (rec a b c d w)) (mem w)) ->
  mem (final_world (evalField rec ev rt s extra curr subctx val styp i w))
    = replay (node_of (evalField rec ev rt s extra curr subctx val styp i w)) (mem w).
Proof.
  intros Hrec. unfold evalField.
  pose proof (fieldIntrospect_mem ev rt val styp i w) as Hm.
  destruct (fieldIntrospect ev rt val styp i w) as [w1 [[f [e|]]|p| |]] eqn:Hfi;
    simpl in Hm; try done.
  destruct (negb (bool_decide (expr f = "")) || EvalEmptyTags (options ev)).
  2: { rewrite <- Hm. by apply descend_replay. }
  destruct (fieldContext _ _ _ _ _ _) as [ctx|p| |]; try done.
  destruct (interpreter f) as [intr|] eqn:Hi; try done.
  destruct (el.Execute intr (expr f) ctx (mem w1)) as [h2 [result [e|]]] eqn:Hex.
  - unfold final_world, node_of. simpl. by rewrite <- Hm, Hex.
  - rewrite Hnm. cbn [negb andb]. apply descend_replay; [done|]. simpl. by rewrite <- Hm, Hex.
Qed.

Lemma eval_replay fuel s extra substruct subctx w :
  mem (final_world (eval fuel ev rt s extra substruct subctx w))
    = replay_all (nodes_of (eval fuel ev rt s extra substruct subctx w)) (mem w).
Proof.
  revert s extra substruct subctx w.
  induction fuel as [|n IH]; intros s extra substruct subctx w; simpl; [done|].
  unfold eval_body. repeat case_match; try done.
  all: apply evalFields_replay; intros i w'; by apply evalField_replay.
Qed.

Hypothesis Hpure : pure_interpreters ev.

Lemma evalField_mem rec s extra curr subctx val styp i w :
  (forall a b c d w, mem (final_world (rec a b c d w)) = mem w) ->
  mem (final_world (evalField rec ev rt s extra curr subctx val styp i w)) = mem w.
Proof.
  intros Hrec. unfold evalField.
  pose proof (fieldIntrospect_mem ev rt val styp i w) as Hm.
  destruct (fieldIntrospect ev rt val styp i w) as [w1 [[f [e|]]|p| |]] eqn:Hfi;
    simpl in Hm; try done.
  destruct (negb (bool_decide (expr f = "")) || EvalEmptyTags (options ev)).
  2: { rewrite descend_mem; done. }
  destruct (fieldContext _ _ _ _ _ _) as [ctx|p| |]; try done.
  destruct (interpreter f) as [intr|] eqn:Hi; try done.
  destruct (fieldIntrospect_interpreter _ _ _ _ _ _ _ _ _ _ Hfi Hi) as [k Hk].
  pose proof (Hpure k intr Hk (expr f) ctx (mem w1)) as Hp.
  destruct (el.Execute intr (expr f) ctx (mem w1)) as [h2 [result [e|]]]; simpl in Hp; subst h2.
  - done.
  - rewrite Hnm. simpl. rewrite descend_mem; done.
Qed.

Lemma eval_mem_unchanged fuel s extra substruct subctx w :
  mem (final_world (eval fuel ev rt s extra substruct subctx w)) = mem w.
Proof.
  revert s extra substruct subctx w.
  induction fuel as [|n IH]; intros s extra substruct subctx w; simpl; [done|].
  unfold eval_body. repeat case_match; try done.
  all: apply evalFields_mem; intros i w'; by apply evalField_mem.
Qed.

End NonMutating.

(** ** Calls on the nil interpreter *)

Lemma value_error_not_nil m k : reflect.value_error m k <> nil_dereference.
Proof. unfold reflect.value_error, nil_dereference. intros [= H]. Qed.

Lemma no_nil_call_bind {A B} (o : outcome A) (k : A -> outcome B) :
  no_nil_call o -> (forall a, no_nil_call (k a)) -> no_nil_call (o ≫= k).
Proof. unfold no_nil_call. intros Ho Hk. destruct o; simpl; try done. congruence. Qed.

Lemma no_nil_call_of_option {A} (o : option A) : no_nil_call (of_option o).
Proof. by destruct o. Qed.

Lemma no_nil_call_no_return {A B} (o : outcome A) :
  no_nil_call o -> no_nil_call (no_return (B:=B) o).
Proof. unfold no_nil_call. destruct o; simpl; congruence. Qed.

(** An outcome that is written out: a return, or a panic of [reflect]. *)
Ltac no_nil_leaf :=
  solve [ unfold no_nil_call; congruence
        | unfold no_nil_call; intros [=]
        | let H := fresh in
          unfold no_nil_call; intros [= H]; by apply value_error_not_nil in H ].

Create HintDb no_nil discriminated.
#[local] Hint Resolve no_nil_call_bind no_nil_call_of_option no_nil_call_no_return : no_nil.
#[local] Hint Extern 1 (no_nil_call _) => no_nil_leaf : no_nil.
#[local] Hint Extern 5 (no_nil_call _) => case_match : no_nil.

Lemma no_nil_call_Elem h v : no_nil_call (reflect.Elem h v).
Proof. unfold reflect.Elem. repeat case_match; subst; eauto 8 with no_nil. Qed.
#[local] Hint Resolve no_nil_call_Elem : no_nil.

Lemma no_nil_call_Indirect h v : no_nil_call (reflect.Indirect h v).
Proof. unfold reflect.Indirect. eauto with no_nil. Qed.
#[local] Hint Resolve no_nil_call_Indirect : no_nil.

Lemma no_nil_call_TypeField t i : no_nil_call (reflect.TypeField t i).
Proof. unfold reflect.TypeField. eauto with no_nil. Qed.

Lemma no_nil_call_Field v i : no_nil_call (reflect.Field v i).
Proof. unfold reflect.Field. eauto 8 with no_nil. Qed.

Lemma no_nil_call_Interface h v : no_nil_call (reflect.Interface h v).
Proof. unfold reflect.Interface. eauto 8 with no_nil. Qed.

Lemma no_nil_call_Addr v : no_nil_call (reflect.Addr v).
Proof. unfold reflect.Addr. eauto with no_nil. Qed.

Lemma no_nil_call_TypeOf v : no_nil_call (reflect.TypeOf v).
Proof. unfold reflect.TypeOf. eauto with no_nil. Qed.

Lemma no_nil_call_NumField t : no_nil_call (reflect.NumField t).
Proof. unfold reflect.NumField. eauto with no_nil. Qed.
#[local] Hint Resolve no_nil_call_TypeField no_nil_call_Field no_nil_call_Interface
  no_nil_call_Addr no_nil_call_TypeOf no_nil_call_NumField : no_nil.

Lemma no_nil_call_byRef h v : no_nil_call (byRef h v).
Proof. unfold byRef. eauto with no_nil. Qed.

Lemma no_nil_call_structIntrospect rt h s : no_nil_call (structIntrospect rt h s).
Proof. unfold structIntrospect. eauto 8 with no_nil. Qed.

Lemma no_nil_call_fieldContext s extra subctx longName f h :
  no_nil_call (fieldContext s extra subctx longName f h).
Proof. unfold fieldContext. eauto 8 with no_nil. Qed.
#[local] Hint Resolve no_nil_call_byRef no_nil_call_structIntrospect
  no_nil_call_fieldContext : no_nil.

Lemma no_nil_call_fieldIntrospect ev rt val typ i w :
  no_nil_call (fieldIntrospect ev rt val typ i w).2.
Proof.
  unfold fieldIntrospect.
  assert (no_nil_call (reflect.TypeField typ i ≫= λ f, reflect.Field val i ≫= λ fv,
            reflect.Indirect (mem w) fv ≫= λ v, Ret (f, v))) as Hn.
  { eauto 8 with no_nil. }
  destruct (reflect.TypeField typ i ≫= _) as [[f v]|p| |]; simpl.
  - repeat case_match; simpl; eauto 8 with no_nil.
  - intros [= ->]. by apply Hn.
  - eauto 8 with no_nil.
  - eauto 8 with no_nil.
Qed.

(** Where an expression was found, the interpreter is the one a name
    is registered with. *)
Lemma fieldIntrospect_expr_interpreter ev rt val typ i w w1 f err :
  fieldIntrospect ev rt val typ i w = (w1, Ret (f, err)) ->
  expr f <> "" -> exists k, interpreters ev !! k = Some (interpreter f).
Proof.
  unfold fieldIntrospect. repeat case_match; intros; simplify_eq; simpl in *; try done.
  all: try match goal with H : rangeTags _ _ = Some _ |- _ =>
    apply rangeTags_Some in H as [_ H] end; by eauto.
Qed.

Lemma descend_no_nil_call (rec : eval_fn) s extra f result call w :
  (forall a b c d w, no_nil_call (outcome_of (rec a b c d w))) ->
  no_nil_call (outcome_of (descend rec s extra f result call w)).
Proof.
  intros Hrec. unfold descend.
  set (probe := if decide (reflect.Kind (value f) = Interface) then _ else _).
  assert (no_nil_call probe) as Hp.
  { subst probe. case_match; [|eauto 8 with no_nil].
    apply no_nil_call_bind; [apply no_nil_call_Elem | intros v'].
    eauto 8 with no_nil. }
  destruct probe as [[v k]|p| |]; unfold outcome_of; simpl;
    [|intros [= ->]; by apply Hp|no_nil_leaf|no_nil_leaf].
  case_match; [|no_nil_leaf].
  pose proof (no_nil_call_byRef (mem w) v) as Hb.
  destruct (byRef (mem w) v) as [sub|p| |]; simpl;
    [|intros [= ->]; by apply Hb|no_nil_leaf|no_nil_leaf].
  specialize (Hrec s extra sub result w). unfold outcome_of in Hrec.
  destruct (rec s extra sub result w) as [[w' ns] o]. done.
Qed.

Lemma reflectSet_never_panics h v vt nv p : reflectSet h v vt nv <> Panic p.
Proof.
  destruct (reflectSet_no_panic h v vt nv) as [[h' ->]|[[e ->]| ->]]; done.
Qed.

Lemma evalField_no_nil_call rec ev rt s extra curr subctx val styp i w :
  EvalEmptyTags (options ev) = false -> no_nil_registered ev ->
  (forall a b c d w, no_nil_call (outcome_of (rec a b c d w))) ->
  no_nil_call (outcome_of (evalField rec ev rt s extra curr subctx val styp i w)).
Proof.
  intros Hopt Hreg Hrec. unfold evalField.
  pose proof (no_nil_call_fieldIntrospect ev rt val styp i w) as Hn.
  destruct (fieldIntrospect ev rt val styp i w) as [w1 [[f [e|]]|p| |]] eqn:Hfi;
    unfold outcome_of; simpl in *;
    [no_nil_leaf| |intros [= ->]; by apply Hn|no_nil_leaf|no_nil_leaf].
  rewrite Hopt, orb_false_r.
  destruct (bool_decide (expr f = "")) eqn:He; simpl.
  { by apply descend_no_nil_call. }
  apply bool_decide_eq_false_1 in He.
  destruct (fieldIntrospect_expr_interpreter _ _ _ _ _ _ _ _ _ Hfi He) as [k Hk].
  destruct (interpreter f) as [intr|]; [|by destruct (Hreg k)].
  pose proof (no_nil_call_fieldContext s extra subctx (long_name curr (name f)) f (mem w1)) as Hc.
  destruct (fieldContext _ _ _ _ _ _) as [ctx|p| |]; simpl;
    [|intros [= ->]; by apply Hc|no_nil_leaf|no_nil_leaf].
  destruct (el.Execute intr (expr f) ctx (mem w1)) as [h2 [result [e|]]]; [no_nil_leaf|].
  destruct (negb (NonMutating (options ev)) && settable f).
  2: { by apply descend_no_nil_call. }
  pose proof (reflectSet_never_panics h2 (value f) (typ f) result) as Hs. simpl.
  destruct (reflectSet _ _ _ _) as [[h3 [e|]]|p| |]; simpl;
    [no_nil_leaf | by apply descend_no_nil_call | by destruct (Hs p) | no_nil_leaf | no_nil_leaf].
Qed.

Lemma evalFields_no_nil_call field indices merr w :
  (forall i w, no_nil_call (outcome_of (field i w))) ->
  no_nil_call (outcome_of (evalFields field indices merr w)).
Proof.
  intros Hf. revert merr w. induction indices as [|i rest IH]; intros merr w; simpl;
    [no_nil_leaf|].
  specialize (Hf i w). destruct (field i w) as [[w1 n] o]. unfold outcome_of in *. simpl in Hf.
  destruct o as [err|p| |]; simpl; [|intros [= ->]; by apply Hf|no_nil_leaf|no_nil_leaf].
  specialize (IH (match err with Some e => Some (multierror.Append merr e) | None => merr end) w1).
  destruct (evalFields field rest _ w1) as [[w2 ns] o2]. done.
Qed.

Lemma eval_no_nil_call fuel ev rt s extra substruct subctx w :
  EvalEmptyTags (options ev) = false -> no_nil_registered ev ->
  no_nil_call (outcome_of (eval fuel ev rt s extra substruct subctx w)).
Proof.
  intros Hopt Hreg. revert s extra substruct subctx w.
  induction fuel as [|n IH]; intros s extra substruct subctx w; simpl; [no_nil_leaf|].
  unfold eval_body.
  pose proof (no_nil_call_structIntrospect rt (mem w) (current s substruct)) as Hs.
  destruct (structIntrospect _ _ _) as [[[val styp] [e|]]|p| |]; unfold outcome_of; simpl;
    [no_nil_leaf| |intros [= ->]; by apply Hs|no_nil_leaf|no_nil_leaf].
  pose proof (no_nil_call_NumField styp) as Hn.
  destruct (reflect.NumField styp) as [l|p| |]; simpl;
    [|intros [= ->]; by apply Hn|no_nil_leaf|no_nil_leaf].
  apply evalFields_no_nil_call. intros i w'. by apply evalField_no_nil_call.
Qed.

(** ** The objects a walk writes to *)

Lemma owned_forallb F (vs : list gval) i x :
  forallb (owned F) vs = true -> vs !! i = Some x -> owned F x = true.
Proof.
  revert i. induction vs as [|v vs IH]; intros [|i]; simpl; try done.
  - intros [? ?]%andb_true_iff [= <-]. done.
  - intros [? ?]%andb_true_iff. by eauto.
Qed.

Lemma owned_insert F (vs : list gval) i x :
  forallb (owned F) vs = true -> owned F x = true ->
  forallb (owned F) (<[i := x]> vs) = true.
Proof.
  revert i. induction vs as [|v vs IH]; intros [|i]; simpl; try done.
  - intros [? ?]%andb_true_iff Hx. by rewrite Hx.
  - intros [Hv ?]%andb_true_iff Hx. rewrite Hv. by apply IH.
Qed.

Lemma value_at_owned F v p x : owned F v = true -> value_at v p = Some x -> owned F x = true.
Proof.
  revert v. induction p as [|i p IH]; intros v; simpl; [by intros ? [= <-]|].
  destruct v; try done. simpl. intros Hv.
  destruct (fields !! i) as [f|] eqn:Hf; simpl; [|done].
  apply IH. by eapply owned_forallb.
Qed.

Lemma value_upd_owned F v p x v' :
  owned F v = true -> owned F x = true -> value_upd v p x = Some v' -> owned F v' = true.
Proof.
  revert v v'. induction p as [|i p IH]; intros v v'; simpl; [by intros ? ? [= <-]|].
  destruct v; try done. simpl. intros Hv Hx.
  destruct (fields !! i) as [f|] eqn:Hf; simpl; [|done].
  destruct (value_upd f p x) as [f'|] eqn:Hf'; simpl; [|done].
  intros [= <-]. simpl. apply owned_insert; [done|].
  eapply IH; [|done|exact Hf']. by eapply owned_forallb.
Qed.

Lemma load_owned F h r x : closed F h -> r.1 ∈ F -> load h r = Some x -> owned F x = true.
Proof.
  intros Hc Hr. unfold load. destruct (h !! r.1) as [v|] eqn:Hv; simpl; [|done].
  apply value_at_owned. by eapply Hc.
Qed.

(** A write into an object of [F], of a value whose pointers point into
    [F]: the store stays closed, and what does not depend on the
    objects [F] stays. *)
Lemma store_closed F I h r x h' :
  closed F h -> outside F I -> I h -> r.1 ∈ F -> owned F x = true ->
  store h r x = Some h' -> closed F h' /\ I h'.
Proof.
  intros Hc Hout HI Hr Hx. unfold store.
  destruct (h !! r.1) as [v|] eqn:Hv; simpl; [|done].
  destruct (value_upd v r.2 x) as [v'|] eqn:Hv'; simpl; [|done].
  intros [= <-]. split; [|by apply Hout].
  intros l u Hl. destruct (decide (l = r.1)) as [->|Hne].
  - rewrite lookup_insert_eq. intros [= <-].
    eapply value_upd_owned; [|done|exact Hv']. by eapply Hc.
  - rewrite lookup_insert_ne by done. by apply Hc.
Qed.

Lemma zero_value_owned F : forall t, owned F (zero_value t) = true.
Proof.
  fix IH 1. intros [| | | | | |n fs]; simpl; try done.
  induction fs as [|f fs IHfs]; simpl; [done|]. rewrite IH. exact IHfs.
Qed.

Lemma read_owned F h t p ro x :
  closed F h -> handle_in F (reflect.MkValue t p ro) -> reflect.read h p = Some x ->
  owned F x = true.
Proof.
  intros Hc Hh. destruct p as [r|y]; simpl in *; [by apply load_owned | by intros [= <-]].
Qed.

Lemma ValueOf_in F i : iface_in F i -> handle_in F (reflect.ValueOf i).
Proof. by destruct i as [[t x]|]. Qed.

Lemma Elem_in F h v v' :
  closed F h -> handle_in F v -> reflect.Elem h v = Ret v' -> handle_in F v'.
Proof.
  intros Hc Hh. destruct v as [|t p ro]; [done|]. unfold reflect.Elem.
  destruct t; try done.
  - destruct (reflect.read h p) as [x|] eqn:Hx; simpl; [|done].
    pose proof (read_owned _ _ _ _ _ _ Hc Hh Hx) as Ho.
    destruct x as [| | | |[r|]| |]; try done; intros [= <-]; [|done].
    simpl in *. by apply bool_decide_eq_true_1 in Ho.
  - destruct (reflect.read h p) as [x|] eqn:Hx; simpl; [|done].
    pose proof (read_owned _ _ _ _ _ _ Hc Hh Hx) as Ho.
    destruct x as [| | | | |[[t d]|]|]; try done; by intros [= <-].
Qed.

Lemma Indirect_in F h v v' :
  closed F h -> handle_in F v -> reflect.Indirect h v = Ret v' -> handle_in F v'.
Proof.
  intros Hc Hh. unfold reflect.Indirect. case_match; [by apply Elem_in|]. by intros [= <-].
Qed.

Lemma Field_in F v i fv : handle_in F v -> reflect.Field v i = Ret fv -> handle_in F fv.
Proof.
  destruct v as [|t p ro]; [done|]. intros Hh. unfold reflect.Field.
  destruct t; try done. destruct (fields !! i) as [f|]; [|done].
  destruct p as [r|x]; [by intros [= <-]|].
  destruct x; try done. destruct (fields0 !! i) as [y|] eqn:Hy; simpl; [|done].
  intros [= <-]. simpl in *. by eapply owned_forallb.
Qed.

Lemma Interface_in F h v i :
  closed F h -> handle_in F v -> reflect.Interface h v = Ret i -> iface_in F i.
Proof.
  intros Hc Hh. destruct v as [|t p ro]; [done|]. unfold reflect.Interface.
  destruct ro; [done|].
  destruct (reflect.read h p) as [x|] eqn:Hx; simpl; [|done].
  pose proof (read_owned _ _ _ _ _ _ Hc Hh Hx) as Ho.
  destruct t; try (by intros [= <-]).
  destruct x as [| | | | |[[t d]|]|]; try done; by intros [= <-].
Qed.

Lemma byRef_in F h v i : closed F h -> handle_in F v -> byRef h v = Ret i -> iface_in F i.
Proof.
  intros Hc Hh. unfold byRef. destruct (reflect.CanAddr v) eqn:Ha.
  - destruct v as [|t [r|x] ro]; try done. simpl. destruct ro; [done|].
    intros [= <-]. simpl in *. by apply bool_decide_eq_true_2.
  - by apply Interface_in.
Qed.

Lemma structIntrospect_in F rt h i val styp err :
  closed F h -> iface_in F i -> structIntrospect rt h i = Ret (val, styp, err) ->
  handle_in F val.
Proof.
  intros Hc Hi. unfold structIntrospect.
  destruct (reflect.Indirect h (reflect.ValueOf i)) as [v| | |] eqn:Hv; simpl; try done.
  apply Indirect_in with (F := F) in Hv; [|done|by apply ValueOf_in].
  destruct (reflect.TypeOf v) as [t| | |]; simpl; try done.
  case_match; intros; by simplify_eq.
Qed.

Lemma fieldIntrospect_in F ev rt val styp i w w1 f err :
  closed F (mem w) -> handle_in F val ->
  fieldIntrospect ev rt val styp i w = (w1, Ret (f, err)) -> handle_in F (value f).
Proof.
  intros Hc Hh Hfi.
  destruct (fieldIntrospect_inv _ _ _ _ _ _ _ _ _ Hfi) as (sf & fv & _ & Hfv & Hind & _).
  eapply Indirect_in; [done| |exact Hind]. by eapply Field_in.
Qed.

Lemma Convert_in F h t x vt xv :
  owned F x = true ->
  reflect.Convert h (reflect.MkValue t (reflect.Temp x) false) vt = Ret xv -> handle_in F xv.
Proof.
  intros Hx. unfold reflect.Convert. destruct (negb (reflect.ConvertibleTo t vt)); [done|].
  simpl. repeat case_match; intros; by simplify_eq.
Qed.

Lemma Set_in F I h v x h' :
  closed F h -> outside F I -> I h -> handle_in F v -> handle_in F x ->
  reflect.Set_ h v x = Ret h' -> closed F h' /\ I h'.
Proof.
  intros Hc Hout HI Hv Hx. unfold reflect.Set_.
  destruct v as [|dst [r|y] [|]]; try done. destruct x as [|src p [|]]; try done.
  destruct (decide (dst = src)) as [->|Hne].
  - destruct (reflect.read h p) as [z|] eqn:Hz; simpl; [|done].
    destruct (store h r z) as [h1|] eqn:Hs; simpl; [|done]. intros [= <-].
    eapply store_closed; [done..| |exact Hs]. by eapply read_owned.
  - destruct (decide (dst = TInterface)); [|done].
    destruct (reflect.read h p) as [z|] eqn:Hz; simpl; [|done].
    destruct (store h r _) as [h1|] eqn:Hs; simpl; [|done]. intros [= <-].
    eapply store_closed; [done..| |exact Hs]. simpl. by eapply read_owned.
Qed.

Lemma reflectSet_in F I h v vt nv h' e :
  closed F h -> outside F I -> I h -> handle_in F v -> iface_in F nv ->
  reflectSet h v vt nv = Ret (h', e) -> closed F h' /\ I h'.
Proof.
  intros Hc Hout HI Hv Hnv. unfold reflectSet.
  destruct (reflectSet_body h v vt nv) as [h1|[m|e1]| |] eqn:Hb; try done;
    try (intros [= <- <-]; done).
  intros [= <- <-]. unfold reflectSet_body in Hb. destruct nv as [[t x]|].
  - cbn [reflect.ValueOf reflect.TypeOf mbind outcome_bind obind] in Hb.
    destruct (negb (reflect.ConvertibleTo t vt) && bool_decide (reflect.Kind v = Struct));
      [by simplify_eq|].
    destruct (reflect.Convert h _ vt) as [xv| | |] eqn:Hcv; try done.
    cbn [mbind outcome_bind obind] in Hb.
    eapply Set_in; [done..| |exact Hb]. by eapply Convert_in.
  - destruct (reflect.IsValid v); [|by simplify_eq].
    eapply Set_in; [done..| |exact Hb]. apply zero_value_owned.
Qed.

Section Footprint.

Variable F : gset loc.
Variable I : heap -> Prop.
Variable ev : evaluator.
Variable rt : Runtime.
Variable s : iface.
Variable extra : iface.
Hypothesis Hroot : iface_in F s.
Hypothesis Hout : outside F I.
Hypothesis Hkeep : interpreters_keep F I ev s extra.

(** What a walk keeps: the store closed for [F], and [I]. *)
Let kept (w : world) : Prop := closed F (mem w) /\ I (mem w).

Lemma descend_kept (rec : eval_fn) f result call w :
  (forall sub res w0, iface_in F sub -> kept w0 -> kept (final_world (rec s extra sub res w0))) ->
  handle_in F (value f) -> kept w ->
  kept (final_world (descend rec s extra f result call w)).
Proof.
  intros Hrec Hv [Hc HI]. unfold descend.
  destruct (decide (reflect.Kind (value f) = Interface)).
  - destruct (reflect.Elem (mem w) (value f)) as [v'| | |] eqn:He; simpl; try done.
    pose proof (Elem_in _ _ _ _ Hc Hv He) as Hv'.
    destruct (reflect.Indirect (mem w) v') as [j| | |]; simpl; try done.
    destruct (decide (reflect.Kind j = Struct)); [|done].
    destruct (byRef (mem w) v') as [sub|p| |] eqn:Hb; try done.
    pose proof (byRef_in _ _ _ _ Hc Hv' Hb) as Hsub.
    specialize (Hrec sub result w Hsub (conj Hc HI)).
    by destruct (rec s extra sub result w) as [[w' ns] o].
  - destruct (decide (reflect.Kind (value f) = Struct)); [|done].
    destruct (byRef (mem w) (value f)) as [sub|p| |] eqn:Hb; try done.
    pose proof (byRef_in _ _ _ _ Hc Hv Hb) as Hsub.
    specialize (Hrec sub result w Hsub (conj Hc HI)).
    by destruct (rec s extra sub result w) as [[w' ns] o].
Qed.

Lemma evalField_kept rec curr subctx val styp i w :
  (forall sub res w0, iface_in F sub -> kept w0 -> kept (final_world (rec s extra sub res w0))) ->
  handle_in F val -> kept w ->
  kept (final_world (evalField rec ev rt s extra curr subctx val styp i w)).
Proof.
  intros Hrec Hval [Hc HI]. unfold evalField.
  pose proof (fieldIntrospect_mem ev rt val styp i w) as Hm.
  destruct (fieldIntrospect ev rt val styp i w) as [w1 [[f err]|p| |]] eqn:Hfi; simpl in Hm.
  2-4: unfold kept, final_world; simpl; by rewrite Hm.
  assert (kept w1) as Hk1 by (unfold kept; by rewrite Hm).
  destruct err as [e|]; [exact Hk1|].
  pose proof (fieldIntrospect_in _ _ _ _ _ _ _ _ _ _ Hc Hval Hfi) as Hv.
  destruct (negb (bool_decide (expr f = "")) || EvalEmptyTags (options ev)).
  2: { by apply descend_kept. }
  destruct (fieldContext _ _ _ _ _ _) as [ctx|p| |] eqn:Hctx; try exact Hk1.
  destruct (interpreter f) as [intr|] eqn:Hi; try exact Hk1.
  destruct (fieldIntrospect_interpreter _ _ _ _ _ _ _ _ _ _ Hfi Hi) as [k Hk].
  destruct (fieldContext_slots _ _ _ _ _ _ _ Hctx) as (Hs & He & _).
  destruct Hk1 as [Hc1 HI1].
  destruct (Hkeep k intr (expr f) ctx (mem w1) Hk Hs He Hc1 HI1) as (Hc2 & HI2 & Hres).
  destruct (el.Execute intr (expr f) ctx (mem w1)) as [h2 [result [e|]]]; simpl in Hc2, HI2, Hres.
  { by split. }
  assert (forall h3, closed F h3 -> I h3 ->
    kept (final_world (descend rec s extra f result
      (Some (mkCall intr (expr f) ctx result None)) (mkWorld h3 (ticks w1))))) as Hd.
  { intros h3 ? ?. by apply descend_kept. }
  destruct (negb (NonMutating (options ev)) && settable f); [|by apply Hd].
  cbn [mem ticks].
  destruct (reflectSet h2 (value f) (typ f) result) as [[h3 [e|]]|p| |] eqn:Hrs;
    try (by split).
  - by eapply reflectSet_in.
  - destruct (reflectSet_in _ _ _ _ _ _ _ _ Hc2 Hout HI2 Hv Hres Hrs). by apply Hd.
Qed.

Lemma evalFields_kept field indices merr w :
  (forall i w, kept w -> kept (final_world (field i w))) ->
  kept w -> kept (final_world (evalFields field indices merr w)).
Proof.
  intros Hf. revert merr w. induction indices as [|i rest IH]; intros merr w Hk; simpl;
    [done|].
  specialize (Hf i w Hk). destruct (field i w) as [[w1 n] o]. unfold final_world in *.
  simpl in Hf. destruct o as [err| | |]; try done.
  specialize (IH (match err with Some e => Some (multierror.Append merr e) | None => merr end)
                 w1 Hf).
  by destruct (evalFields field rest _ w1) as [[w2 ns] o2].
Qed.

Lemma eval_kept fuel substruct subctx w :
  iface_in F substruct -> kept w ->
  kept (final_world (eval fuel ev rt s extra substruct subctx w)).
Proof.
  revert substruct subctx w.
  induction fuel as [|n IH]; intros substruct subctx w Hsub0 Hk; [done|].
  change (eval (S n) ev rt s extra substruct subctx w)
    with (eval_body (eval n ev rt) ev rt s extra substruct subctx w).
  unfold eval_body.
  assert (iface_in F (current s substruct)) as Hcurr by (by destruct substruct).
  destruct (structIntrospect rt (mem w) (current s substruct))
    as [[[val styp] [e|]]|p| |] eqn:Hs; try done.
  destruct (reflect.NumField styp) as [l|p| |]; try done.
  apply evalFields_kept; [|done]. intros i w0 Hk0.
  apply evalField_kept; [|by eapply structIntrospect_in; [apply Hk|..]|done].
  intros sub res w1 Hsub Hk1. by apply IH.
Qed.

End Footprint.

(** * The claims about the walk *)

(** C2, at the input where the code fails it. A root that is nil, or a
    nil pointer, is neither a record nor a reference to one, and [Eval]
    does not return the root-argument error for it: [structIntrospect]
    asks the zero [reflect.Value] for its type, and the panic of
    [reflect] escapes the call. No field is processed and the store is
    as it was. *)
Theorem Eval_nil_root_panics fuel ev rt extra w t :
  Eval (S fuel) ev rt None extra w
    = (w, [], Panic (reflect.value_error "reflect.Value.Type" Invalid)) /\
  Eval (S fuel) ev rt (Some (TPtr t, VPtr None)) extra w
    = (w, [], Panic (reflect.value_error "reflect.Value.Type" Invalid)).
Proof. split; reflexivity. Qed.




(** C5, as amended. When the [Execute] of the interpreter selected for
    a field fails, the closure of the field returns that error as it is,
    without wrapping it in the long name: the long name is in the
    context the interpreter was given, and naming the field is left to
    the interpreter. The error is appended to the aggregate, whose
    entries from then on hold it, and the loop goes on with the fields
    that follow, from the store the interpreter left. *)
Theorem Execute_failure_recorded rec ev rt s extra curr subctx val styp i w w1 f ctx
    intr h2 result e :
  reaches_Execute ev rt s extra curr subctx val styp i w w1 f ctx intr ->
  el.Execute intr (expr f) ctx (mem w1) = (h2, (result, Some e)) ->
  let step := evalField rec ev rt s extra curr subctx val styp in
  let node := TNode (Some (mkCall intr (expr f) ctx result (Some e))) (Some e) None in
  let w2 := mkWorld h2 (ticks w1) in
  el.LongName ctx = long_name curr (name f) /\
  step i w = (w2, node, Ret (Some e)) /\
  forall rest merr,
    evalFields step (i :: rest) merr w =
      (let '(w', ns, o) := evalFields step rest (Some (multierror.Append merr e)) w2 in
       (w', node :: ns, o)) /\
    forall w' ns merr',
      evalFields step (i :: rest) merr w = (w', ns, Ret merr') ->
      exists l, multierror.list_of merr'
                = multierror.list_of merr ++ multierror.errors_of e ++ l.
Proof.
  intros Hreach Hex step node w2.
  pose proof (evalField_executed rec _ _ _ _ _ _ _ _ _ _ _ _ _ _ Hreach) as Hstep.
  rewrite Hex in Hstep. fold step in Hstep. cbn zeta in Hstep.
  split.
  { destruct Hreach as (_ & _ & Hctx & _).
    by apply fieldContext_slots in Hctx as (_ & _ & _ & _ & ? & _). }
  split; [done|]. intros rest merr.
  assert (evalFields step (i :: rest) merr w =
      (let '(w', ns, o) := evalFields step rest (Some (multierror.Append merr e)) w2 in
       (w', node :: ns, o))) as Hloop.
  { cbn [evalFields]. by rewrite Hstep. }
  split; [done|]. intros w' ns merr'. rewrite Hloop.
  destruct (evalFields step rest _ w2) as [[w3 ns3] o3] eqn:Hrest.
  intros [= <- <- ->]. apply evalFields_keeps in Hrest as [l Hl].
  exists l. rewrite Hl. simpl. by rewrite <- app_assoc.
Qed.

Lemma Execute_failure_recorded_witness :
  reaches_Execute ev_pair rt_fwd root_pair None root_pair None val_pair pair 0
    (mkWorld heap_pair 0) (mkWorld heap_pair 1) field_pair_A ctx_pair_A (failing "boom") /\
  evalField (eval 1 ev_pair rt_fwd) ev_pair rt_fwd root_pair None root_pair None
      val_pair pair 0 (mkWorld heap_pair 0)
    = (mkWorld heap_pair 1,
       TNode (Some (mkCall (failing "boom") "x" ctx_pair_A None (Some (ErrString "boom"))))
             (Some (ErrString "boom")) None,
       Ret (Some (ErrString "boom"))) /\
  mem (final_world (Eval 2 ev_pair rt_fwd root_pair None (mkWorld heap_pair 0)))
    = {[ 0%nat := VStruct [VInt 0; VInt 9] ]}.
Proof.
  assert (reaches_Execute ev_pair rt_fwd root_pair None root_pair None val_pair pair 0
    (mkWorld heap_pair 0) (mkWorld heap_pair 1) field_pair_A ctx_pair_A (failing "boom"))
    as Hreach.
  { split; [vm_compute; reflexivity|]. split; [left; discriminate|].
    split; [vm_compute; reflexivity | reflexivity]. }
  split; [exact Hreach|]. split; [|vm_compute; reflexivity].
  exact (proj1 (proj2 (Execute_failure_recorded (eval 1 ev_pair rt_fwd) ev_pair rt_fwd
    root_pair None root_pair None val_pair pair 0 (mkWorld heap_pair 0)
    (mkWorld heap_pair 1) field_pair_A ctx_pair_A (failing "boom") heap_pair None
    (ErrString "boom") Hreach eq_refl))).
Defined.

(** C5 as stated fails: with an interpreter whose error does not name
    the field, the text of the aggregated error does not hold the long
    name of the field between its marks. *)
Lemma Execute_failure_not_wrapped :
  outcome_of (Eval 2 ev_boom rt_fwd root0 None world0) = Ret (Some (ErrMulti ["boom"])) /\
  long_name root0 "A" = "*structor_test.theStruct.A" /\
  contains (error_text (ErrMulti ["boom"])) "<<*structor_test.theStruct.A>>" = false.
Proof. repeat split; vm_compute; reflexivity. Qed.

Lemma byRef_addressable h t r :
  byRef h (reflect.MkValue t (reflect.Stored r) false) = Ret (Some (TPtr t, VPtr (Some r))).
Proof. reflexivity. Qed.







(** C7, as amended. After [Eval] by an evaluator that does not mutate,
    the store is what the calls of the interpreters alone made of it:
    the engine has written nothing, at any depth. With interpreters
    that leave the store alone, every field, pointers too, holds the
    value it had before the call, though the interpreters were run and
    their results computed. *)
Theorem NonMutating_frame fuel ev rt s extra w :
  NonMutating (options ev) = true ->
  mem (final_world (Eval fuel ev rt s extra w))
    = replay_all (nodes_of (Eval fuel ev rt s extra w)) (mem w) /\
  (pure_interpreters ev -> mem (final_world (Eval fuel ev rt s extra w)) = mem w).
Proof.
  intros Hnm. split; [by apply eval_replay|]. intros Hpure. by apply eval_mem_unchanged.
Qed.

Lemma NonMutating_frame_witness :
  NonMutating (options ev_cc_nonmutating) = true /\
  mem (final_world (Eval 3 ev_cc_nonmutating rt_fwd root0 None world0)) = heap0 /\
  map (fun n => c_result <$> node_call n)
      (nodes_of (Eval 3 ev_cc_nonmutating rt_fwd root0 None world0))
    = [Some (Some (TInt, VInt 9))].
Proof.
  split; [reflexivity|]. split; [|vm_compute; reflexivity].
  apply (proj2 (NonMutating_frame 3 ev_cc_nonmutating rt_fwd root0 None world0 eq_refl)).
  intros k intr Hk e ctx h. simpl in Hk.
  apply lookup_singleton_Some in Hk as [_ [= <-]]. reflexivity.
Defined.

(** C7 as stated fails for an interpreter with a side effect: the
    evaluator does not mutate, and after [Eval] the field holds 99, not
    the 0 it held before. *)
Lemma NonMutating_side_effect :
  NonMutating (options ev_poke) = true /\
  load (mem world0) (0%nat, [0%nat]) = Some (VInt 0) /\
  load (mem (final_world (Eval 3 ev_poke rt_fwd root0 None world0))) (0%nat, [0%nat])
    = Some (VInt 99) /\
  outcome_of (Eval 3 ev_poke rt_fwd root0 None world0) = Ret None.
Proof. repeat split; vm_compute; reflexivity. Qed.

(** C9, at the input where the code fails it. The field carries two
    registered tag names; the interpreters and the scanner are
    functions, the record and [extra] are the same in both runs, and the
    two runs differ only in the order in which the runtime ranges over
    the tag map: one leaves 1 in the field, the other 2. *)
Theorem Eval_depends_on_range_order :
  mem (final_world (Eval 2 ev_two rt_fwd root_two None world0))
    = {[ 0%nat := VStruct [VInt 1] ]} /\
  mem (final_world (Eval 2 ev_two rt_rev root_two None world0))
    = {[ 0%nat := VStruct [VInt 2] ]} /\
  outcome_of (Eval 2 ev_two rt_fwd root_two None world0) = Ret None /\
  outcome_of (Eval 2 ev_two rt_rev root_two None world0) = Ret None.
Proof. repeat split; vm_compute; reflexivity. Qed.

(** C10, as amended. With [EvalEmptyTags] on, a field whose tag map has
    no key that is a registered name, in an evaluator that has nothing
    registered under [WholeTag], has no interpreter selected. The
    closure puts the context of the field together first: where that
    returns, which it does for an invalid value and for a value that
    was not reached through an unexported field, the closure calls
    [Execute] on the nil interpreter, and the call of [eval] that walks
    the record ends in the panic of the nil dereference; for a valid
    value reached through an unexported field it is [reflect] that
    panics, before any call. Either panic is recovered by nothing and
    is not recorded as an error of the field; what a nested [eval] ends
    with, the closure that called it ends with, so the panic goes up to
    [Eval]. The same call on the nil interpreter is made, with
    [EvalEmptyTags] on or off, for a field dispatched by a name that is
    registered with the nil interpreter. With [EvalEmptyTags] off,
    [Execute] is called only where an expression was found, the
    interpreter is then the one a name is registered with, and if no
    name is registered with the nil interpreter no call of [eval] ends
    in the panic of the nil dereference. *)
Theorem nil_interpreter_call :
  (forall n ev rt s extra substruct subctx w val styp i sf wi ns m w1 f,
     let curr := current s substruct in
     let step := evalField (eval n ev rt) ev rt s extra curr subctx val styp in
     let context := fieldContext s extra subctx (long_name curr (name f)) f (mem w1) in
     EvalEmptyTags (options ev) = true ->
     structIntrospect rt (mem w) curr = Ret (val, styp, None) ->
     reflect.TypeField styp i = Ret sf ->
     evalFields step (seq 0 i) None w = (wi, ns, Ret m) ->
     fieldIntrospect ev rt val styp i wi = (w1, Ret (f, None)) ->
     (forall k, is_Some ((scanner.Tags (scanner ev) (Tag sf)).1 !! k) ->
        interpreters ev !! k = None) ->
     interpreters ev !! WholeTag = None ->
     interpreter f = None /\
     (forall ctx, context = Ret ctx ->
        eval (S n) ev rt s extra substruct subctx w
          = (w1, ns ++ [TNode None None None], Panic nil_dereference)) /\
     (forall p, context = Panic p ->
        eval (S n) ev rt s extra substruct subctx w
          = (w1, ns ++ [TNode None None None], Panic p)) /\
     (reflect.IsValid (value f) = false -> exists ctx, context = Ret ctx) /\
     (forall t p x, value f = reflect.MkValue t p false ->
        reflect.read (mem w1) p = Some x -> (t = TInterface -> exists d, x = VIface d) ->
        exists ctx, context = Ret ctx) /\
     (forall t p, value f = reflect.MkValue t p true ->
        context = Panic (PanicString
          "reflect.Value.Interface: cannot return value obtained from unexported field or method"))) /\
  (forall rec ev rt s extra curr subctx val styp i w w1 f ctx,
     expr f <> "" \/ EvalEmptyTags (options ev) = true ->
     fieldIntrospect ev rt val styp i w = (w1, Ret (f, None)) ->
     interpreter f = None ->
     fieldContext s extra subctx (long_name curr (name f)) f (mem w1) = Ret ctx ->
     evalField rec ev rt s extra curr subctx val styp i w
       = (w1, TNode None None None, Panic nil_dereference)) /\
  (forall rec ev rt s extra curr subctx val styp i w w' c e ns o,
     evalField rec ev rt s extra curr subctx val styp i w = (w', TNode c e (Some ns), o) ->
     exists sub w0, rec s extra sub (result_of c) w0 = (w', ns, o) /\ e = returned o) /\
  (forall ev rt val styp i w w1 f err,
     fieldIntrospect ev rt val styp i w = (w1, Ret (f, err)) ->
     expr f <> "" -> exists k, interpreters ev !! k = Some (interpreter f)) /\
  (forall fuel ev rt s extra substruct subctx w,
     EvalEmptyTags (options ev) = false -> no_nil_registered ev ->
     no_nil_call (outcome_of (eval fuel ev rt s extra substruct subctx w))).
Proof.
  split; [|split; [|split; [|split]]].
  - intros n ev rt s extra substruct subctx w val styp i sf wi ns m w1 f curr step context
      Hopt Hs Hsf Hpre Hfi Hnone Hw.
    destruct (fieldIntrospect_no_match _ _ _ _ _ _ _ _ _ Hsf Hfi Hnone Hw) as (Hi & _).
    split; [done|].
    assert (forall p, step i wi = (w1, TNode None None None, Panic p) ->
      eval (S n) ev rt s extra substruct subctx w = (w1, ns ++ [TNode None None None], Panic p))
      as Hev.
    { intros p Hstep. destruct (TypeField_NumField _ _ _ Hsf) as (l & Hl & Hlt).
      rewrite (eval_fields ev rt n s extra substruct subctx w val styp l Hs Hl).
      fold curr. fold step.
      rewrite (seq_split_at i l Hlt), evalFields_app, Hpre.
      cbn [evalFields]. by rewrite Hstep. }
    split; [|split; [|split; [|split]]].
    + intros ctx Hctx. apply Hev.
      by eapply evalField_nil_interpreter; [right| | |].
    + intros p Hctx. apply Hev. by eapply evalField_no_context; [right| |].
    + intros Hv. subst context. unfold fieldContext. rewrite Hv. by eauto.
    + intros t p x Hv Hx Hshape. subst context. unfold fieldContext. rewrite Hv. simpl.
      rewrite Hx. simpl. destruct t; try by eauto.
      destruct (Hshape eq_refl) as [d ->]. by eauto.
    + intros t p Hv. subst context. unfold fieldContext. by rewrite Hv.
  - intros. by eapply evalField_nil_interpreter.
  - intros. by eapply evalField_nested.
  - intros. by eapply fieldIntrospect_expr_interpreter.
  - intros. by apply eval_no_nil_call.
Qed.

Lemma nil_interpreter_call_witness :
  EvalEmptyTags (options ev_empty_tags) = true /\
  interpreters ev_empty_tags !! WholeTag = None /\
  Eval 1 ev_empty_tags rt_fwd root0 None world0
    = (mkWorld heap0 1, [TNode None None None], Panic nil_dereference).
Proof.
  split; [reflexivity|]. split; [vm_compute; reflexivity|].
  refine (proj1 (proj2 (proj1 nil_interpreter_call 0%nat ev_empty_tags rt_fwd root0 None None
    None world0 val0 theStruct 0%nat (mkField "A" "cc:something" TInt) world0 [] None
    (mkWorld heap0 1)
    (mkFieldDescr "A" "" None (reflect.MkValue TInt (reflect.Stored (0%nat, [0%nat])) false)
       TInt {[ "cc" := "something" ]} true)
    eq_refl eq_refl eq_refl eq_refl _ _ _))
    (el.mkContext "A" "*structor_test.theStruct.A" {[ "cc" := "something" ]} root0 None None
       (Some (TInt, VInt 0))) _).
  - vm_compute. reflexivity.
  - intros k [t Hk]. vm_compute in Hk.
    destruct (decide (k = "cc")) as [->|Hne]; [vm_compute; reflexivity|].
    exfalso. revert Hk.
    change (({[ "cc" := "something" ]} : gmap string string) !! k = Some t -> False).
    by rewrite lookup_singleton_ne.
  - vm_compute. reflexivity.
  - vm_compute. reflexivity.
Defined.

(** C10 as stated fails in its second half: the constructor accepts a
    registry that binds a name to the nil interpreter, and with
    [EvalEmptyTags] off the field dispatched by that name has the nil
    interpreter called for it. [Eval] panics with the nil
    dereference. *)
Lemma nil_registered_interpreter_call :
  NewEvaluator the_scanner {[ "cc" := None ]} = Ret ev_nil /\
  EvalEmptyTags (options ev_nil) = false /\
  Eval 1 ev_nil rt_fwd root0 None world0
    = (mkWorld heap0 1, [TNode None None None], Panic nil_dereference).
Proof. repeat split; vm_compute; reflexivity. Qed.

(** * More on the walk *)

(** ** The aggregate *)

Lemma evalFields_length field indices merr w w' ns merr' :
  evalFields field indices merr w = (w', ns, Ret merr') -> length ns = length indices.
Proof.
  revert merr w w' ns. induction indices as [|i rest IH]; intros merr w w' ns; simpl.
  - by intros [= <- <- <-].
  - destruct (field i w) as [[w1 n] o]. destruct o as [err| | |]; try done.
    destruct (evalFields field rest _ w1) as [[w2 ns2] o2] eqn:Hrest.
    intros [= <- <- ->]. simpl. f_equal. by eapply IH.
Qed.

(** What the loop returns is [merr] with the errors of the fields
    appended in their order; it is nil only if [merr] was and no field
    returned an error. *)
Lemma evalFields_aggregate field indices merr w w' ns merr' :
  (forall i w w1 n err, field i w = (w1, n, Ret err) -> node_err n = err) ->
  evalFields field indices merr w = (w', ns, Ret merr') ->
  multierror.list_of merr'
    = multierror.list_of merr ++ concat (map (fun n => multierror.list_of (node_err n)) ns) /\
  (merr' = None <-> merr = None /\ Forall (fun n => node_err n = None) ns).
Proof.
  intros Hf. revert merr w w' ns. induction indices as [|i rest IH]; intros merr w w' ns; simpl.
  - intros [= <- <- <-]. simpl. rewrite app_nil_r. split; [done|]. split; [by intros ->|].
    by intros [-> _].
  - destruct (field i w) as [[w1 n] o] eqn:Hstep. destruct o as [err| | |]; try done.
    apply Hf in Hstep.
    destruct (evalFields field rest _ w1) as [[w2 ns2] o2] eqn:Hrest.
    intros [= <- <- ->]. apply IH in Hrest as [Hl Hnil]. rewrite Hl. simpl.
    rewrite Hnil, Forall_cons, Hstep. clear.
    destruct err as [e|]; simpl.
    + rewrite <- app_assoc. split; [done|]. split; [by intros [[=] _]|].
      by intros [_ [[=] _]].
    + split; [done|]. tauto.
Qed.

Lemma descend_node_err (rec : eval_fn) s extra f result call w w1 n err :
  descend rec s extra f result call w = (w1, n, Ret err) -> node_err n = err.
Proof. unfold descend. repeat case_match; intros; by simplify_eq. Qed.

Lemma evalField_node_err rec ev rt s extra curr subctx val styp i w w1 n err :
  evalField rec ev rt s extra curr subctx val styp i w = (w1, n, Ret err) ->
  node_err n = err.
Proof.
  unfold evalField. repeat case_match; intros; simplify_eq; try done;
    by eapply descend_node_err.
Qed.

Lemma descend_no_failure (rec : eval_fn) s extra f result call w w1 n :
  (forall a b c d w w' ns, rec a b c d w = (w', ns, Ret None) -> Forall no_failure ns) ->
  descend rec s extra f result call w = (w1, n, Ret None) -> no_failure n.
Proof.
  intros Hrec. unfold descend. repeat case_match; intros; simplify_eq;
    try (by constructor).
  all: constructor; intros ns' [= <-]; by eapply Hrec.
Qed.

Lemma evalField_no_failure rec ev rt s extra curr subctx val styp i w w1 n :
  (forall a b c d w w' ns, rec a b c d w = (w', ns, Ret None) -> Forall no_failure ns) ->
  evalField rec ev rt s extra curr subctx val styp i w = (w1, n, Ret None) -> no_failure n.
Proof.
  intros Hrec. unfold evalField. repeat case_match; intros; simplify_eq;
    try (by constructor); by eapply descend_no_failure.
Qed.

Lemma evalFields_Some field indices m w w' ns merr' :
  evalFields field indices (Some m) w = (w', ns, Ret merr') -> is_Some merr'.
Proof.
  revert m w w' ns. induction indices as [|i rest IH]; intros m w w' ns; simpl.
  - intros [= <- <- <-]. by eauto.
  - destruct (field i w) as [[w1 n] o]. destruct o as [err| | |]; try done.
    destruct (evalFields field rest _ w1) as [[w2 ns2] o2] eqn:Hrest.
    intros [= <- <- ->]. destruct err; by eapply IH.
Qed.

Lemma evalFields_no_failure field indices merr w w' ns :
  (forall i w w1 n, field i w = (w1, n, Ret None) -> no_failure n) ->
  evalFields field indices merr w = (w', ns, Ret None) -> Forall no_failure ns.
Proof.
  intros Hf. revert merr w w' ns. induction indices as [|i rest IH]; intros merr w w' ns; simpl.
  - intros [= <- <-]. constructor.
  - destruct (field i w) as [[w1 n] o] eqn:Hstep. destruct o as [err| | |]; try done.
    destruct (evalFields field rest _ w1) as [[w2 ns2] o2] eqn:Hrest.
    intros [= <- <- ->].
    destruct err as [e|].
    + apply evalFields_Some in Hrest as [? [=]].
    + constructor; [by eapply Hf | by eapply IH].
Qed.

Lemma eval_no_failure fuel ev rt s extra substruct subctx w w' ns :
  eval fuel ev rt s extra substruct subctx w = (w', ns, Ret None) -> Forall no_failure ns.
Proof.
  revert s extra substruct subctx w w' ns.
  induction fuel as [|n IH]; intros s extra substruct subctx w w' ns; simpl; [done|].
  unfold eval_body. repeat case_match; try done; intros; simplify_eq.
  all: eapply evalFields_no_failure; [|eassumption].
  all: intros; eapply evalField_no_failure; [|eassumption]; by apply IH.
Qed.

Lemma no_failure_node_err n : no_failure n -> node_err n = None.
Proof. by intros []. Qed.

(** For a root that is a record or a pointer to one, a call of [Eval]
    that returns has visited every field of the root; the error it
    returns holds the errors the fields returned, in the order of the
    fields, and it is nil if and only if no field failed, at any depth. *)
Theorem Eval_aggregate fuel ev rt s extra w w' ns merr val styp l :
  structIntrospect rt (mem w) s = Ret (val, styp, None) ->
  reflect.NumField styp = Ret l ->
  Eval fuel ev rt s extra w = (w', ns, Ret merr) ->
  length ns = l /\
  multierror.list_of merr = concat (map (fun n => multierror.list_of (node_err n)) ns) /\
  (merr = None <-> Forall (fun n => node_err n = None) ns) /\
  (merr = None <-> Forall no_failure ns).
Proof.
  intros Hs Hl. unfold Eval. destruct fuel as [|n]; [done|].
  rewrite (eval_fields ev rt n s extra None None w val styp l Hs Hl). intros Hev.
  pose proof (evalFields_length _ _ _ _ _ _ _ Hev) as Hlen. rewrite length_seq in Hlen.
  destruct (evalFields_aggregate _ _ _ _ _ _ _
              (evalField_node_err (eval n ev rt) ev rt s extra _ None val styp) Hev)
    as [Hlist Hnil].
  split; [done|]. split; [done|].
  assert (merr = None <-> Forall (fun n => node_err n = None) ns) as Hshallow.
  { rewrite Hnil. tauto. }
  split; [done|]. split.
  - intros ->. eapply evalFields_no_failure; [|exact Hev].
    intros. eapply evalField_no_failure; [|eassumption]. intros. by eapply eval_no_failure.
  - intros Hall. apply Hshallow. eapply Forall_impl; [exact Hall|].
    intros. by apply no_failure_node_err.
Qed.

(** A root that is neither nil nor a struct nor a pointer to one: [Eval]
    returns the root-argument error at once; no field is looked at and
    the store is as it was. *)
Theorem Eval_root_not_struct fuel ev rt s extra w v t :
  reflect.Indirect (mem w) (reflect.ValueOf s) = Ret v ->
  reflect.TypeOf v = Ret t ->
  kind_of t <> Struct ->
  Eval (S fuel) ev rt s extra w
    = (w, [], Ret (Some (ErrString ("structor: " ++ fmt_v rt (mem w) s
                    ++ " must be a struct or a pointer to struct, actually: "
                    ++ kind_string (kind_of t))))).
Proof.
  intros Hv Ht Hk. unfold Eval. cbn [eval]. unfold eval_body, current, structIntrospect.
  rewrite Hv. cbn [mbind outcome_bind obind]. rewrite Ht. cbn [mbind outcome_bind obind].
  by rewrite decide_True.
Qed.

Lemma Eval_root_not_struct_witness :
  Eval 1 ev_cc rt_fwd (Some (TInt, VInt 3)) None world0
    = (world0, [],
       Ret (Some (ErrString "structor: ? must be a struct or a pointer to struct, actually: int"))).
Proof.
  apply (Eval_root_not_struct 0 ev_cc rt_fwd (Some (TInt, VInt 3)) None world0
           (reflect.MkValue TInt (reflect.Temp (VInt 3)) false) TInt eq_refl eq_refl).
  discriminate.
Defined.

Lemma Eval_aggregate_witness :
  structIntrospect rt_fwd heap_pair root_pair = Ret (val_pair, pair, None) /\
  exists w' ns,
    Eval 2 ev_pair rt_fwd root_pair None (mkWorld heap_pair 0)
      = (w', ns, Ret (Some (ErrMulti ["boom"]))) /\
    length ns = 2%nat /\
    map node_err ns = [Some (ErrString "boom"); None].
Proof.
  split; [reflexivity|].
  eexists _, _. split; [vm_compute; reflexivity|]. split; [|vm_compute; reflexivity].
  refine (proj1 (Eval_aggregate 2 ev_pair rt_fwd root_pair None (mkWorld heap_pair 0)
    _ _ _ val_pair pair 2%nat eq_refl eq_refl _)).
  vm_compute. reflexivity.
Defined.

(** ** The bound on the depth *)

Lemma descend_refines rec1 rec2 s extra f result call w r :
  refines rec1 rec2 ->
  descend rec1 s extra f result call w = r -> outcome_of r <> OutOfFuel ->
  descend rec2 s extra f result call w = r.
Proof.
  intros Href. unfold refines in Href.
  unfold descend. repeat case_match; try done; intros; simplify_eq; try done.
  all: match goal with H : _ ?a ?b ?c ?d ?w = (?w0, ?l, ?o), H' : outcome_of _ <> _ |- _ =>
         apply Href in H; [|exact H'] end.
  all: congruence.
Qed.

Lemma evalField_refines rec1 rec2 ev rt s extra curr subctx val styp i w r :
  refines rec1 rec2 ->
  evalField rec1 ev rt s extra curr subctx val styp i w = r -> outcome_of r <> OutOfFuel ->
  evalField rec2 ev rt s extra curr subctx val styp i w = r.
Proof.
  intros Href. unfold evalField.
  destruct (fieldIntrospect ev rt val styp i w) as [w1 [[f [e|]]|p| |]]; try done.
  destruct (negb (bool_decide (expr f = "")) || EvalEmptyTags (options ev)).
  2: { by apply descend_refines. }
  destruct (fieldContext _ _ _ _ _ _) as [ctx|p| |]; try done.
  destruct (interpreter f) as [intr|]; try done.
  destruct (el.Execute intr (expr f) ctx (mem w1)) as [h2 [result [e|]]]; [done|].
  destruct (negb (NonMutating (options ev)) && settable f).
  2: { by apply descend_refines. }
  destruct (reflectSet _ _ _ _) as [[h3 [e|]]|p| |]; try done.
  by apply descend_refines.
Qed.

Lemma evalFields_refines field1 field2 indices merr w r :
  (forall i w r, field1 i w = r -> outcome_of r <> OutOfFuel -> field2 i w = r) ->
  evalFields field1 indices merr w = r -> outcome_of r <> OutOfFuel ->
  evalFields field2 indices merr w = r.
Proof.
  intros Hf. revert merr w r. induction indices as [|i rest IH]; intros merr w r; simpl; [done|].
  destruct (field1 i w) as [[w1 n] o] eqn:H1.
  destruct o as [err|p| |].
  - rewrite (Hf i w _ H1) by done.
    destruct (evalFields field1 rest _ w1) as [[w2 ns] o2] eqn:H2.
    intros <- Hne. by rewrite (IH _ _ _ H2 Hne).
  - rewrite (Hf i w _ H1) by done. done.
  - rewrite (Hf i w _ H1) by done. done.
  - by intros <- [].
Qed.

Lemma eval_S_refines ev rt n : refines (eval n ev rt) (eval (S n) ev rt).
Proof.
  induction n as [|n IH]; intros s extra substruct subctx w r.
  - simpl. by intros <- [].
  - change (eval (S (S n)) ev rt s extra substruct subctx w)
      with (eval_body (eval (S n) ev rt) ev rt s extra substruct subctx w).
    change (eval (S n) ev rt s extra substruct subctx w)
      with (eval_body (eval n ev rt) ev rt s extra substruct subctx w).
    unfold eval_body. repeat case_match; try done.
    apply evalFields_refines. intros; by eapply evalField_refines.
Qed.

(** ** The order of the tag map *)

Lemma rangeTags_order (interps : Interpreters) (m : gmap string string) l1 l2 :
  l1 ≡ₚ map_to_list m -> l2 ≡ₚ map_to_list m ->
  (forall k k', is_Some (m !! k) -> is_Some (interps !! k) ->
                is_Some (m !! k') -> is_Some (interps !! k') -> k = k') ->
  rangeTags interps l1 = rangeTags interps l2.
Proof.
  intros H1 H2 Huniq.
  assert (forall l k t, l ≡ₚ map_to_list m -> ((k, t) ∈ l <-> m !! k = Some t)) as Hin.
  { intros l k t ->. apply elem_of_map_to_list. }
  destruct (rangeTags interps l1) as [[[k t] intr]|] eqn:Hr1;
    destruct (rangeTags interps l2) as [[[k' t'] intr']|] eqn:Hr2; try done.
  - apply rangeTags_Some in Hr1 as [Hi1 Hl1]. apply rangeTags_Some in Hr2 as [Hi2 Hl2].
    apply Hin in Hi1; [|done]. apply Hin in Hi2; [|done].
    assert (k = k') as <- by (by apply Huniq; eauto). by simplify_eq.
  - apply rangeTags_Some in Hr1 as [Hi1 Hl1]. apply Hin in Hi1; [|done].
    rewrite (rangeTags_None _ _ Hr2 k t) in Hl1; [done|]. by apply Hin.
  - apply rangeTags_Some in Hr2 as [Hi2 Hl2]. apply Hin in Hi2; [|done].
    rewrite (rangeTags_None _ _ Hr1 k' t') in Hl2; [done|]. by apply Hin.
Qed.

Lemma fieldIntrospect_order ev rt1 rt2 val typ i w :
  one_recognized ev ->
  fieldIntrospect ev rt1 val typ i w = fieldIntrospect ev rt2 val typ i w.
Proof.
  intros Huniq. unfold fieldIntrospect.
  destruct (reflect.TypeField typ i ≫= _) as [[f v]|p| |]; try done.
  specialize (Huniq (Tag f)).
  destruct (scanner.Tags (scanner ev) (Tag f)) as [tags0 [e|]]; [done|].
  rewrite (rangeTags_order (interpreters ev) tags0
             (range_order rt1 (ticks w) tags0) (range_order rt2 (ticks w) tags0));
    [done | apply range_order_perm | apply range_order_perm | exact Huniq].
Qed.

Lemma descend_ext (rec1 rec2 : eval_fn) s extra f result call w :
  (forall a b c d w, rec1 a b c d w = rec2 a b c d w) ->
  descend rec1 s extra f result call w = descend rec2 s extra f result call w.
Proof.
  intros Hrec. unfold descend.
  destruct (if decide (reflect.Kind (value f) = Interface) then _ else _) as [[v k]|p| |];
    try done.
  destruct (decide (k = Struct)); [|done].
  destruct (byRef (mem w) v) as [sub|p| |]; try done. by rewrite Hrec.
Qed.

Lemma evalField_order rec1 rec2 ev rt1 rt2 s extra curr subctx val styp i w :
  one_recognized ev ->
  (forall a b c d w, rec1 a b c d w = rec2 a b c d w) ->
  evalField rec1 ev rt1 s extra curr subctx val styp i w
    = evalField rec2 ev rt2 s extra curr subctx val styp i w.
Proof.
  intros Huniq Hrec. unfold evalField.
  rewrite (fieldIntrospect_order ev rt1 rt2 val styp i w Huniq).
  destruct (fieldIntrospect ev rt2 val styp i w) as [w1 [[f [e|]]|p| |]]; try done.
  destruct (negb (bool_decide (expr f = "")) || EvalEmptyTags (options ev)).
  2: { by apply descend_ext. }
  destruct (fieldContext _ _ _ _ _ _) as [ctx|p| |]; try done.
  destruct (interpreter f) as [intr|]; try done.
  destruct (el.Execute intr (expr f) ctx (mem w1)) as [h2 [result [e|]]]; [done|].
  destruct (negb (NonMutating (options ev)) && settable f).
  2: { by apply descend_ext. }
  destruct (reflectSet _ _ _ _) as [[h3 [e|]]|p| |]; try done.
  by apply descend_ext.
Qed.

Lemma evalFields_ext field1 field2 indices merr w :
  (forall i w, field1 i w = field2 i w) ->
  evalFields field1 indices merr w = evalFields field2 indices merr w.
Proof.
  intros Hf. revert merr w. induction indices as [|i rest IH]; intros merr w; simpl; [done|].
  rewrite Hf. destruct (field2 i w) as [[w1 n] o]. destruct o; try done. by rewrite IH.
Qed.

(** Where no field carries two registered tag names, a run does not
    depend on the order in which the runtime ranges over the tag maps:
    with interpreters and a scanner that are functions, two runs on the
    same record, [extra] and store end the same. *)
Theorem eval_deterministic fuel ev rt1 rt2 s extra substruct subctx w :
  one_recognized ev ->
  (forall h i, fmt_v rt1 h i = fmt_v rt2 h i) ->
  eval fuel ev rt1 s extra substruct subctx w = eval fuel ev rt2 s extra substruct subctx w.
Proof.
  intros Huniq Hfmt. revert s extra substruct subctx w.
  induction fuel as [|n IH]; intros s extra substruct subctx w; simpl; [done|].
  unfold eval_body, structIntrospect. rewrite Hfmt.
  destruct (reflect.Indirect (mem w) (reflect.ValueOf (current s substruct)) ≫= _)
    as [[[val styp] [e|]]|p| |]; try done.
  destruct (reflect.NumField styp) as [l|p| |]; try done.
  apply evalFields_ext. intros i w0. by apply evalField_order.
Qed.

Lemma eval_deterministic_witness :
  one_recognized ev_tagged /\
  (scanner.Tags (scanner ev_tagged) "cc:something json:a").1 = tags_tagged /\
  range_order rt_fwd 0 tags_tagged = [("cc", "something"); ("json", "a")] /\
  range_order rt_rev 0 tags_tagged = [("json", "a"); ("cc", "something")] /\
  Eval 2 ev_tagged rt_fwd root_tagged None world0
    = Eval 2 ev_tagged rt_rev root_tagged None world0 /\
  mem (final_world (Eval 2 ev_tagged rt_rev root_tagged None world0))
    = {[ 0%nat := VStruct [VInt 9] ]}.
Proof.
  assert (one_recognized ev_tagged) as Huniq.
  { intros raw k k' _ [i Hk] _ [i' Hk']. simpl in Hk, Hk'.
    apply lookup_singleton_Some in Hk as [<- _].
    by apply lookup_singleton_Some in Hk' as [<- _]. }
  split; [exact Huniq|].
  split; [vm_compute; reflexivity|].
  split; [vm_compute; reflexivity|].
  split; [vm_compute; reflexivity|].
  split; [|vm_compute; reflexivity].
  exact (eval_deterministic 2 ev_tagged rt_fwd rt_rev root_tagged None None None world0 Huniq
           (fun _ _ => eq_refl)).
Defined.

(** * The edges of the walk *)

(** ** Which fields are settable *)

(** A field is settable exactly when the handle on its value can
    be set: the second way the source allows, through the address of the
    value, never adds a field, since the pointer [Addr] returns is not
    itself addressable. So a field that is not exported, which is one
    whose [PkgPath] is not empty, whatever its name, is never
    settable; nor is a field that is not a pointer, of a record that is
    not addressable (a root passed by value, a record held by value in
    an interface); nor is the invalid value that stands for a nil
    pointer. A settable field has its value in the store. *)
Theorem fieldIntrospect_settable ev rt val styp i w w1 f sf :
  reflect.TypeOf val = Ret styp ->
  reflect.TypeField styp i = Ret sf ->
  fieldIntrospect ev rt val styp i w = (w1, Ret (f, None)) ->
  settable f = reflect.CanSet (value f) /\
  (exported sf = false -> settable f = false) /\
  (reflect.CanAddr val = false -> kind_of (Type_ sf) <> Ptr -> settable f = false) /\
  (reflect.IsValid (value f) = false -> settable f = false) /\
  (settable f = true ->
     exists t r, value f = reflect.MkValue t (reflect.Stored r) false).
Proof.
  intros Hval Hsf Hfi.
  destruct (fieldIntrospect_inv _ _ _ _ _ _ _ _ _ Hfi)
    as (sf' & fv & Hsf' & Hfv & Hind & _ & _ & _ & _ & Hset).
  rewrite Hsf in Hsf'. injection Hsf' as <-.
  assert (settable f = reflect.CanSet (value f)) as Hcs.
  { rewrite Hset. destruct (value f) as [|t [r|x] [|]]; done. }
  destruct (Field_handle _ _ _ _ _ Hval Hsf Hfv) as (p & ro & -> & Hro & Htemp).
  split; [done|]. rewrite Hcs.
  apply Indirect_handle in Hind as [[Hk ->]|(e & He & [->|[r ->]])].
  - split; [|split; [|split]].
    + intros Hex. rewrite (Hro Hex). by destruct p.
    + intros Ha _. destruct (Htemp Ha) as [x ->]. done.
    + done.
    + destruct p as [r|x], ro; try done. by eauto.
  - repeat split; try done.
  - split; [|split; [|split]].
    + intros Hex. by rewrite (Hro Hex).
    + intros _ Hk. by rewrite He in Hk.
    + done.
    + destruct ro; try done. by eauto.
Qed.

Lemma fieldIntrospect_settable_witness :
  fieldIntrospect ev_cc rt_fwd val_hidden hidden 0 world0
    = (mkWorld heap0 1, Ret (field_hidden_a, None)) /\
  settable field_hidden_a = false.
Proof.
  split; [vm_compute; reflexivity|].
  apply (proj1 (proj2 (fieldIntrospect_settable ev_cc rt_fwd val_hidden hidden 0 world0
           (mkWorld heap0 1) field_hidden_a (mkField "a" "cc:something" TInt)
           eq_refl eq_refl eq_refl))).
  reflexivity.
Defined.

(** ** Fields that are not exported *)

(** A field that is not exported, which is one whose [PkgPath] is not
    empty, whatever its name, makes the closure panic as soon
    as the engine needs its value as an [interface{}]: to fill the [Val]
    slot of the context when the field is to be evaluated, or to go into
    the record the field holds. [reflect] refuses to hand out a value
    reached through an unexported field, and nothing recovers the panic.
    No interpreter is run for the field. *)
Theorem evalField_unexported rec ev rt s extra curr subctx val styp i w w1 f sf :
  reflect.TypeOf val = Ret styp ->
  reflect.TypeField styp i = Ret sf ->
  exported sf = false ->
  fieldIntrospect ev rt val styp i w = (w1, Ret (f, None)) ->
  reflect.IsValid (value f) = true ->
  expr f <> "" \/ EvalEmptyTags (options ev) = true \/ reflect.Kind (value f) = Struct ->
  evalField rec ev rt s extra curr subctx val styp i w
    = (w1, TNode None None None,
       Panic (PanicString
         "reflect.Value.Interface: cannot return value obtained from unexported field or method")).
Proof.
  intros Hval Hsf Hex Hfi Hvalid Hcase.
  destruct (fieldIntrospect_inv _ _ _ _ _ _ _ _ _ Hfi)
    as (sf' & fv & Hsf' & Hfv & Hind & _).
  rewrite Hsf in Hsf'. injection Hsf' as <-.
  destruct (Field_handle _ _ _ _ _ Hval Hsf Hfv) as (p & ro & -> & Hro & _).
  rewrite (Hro Hex) in Hind.
  assert (exists t q, value f = reflect.MkValue t q true) as (t & q & Hv).
  { apply Indirect_handle in Hind as [[_ Hv]|(e & _ & [Hv|[r Hv]])]; [by eauto| |by eauto].
    by rewrite Hv in Hvalid. }
  unfold evalField. rewrite Hfi.
  destruct (negb (bool_decide (expr f = "")) || EvalEmptyTags (options ev)) eqn:Hg.
  - unfold fieldContext. rewrite Hv. done.
  - apply orb_false_iff in Hg as [Hg Hopt]. apply negb_false_iff, bool_decide_eq_true_1 in Hg.
    destruct Hcase as [Hne|[Ht|Hk]]; [done|congruence|].
    unfold descend. rewrite Hk. rewrite decide_False by done. rewrite decide_True by done.
    rewrite Hv. by destruct q.
Qed.

Lemma evalField_unexported_witness :
  evalField (eval 1 ev_cc rt_fwd) ev_cc rt_fwd
      (Some (TPtr hidden, VPtr (Some (0%nat, [])))) None
      (Some (TPtr hidden, VPtr (Some (0%nat, [])))) None val_hidden hidden 0 world0
    = (mkWorld heap0 1, TNode None None None,
       Panic (PanicString
         "reflect.Value.Interface: cannot return value obtained from unexported field or method")).
Proof.
  apply (evalField_unexported _ ev_cc rt_fwd _ _ _ _ val_hidden hidden 0 world0
           (mkWorld heap0 1) field_hidden_a (mkField "a" "cc:something" TInt)
           eq_refl eq_refl eq_refl eq_refl eq_refl).
  left. discriminate.
Defined.

(** Whether a field is exported is what the type says of it, not a
    matter of ASCII: the field of [umlaut] is exported, it is settable,
    and the walk sets it. *)
Example Eval_sets_exported_field :
  (exists f, fieldIntrospect ev_cc rt_fwd
               (reflect.MkValue umlaut (reflect.Stored (0%nat, [])) false) umlaut 0 world0
               = (mkWorld heap0 1, Ret (f, None)) /\ settable f = true) /\
  outcome_of (Eval 2 ev_cc rt_fwd root_umlaut None world0) = Ret None /\
  mem (final_world (Eval 2 ev_cc rt_fwd root_umlaut None world0))
    = {[ 0%nat := VStruct [VInt 9] ]}.
Proof.
  split; [eexists; split; vm_compute; reflexivity|].
  split; vm_compute; reflexivity.
Qed.

(** ** Panics *)

(** A panic in the closure of a field ends the walk there: [eval]
    panics with the same operand, the fields after it are not looked
    at, and the errors the fields before it had returned are returned
    to no one. *)
Theorem eval_panic_stops n ev rt s extra substruct subctx w val styp l i w1 ns merr w2 nd p :
  structIntrospect rt (mem w) (current s substruct) = Ret (val, styp, None) ->
  reflect.NumField styp = Ret l -> (i < l)%nat ->
  let step := evalField (eval n ev rt) ev rt s extra (current s substruct) subctx val styp in
  evalFields step (seq 0 i) None w = (w1, ns, Ret merr) ->
  step i w1 = (w2, nd, Panic p) ->
  eval (S n) ev rt s extra substruct subctx w = (w2, ns ++ [nd], Panic p).
Proof.
  intros Hs Hl Hi step Hpre Hstep.
  rewrite (eval_fields ev rt n s extra substruct subctx w val styp l Hs Hl).
  fold step. rewrite (seq_split_at i l Hi), evalFields_app, Hpre.
  cbn [evalFields]. by rewrite Hstep.
Qed.

Lemma eval_panic_stops_witness :
  exists w2 n0 n1,
    Eval 2 ev_pair rt_fwd root_mixed None (mkWorld heap_mixed 0)
      = (w2, [n0] ++ [n1],
         Panic (PanicString
           "reflect.Value.Interface: cannot return value obtained from unexported field or method"))
    /\ node_err n0 = Some (ErrString "boom").
Proof.
  eexists _, _, _. split.
  - refine (eval_panic_stops 1 ev_pair rt_fwd root_mixed None None None (mkWorld heap_mixed 0)
      val_mixed mixed 3 1 _ _ _ _ _ _ eq_refl eq_refl _ _ _).
    + lia.
    + vm_compute. reflexivity.
    + vm_compute. reflexivity.
  - reflexivity.
Defined.

(** ** Nil pointers and scan errors *)

(** A field that is a nil pointer is never filled in. Its value is
    the invalid [reflect.Value]: it is not settable, the [Val] slot of
    the context is nil, the interpreter is run all the same where there
    is an expression, and its result is dropped without an error, also
    by an evaluator that mutates; there is no record to go into. *)
Theorem evalField_nil_pointer rec ev rt s extra curr subctx val styp i w w1 f :
  fieldIntrospect ev rt val styp i w = (w1, Ret (f, None)) ->
  reflect.IsValid (value f) = false ->
  settable f = false /\
  (forall intr, interpreter f = Some intr ->
     expr f <> "" \/ EvalEmptyTags (options ev) = true ->
     let ctx := el.mkContext (name f) (long_name curr (name f)) (tags f) s extra subctx None in
     evalField rec ev rt s extra curr subctx val styp i w =
       let '(h2, (result, err)) := el.Execute intr (expr f) ctx (mem w1) in
       (mkWorld h2 (ticks w1), TNode (Some (mkCall intr (expr f) ctx result err)) err None,
        Ret err)) /\
  (expr f = "" -> EvalEmptyTags (options ev) = false ->
     evalField rec ev rt s extra curr subctx val styp i w
       = (w1, TNode None None None, Ret None)).
Proof.
  intros Hfi Hvalid.
  assert (value f = reflect.ZeroValue) as Hv by (by destruct (value f)).
  assert (settable f = false) as Hset.
  { destruct (fieldIntrospect_inv _ _ _ _ _ _ _ _ _ Hfi)
      as (sf & fv & _ & _ & _ & _ & _ & _ & _ & ->). by rewrite Hv. }
  assert (forall result call w0,
    descend rec s extra f result call w0 = (w0, TNode call None None, Ret None)) as Hd.
  { intros. unfold descend. rewrite Hv. done. }
  split; [done|]. split.
  - intros intr Hi Hg ctx.
    rewrite (evalField_executed rec ev rt s extra curr subctx val styp i w w1 f ctx intr).
    2: { split; [done|]. split; [done|]. split; [|done].
         unfold fieldContext. by rewrite Hvalid. }
    destruct (el.Execute intr (expr f) ctx (mem w1)) as [h2 [result [e|]]]; [done|].
    rewrite Hset, andb_false_r. by rewrite Hd.
  - intros He Hopt. rewrite (evalField_skipped _ _ _ _ _ _ _ _ _ _ _ _ _ Hfi He Hopt).
    apply Hd.
Qed.

Lemma evalField_nil_pointer_witness :
  fieldIntrospect ev_five rt_fwd val_nm nmStruct 1 (mkWorld heap_nm 0)
    = (mkWorld heap_nm 1, Ret (field_nm_D, None)) /\
  settable field_nm_D = false /\
  final_world (Eval 2 ev_five rt_fwd (Some (TPtr nmStruct, VPtr (Some (0%nat, [])))) None
                 (mkWorld heap_nm 0))
    = mkWorld {[ 0%nat := VStruct [VInt 5; VPtr None] ]} 2.
Proof.
  split; [vm_compute; reflexivity|]. split; [|vm_compute; reflexivity].
  apply (proj1 (evalField_nil_pointer (eval 1 ev_five rt_fwd) ev_five rt_fwd None None None
    None val_nm nmStruct 1 (mkWorld heap_nm 0) (mkWorld heap_nm 1) field_nm_D
    eq_refl eq_refl)).
Defined.

(** When the scanner fails on the tag of a field, the closure
    returns that error under the long name of the field: no interpreter
    is run, nothing is written, no map is ranged over, the record the
    field may hold is not walked, and the loop goes on with the next
    field, the error appended to those it has. *)
Theorem evalField_scan_error rec ev rt s extra curr subctx val styp i w sf fv v tags0 e :
  reflect.TypeField styp i = Ret sf ->
  reflect.Field val i = Ret fv ->
  reflect.Indirect (mem w) fv = Ret v ->
  scanner.Tags (scanner ev) (Tag sf) = (tags0, Some e) ->
  let step := evalField rec ev rt s extra curr subctx val styp in
  let e' := field_error (long_name curr (Name sf)) e in
  step i w = (w, TNode None (Some e') None, Ret (Some e')) /\
  contains (error_text e') ("<<" ++ long_name curr (Name sf) ++ ">>") = true /\
  forall rest merr,
    evalFields step (i :: rest) merr w =
      (let '(w', ns, o) := evalFields step rest (Some (multierror.Append merr e')) w in
       (w', TNode None (Some e') None :: ns, o)).
Proof.
  intros Hsf Hfv Hv Hsc step e'.
  assert (step i w = (w, TNode None (Some e') None, Ret (Some e'))) as Hstep.
  { subst step. unfold evalField, fieldIntrospect.
    rewrite Hsf, Hfv. simpl. rewrite Hv. simpl. by rewrite Hsc. }
  split; [done|]. split; [apply field_error_names_field|].
  intros rest merr. cbn [evalFields]. by rewrite Hstep.
Qed.

Lemma evalField_scan_error_witness :
  outcome_of (Eval 2 ev_broken rt_fwd root0 None world0)
    = Ret (Some (ErrMulti ["structor: <<*structor_test.theStruct.A>>: bad tag"])) /\
  evalField (eval 1 ev_broken rt_fwd) ev_broken rt_fwd root0 None root0 None val0 theStruct 0
      world0
    = (world0,
       TNode None (Some (ErrString "structor: <<*structor_test.theStruct.A>>: bad tag")) None,
       Ret (Some (ErrString "structor: <<*structor_test.theStruct.A>>: bad tag"))).
Proof.
  split; [vm_compute; reflexivity|].
  apply (proj1 (evalField_scan_error (eval 1 ev_broken rt_fwd) ev_broken rt_fwd root0 None
    root0 None val0 theStruct 0 world0 (mkField "A" "cc:something" TInt)
    (reflect.MkValue TInt (reflect.Stored (0%nat, [0%nat])) false)
    (reflect.MkValue TInt (reflect.Stored (0%nat, [0%nat])) false) ∅ (ErrString "bad tag")
    eq_refl eq_refl eq_refl eq_refl)).
Defined.

(** ** Fields declared as pointers *)

(** A field declared as a pointer [*T] is never assigned, nil or
    not ([T] other than [interface{}]). [fieldIntrospect] keeps the
    value the pointer points to and the declared pointer type, and
    [reflectSet] converts the result to the pointer type and sets the
    pointed-to value with it: the store is never changed, and the call
    is without error only where it does nothing, on the invalid value
    of a nil pointer with a nil result, and on a struct with a result
    that does not convert. *)
Theorem reflectSet_pointer_field ev rt val styp i w w1 f err sf T :
  reflect.TypeOf val = Ret styp ->
  reflect.TypeField styp i = Ret sf ->
  Type_ sf = TPtr T -> T <> TInterface ->
  fieldIntrospect ev rt val styp i w = (w1, Ret (f, err)) ->
  typ f = TPtr T /\
  (value f = reflect.ZeroValue \/ exists p ro, value f = reflect.MkValue T p ro) /\
  forall h nv h' e,
    reflectSet h (value f) (typ f) nv = Ret (h', e) ->
    h' = h /\
    (e = None ->
       (nv = None /\ value f = reflect.ZeroValue) \/
       (exists t x, nv = Some (t, x) /\ reflect.ConvertibleTo t (TPtr T) = false /\
          kind_of T = Struct)).
Proof.
  intros Hval Hsf HT Hni Hfi.
  destruct (fieldIntrospect_inv _ _ _ _ _ _ _ _ _ Hfi)
    as (sf' & fv & Hsf' & Hfv & Hind & _ & Htyp & _).
  rewrite Hsf in Hsf'. injection Hsf' as <-. rewrite HT in Htyp.
  destruct (Field_handle _ _ _ _ _ Hval Hsf Hfv) as (p & ro & -> & _).
  rewrite HT in Hind.
  assert (value f = reflect.ZeroValue \/ exists p ro, value f = reflect.MkValue T p ro) as Hv.
  { apply Indirect_handle in Hind as [[Hk _]|(e & [= <-] & [Hv|[r Hv]])]; [done|by left|].
    right. by eauto. }
  split; [done|]. split; [done|]. rewrite Htyp.
  intros h nv h' e. unfold reflectSet.
  destruct (reflectSet_body h (value f) (TPtr T) nv) as [h1|[m|e1]| |] eqn:Hb; try done.
  2, 3: intros [= <- <-]; split; done.
  intros [= <- <-]. unfold reflectSet_body in Hb.
  assert (forall x, reflect.Set_ h (value f) (reflect.MkValue (TPtr T) (reflect.Temp x) false)
            <> Ret h1) as Hset.
  { intros x. destruct Hv as [->|(q & ro' & ->)]; [done|].
    unfold reflect.Set_. destruct q as [r|y], ro'; try done.
    rewrite decide_False by apply rtype_neq_TPtr. by rewrite decide_False. }
  destruct nv as [[t x]|].
  - cbn [reflect.ValueOf reflect.TypeOf mbind outcome_bind obind] in Hb.
    destruct (reflect.ConvertibleTo t (TPtr T)) eqn:Hc; cbn [negb andb] in Hb.
    + exfalso. unfold reflect.Convert in Hb. rewrite Hc in Hb.
      cbn [negb reflect.read of_option mbind outcome_bind obind] in Hb.
      destruct t; by apply Hset in Hb.
    + destruct (bool_decide (reflect.Kind (value f) = Struct)) eqn:Hk.
      * injection Hb as <-. split; [done|]. intros _. right. exists t, x.
        split; [done|]. split; [done|].
        apply bool_decide_eq_true_1 in Hk.
        destruct Hv as [Hz|(q & ro' & Hq)]; rewrite ?Hz, ?Hq in Hk; done.
      * unfold reflect.Convert in Hb. by rewrite Hc in Hb.
  - destruct (reflect.IsValid (value f)) eqn:Hvalid.
    + exfalso. by apply Hset in Hb.
    + injection Hb as <-. split; [done|]. intros _. left. split; [done|].
      by destruct (value f).
Qed.

Lemma reflectSet_pointer_field_witness :
  exists f tags0,
    fieldIntrospect ev_cc rt_fwd val_holder holder 0 (mkWorld heap_holder 0)
      = (mkWorld heap_holder 1, Ret (f, None)) /\
    value f = reflect.MkValue TInt (reflect.Stored (1%nat, [])) false /\
    typ f = TPtr TInt /\ tags f = tags0 /\
    forall h nv h' e, reflectSet h (value f) (typ f) nv = Ret (h', e) -> h' = h.
Proof.
  eexists _, _. split; [vm_compute; reflexivity|]. split; [reflexivity|].
  split; [reflexivity|]. split; [reflexivity|].
  intros h nv h' e Hr.
  refine (proj1 (proj2 (proj2 (reflectSet_pointer_field ev_cc rt_fwd val_holder holder 0
    (mkWorld heap_holder 0) (mkWorld heap_holder 1) _ None
    (mkField "D" "cc:something" (TPtr TInt)) TInt eq_refl eq_refl eq_refl _ eq_refl))
    h nv h' e Hr)).
  discriminate.
Defined.

(** ** By reference *)

(** [byRef] and [structIntrospect] undo each other on what the
    walk goes into. For a struct in the store, [byRef] is the pointer
    to it, and [structIntrospect] of that pointer is the very handle,
    addressable, in any store: the walk of a nested record works on the
    storage of the field. For a value that is not in the store (what an
    interface holds), [byRef] is the value itself, and
    [structIntrospect] finds the struct it is or points to. A value
    reached through an unexported field cannot be handed out at all. *)
Theorem byRef_structIntrospect rt h v :
  (forall t r, v = reflect.MkValue t (reflect.Stored r) false -> kind_of t = Struct ->
     byRef h v = Ret (Some (TPtr t, VPtr (Some r))) /\
     forall h', structIntrospect rt h' (Some (TPtr t, VPtr (Some r))) = Ret (v, t, None)) /\
  (forall t x j tj, v = reflect.MkValue t (reflect.Temp x) false -> t <> TInterface ->
     reflect.Indirect h v = Ret j -> reflect.TypeOf j = Ret tj -> kind_of tj = Struct ->
     byRef h v = Ret (Some (t, x)) /\
     structIntrospect rt h (Some (t, x)) = Ret (j, tj, None)) /\
  (forall t p, v = reflect.MkValue t p true ->
     byRef h v = Panic (PanicString
       "reflect.Value.Interface: cannot return value obtained from unexported field or method")).
Proof.
  split; [|split].
  - intros t r -> Hk. split; [done|]. intros h'.
    unfold structIntrospect. simpl. rewrite decide_False; [done|]. by intros [].
  - intros t x j tj -> Hni Hj Htj Hk. split.
    + unfold byRef. simpl. by destruct t.
    + unfold structIntrospect. unfold reflect.ValueOf. rewrite Hj. simpl. rewrite Htj. simpl.
      rewrite decide_False; [done|]. by intros [].
  - intros t p ->. unfold byRef. by destruct p.
Qed.

(** ** [evalExpr] *)

(** [evalExpr], which the context hands to the interpreters: under
    the name a field was dispatched by (a key of its tags, or
    [WholeTag]) it runs the interpreter the walk runs for the field, on
    the expression, context and store it is given; under a name that is
    not registered it runs nothing, leaves the store alone and returns
    nil and the error that names the name; under a name registered with
    the nil interpreter it panics with the nil dereference. *)
Theorem evalExpr_dispatch ev rt val styp i w w1 f sf intr :
  reflect.TypeField styp i = Ret sf ->
  fieldIntrospect ev rt val styp i w = (w1, Ret (f, None)) ->
  interpreter f = Some intr ->
  (exists k, (is_Some ((scanner.Tags (scanner ev) (Tag sf)).1 !! k) \/ k = WholeTag) /\
     tags f = delete k (scanner.Tags (scanner ev) (Tag sf)).1 /\
     forall e ctx h, evalExpr ev k e ctx h = Ret (el.Execute intr e ctx h)) /\
  (forall k e ctx h, interpreters ev !! k = None ->
     evalExpr ev k e ctx h
       = Ret (h, (None, Some (ErrString ("unknown interpreter: " ++ k))))) /\
  (forall k e ctx h, interpreters ev !! k = Some None ->
     evalExpr ev k e ctx h = Panic nil_dereference).
Proof.
  intros Hsf Hfi Hintr. split; [|split].
  - destruct (fieldIntrospect_cases _ _ _ _ _ _ _ _ _ Hsf Hfi)
      as [(k & t & intr' & Hr & Hi & _ & Ht)|[(_ & intr' & Hw & Hi & _ & Ht)|(_ & _ & Hi & _)]].
    + apply rangeTags_Some in Hr as [Hin Hl]. apply range_order_elem in Hin.
      exists k. split; [left; by eauto|]. split; [done|].
      intros e ctx h. unfold evalExpr. rewrite Hl, <- Hi, Hintr. done.
    + exists WholeTag. split; [by right|]. split; [done|].
      intros e ctx h. unfold evalExpr. rewrite Hw, <- Hi, Hintr. done.
    + congruence.
  - intros k e ctx h Hk. unfold evalExpr. by rewrite Hk.
  - intros k e ctx h Hk. unfold evalExpr. by rewrite Hk.
Qed.

Lemma evalExpr_dispatch_witness :
  evalExpr ev_cc "cc" "four" ctx_pair_A heap0 = Ret (heap0, (Some (TInt, VInt 4), None)) /\
  evalExpr ev_cc "xpath" "four" ctx_pair_A heap0
    = Ret (heap0, (None, Some (ErrString "unknown interpreter: xpath"))).
Proof.
  split; [reflexivity|].
  apply (proj1 (proj2 (evalExpr_dispatch ev_cc rt_fwd val0 theStruct 0 world0
    (mkWorld heap0 1) field_A (mkField "A" "cc:something" TInt) cc eq_refl eq_refl eq_refl))).
  reflexivity.
Defined.

(** ** Data that holds itself *)

Lemma rangeTags_none (interps : Interpreters) entries :
  (forall k t, (k, t) ∈ entries -> interps !! k = None) -> rangeTags interps entries = None.
Proof.
  induction entries as [|[k t] rest IH]; intros Hn; simpl; [done|].
  rewrite (Hn k t) by left. apply IH. intros k' t' Hin. apply (Hn k' t'). by right.
Qed.

(** There is no end to the walk of a record that holds itself.
    The first field of the record is an [interface{}] that holds the
    pointer to the record, and nothing is to be evaluated for it: the
    closure of the field goes into what the interface holds, which is
    the record, and so on. Whatever the bound on the depth, the run
    ends by it; the source has no bound, and no check. *)
Theorem eval_knot fuel ev rt s extra substruct subctx w n fname tag rest l vs tags0 :
  let t := TStruct n (MkStructField fname "" tag TInterface :: rest) in
  let self : iface := Some (TPtr t, VPtr (Some (l, []))) in
  current s substruct = self ->
  scanner.Tags (scanner ev) tag = (tags0, None) ->
  (forall k, is_Some (tags0 !! k) -> interpreters ev !! k = None) ->
  interpreters ev !! WholeTag = None ->
  EvalEmptyTags (options ev) = false ->
  mem w !! l = Some (VStruct (VIface self :: vs)) ->
  outcome_of (eval fuel ev rt s extra substruct subctx w) = OutOfFuel.
Proof.
  intros t self Hcurr Hsc Hnone Hwhole Hopt Hl.
  revert s substruct subctx w Hcurr Hl.
  induction fuel as [|k IH]; intros s substruct subctx w Hcurr Hl; [done|].
  set (val := reflect.MkValue t (reflect.Stored (l, [])) false).
  assert (structIntrospect rt (mem w) (current s substruct) = Ret (val, t, None)) as Hs.
  { rewrite Hcurr. unfold structIntrospect. simpl. done. }
  rewrite (eval_fields ev rt k s extra substruct subctx w val t (S (length rest)) Hs eq_refl).
  rewrite Hcurr. cbn [seq evalFields].
  set (v := reflect.MkValue TInterface (reflect.Stored (l, [0%nat])) false).
  set (w1 := mkWorld (mem w) (S (ticks w))).
  assert (exists st, fieldIntrospect ev rt val t 0 w
            = (w1, Ret (mkFieldDescr fname "" None v TInterface tags0 st, None))) as [st Hfi].
  { unfold fieldIntrospect. simpl. rewrite Hsc. simpl.
    rewrite rangeTags_none, Hwhole; [by eauto|].
    intros k0 t0 Hin. apply Hnone. apply range_order_elem in Hin. by eauto. }
  rewrite (evalField_skipped _ _ _ _ _ _ _ _ _ _ _ _ _ Hfi eq_refl Hopt).
  unfold descend. cbn [value]. unfold v at 1 2. cbn [reflect.Kind kind_of].
  rewrite decide_True by done.
  assert (reflect.Elem (mem w1) v
            = Ret (reflect.MkValue (TPtr t) (reflect.Temp (VPtr (Some (l, [])))) false)) as ->.
  { unfold v, reflect.Elem, reflect.read, load. simpl. by rewrite Hl. }
  simpl. fold self.
  specialize (IH s self None w1 eq_refl Hl). unfold outcome_of in *.
  destruct (eval k ev rt s extra self None w1) as [[w' ns] o]. simpl in IH. by subst o.
Qed.

Lemma eval_knot_witness :
  outcome_of (Eval 1000 ev_cc rt_fwd root_box None (mkWorld heap_box 0)) = OutOfFuel.
Proof.
  apply (eval_knot 1000 ev_cc rt_fwd root_box None None None (mkWorld heap_box 0)
           "structor_test.box" "V" "" [] 0%nat [] ∅); try reflexivity.
  intros k [x Hx]. by rewrite lookup_empty in Hx.
Defined.

(** ** The depth of the walk *)

Lemma Elem_not_OutOfFuel h v : reflect.Elem h v <> OutOfFuel.
Proof. unfold reflect.Elem. unfold_outcome. repeat case_match; done. Qed.

Lemma Indirect_not_OutOfFuel h v : reflect.Indirect h v <> OutOfFuel.
Proof. unfold reflect.Indirect. case_match; [apply Elem_not_OutOfFuel | done]. Qed.

Lemma Interface_not_OutOfFuel h v : reflect.Interface h v <> OutOfFuel.
Proof. unfold reflect.Interface. unfold_outcome. repeat case_match; done. Qed.

Lemma byRef_not_OutOfFuel h v : byRef h v <> OutOfFuel.
Proof.
  unfold byRef. case_match; [|apply Interface_not_OutOfFuel].
  apply bind_not_OutOfFuel; [by destruct v as [|t [r|x] ro]|].
  intros a. apply Interface_not_OutOfFuel.
Qed.

Lemma structIntrospect_not_OutOfFuel rt h s : structIntrospect rt h s <> OutOfFuel.
Proof.
  unfold structIntrospect. apply bind_not_OutOfFuel; [apply Indirect_not_OutOfFuel|].
  intros v. apply bind_not_OutOfFuel; [by destruct v|]. intros t. by case_match.
Qed.

Lemma fieldIntrospect_not_OutOfFuel ev rt val styp i w :
  (fieldIntrospect ev rt val styp i w).2 <> OutOfFuel.
Proof.
  unfold fieldIntrospect.
  assert ((reflect.TypeField styp i ≫= λ f, reflect.Field val i ≫= λ fv,
            reflect.Indirect (mem w) fv ≫= λ v, Ret (f, v)) <> OutOfFuel) as Hn.
  { apply bind_not_OutOfFuel; [unfold reflect.TypeField; by repeat case_match|]. intros f.
    apply bind_not_OutOfFuel;
      [unfold reflect.Field; unfold_outcome; by repeat case_match|]. intros fv.
    apply bind_not_OutOfFuel; [apply Indirect_not_OutOfFuel|]. done. }
  destruct (reflect.TypeField styp i ≫= _) as [[f v]|p| |]; simpl; try done.
  by repeat case_match.
Qed.

Lemma fieldContext_not_OutOfFuel s extra subctx longName f h :
  fieldContext s extra subctx longName f h <> OutOfFuel.
Proof.
  unfold fieldContext. apply bind_not_OutOfFuel; [|done].
  case_match; [apply Interface_not_OutOfFuel | done].
Qed.

Lemma reflectSet_not_OutOfFuel h v vt nv : reflectSet h v vt nv <> OutOfFuel.
Proof. destruct (reflectSet_no_panic h v vt nv) as [[h' ->]|[[e ->]| ->]]; done. Qed.

(** The record [structIntrospect] finds in an interface value has the
    type of the value, or the type its pointer type points to. *)
Lemma structIntrospect_type rt h t x val styp err :
  structIntrospect rt h (Some (t, x)) = Ret (val, styp, err) ->
  reflect.TypeOf val = Ret styp /\ (styp = t \/ t = TPtr styp).
Proof.
  unfold structIntrospect, reflect.ValueOf.
  destruct (reflect.Indirect h _) as [v| | |] eqn:Hv; simpl; try done.
  destruct (reflect.TypeOf v) as [t'| | |] eqn:Ht; simpl; try done.
  intros Hr. assert (val = v /\ styp = t') as [-> ->] by (case_match; by simplify_eq).
  split; [done|].
  apply Indirect_handle in Hv as [[_ ->]|(e & -> & [->|[r ->]])]; simpl in Ht;
    simplify_eq; by eauto.
Qed.

Lemma fields_nesting (fs : list (StructField rtype)) i sf :
  fs !! i = Some sf ->
  (nesting (Type_ sf) <= list_max (map (fun f => nesting (Type_ f)) fs))%nat /\
  (forallb (fun f => interface_free (Type_ f)) fs = true -> interface_free (Type_ sf) = true).
Proof.
  revert i. induction fs as [|f fs IH]; intros [|i]; simpl; try done.
  - intros [= ->]. split; [lia|]. by intros [? ?]%andb_true_iff.
  - intros H. destruct (IH i H). split; [lia|]. intros [? ?]%andb_true_iff. by auto.
Qed.

Lemma TypeField_nesting styp i sf :
  reflect.TypeField styp i = Ret sf ->
  (nesting (Type_ sf) < nesting styp)%nat /\
  (interface_free styp = true -> interface_free (Type_ sf) = true).
Proof.
  destruct styp; simpl; try done.
  destruct (fields !! i) as [f|] eqn:Hf; [|done]. intros [= ->].
  destruct (fields_nesting _ _ _ Hf). split; [lia | done].
Qed.

(** The value of a field of a record of type [styp] is nested less
    deep than [styp], and free of interfaces if [styp] is. *)
Lemma fieldIntrospect_nesting ev rt val styp i w w1 f err :
  reflect.TypeOf val = Ret styp ->
  fieldIntrospect ev rt val styp i w = (w1, Ret (f, err)) ->
  value f = reflect.ZeroValue \/
  exists t p ro, value f = reflect.MkValue t p ro /\ (nesting t < nesting styp)%nat /\
    (interface_free styp = true -> interface_free t = true).
Proof.
  intros Hval Hfi.
  destruct (fieldIntrospect_inv _ _ _ _ _ _ _ _ _ Hfi) as (sf & fv & Hsf & Hfv & Hind & _).
  destruct (Field_handle _ _ _ _ _ Hval Hsf Hfv) as (p & ro & -> & _).
  destruct (TypeField_nesting _ _ _ Hsf) as [Hn Hi].
  apply Indirect_handle in Hind as [[_ ->]|(e & He & [->|[r ->]])].
  - right. by eauto 10.
  - by left.
  - right. rewrite He in Hn, Hi. by eauto 10.
Qed.

Lemma byRef_type h t p ro sub :
  byRef h (reflect.MkValue t p ro) = Ret sub -> t <> TInterface ->
  exists x, sub = Some (TPtr t, x) \/ sub = Some (t, x).
Proof.
  unfold byRef. destruct p as [r|y]; simpl.
  - destruct ro; [done|]. intros [= <-] _. by eauto.
  - destruct ro; [done|]. destruct t; intros; simplify_eq; by eauto.
Qed.

Lemma descend_not_OutOfFuel (rec : eval_fn) s extra f result call w bound :
  (value f = reflect.ZeroValue \/
   exists t p ro, value f = reflect.MkValue t p ro /\ (nesting t < bound)%nat /\
     interface_free t = true) ->
  (forall t x res w0, interface_free t = true -> (nesting t < bound)%nat ->
     outcome_of (rec s extra (Some (t, x)) res w0) <> OutOfFuel) ->
  outcome_of (descend rec s extra f result call w) <> OutOfFuel.
Proof.
  intros Hv Hrec. unfold descend.
  destruct Hv as [->|(t & p & ro & -> & Hn & Hi)]; [done|].
  assert (t <> TInterface) as Hni by (by intros ->).
  cbn [reflect.Kind]. rewrite decide_False by (by destruct t).
  destruct (decide (kind_of t = Struct)); [|done].
  destruct (byRef (mem w) _) as [sub|q| |] eqn:Hb; try done.
  - apply byRef_type in Hb as [x [->| ->]]; [| |done].
    + specialize (Hrec (TPtr t) x result w Hi Hn). unfold outcome_of in *.
      by destruct (rec _ _ _ _ _) as [[w' ns] o].
    + specialize (Hrec t x result w Hi Hn). unfold outcome_of in *.
      by destruct (rec _ _ _ _ _) as [[w' ns] o].
  - by apply byRef_not_OutOfFuel in Hb.
Qed.

Lemma evalField_not_OutOfFuel rec ev rt s extra curr subctx val styp i w :
  reflect.TypeOf val = Ret styp -> interface_free styp = true ->
  (forall t x res w0, interface_free t = true -> (nesting t < nesting styp)%nat ->
     outcome_of (rec s extra (Some (t, x)) res w0) <> OutOfFuel) ->
  outcome_of (evalField rec ev rt s extra curr subctx val styp i w) <> OutOfFuel.
Proof.
  intros Hval Hfree Hrec. unfold evalField.
  pose proof (fieldIntrospect_not_OutOfFuel ev rt val styp i w) as Hn.
  destruct (fieldIntrospect ev rt val styp i w) as [w1 [[f [e|]]|p| |]] eqn:Hfi;
    try done.
  assert (forall result call w0,
    outcome_of (descend rec s extra f result call w0) <> OutOfFuel) as Hd.
  { intros. eapply descend_not_OutOfFuel; [|exact Hrec].
    destruct (fieldIntrospect_nesting _ _ _ _ _ _ _ _ _ Hval Hfi)
      as [?|(t & p & ro & ? & ? & ?)]; [by left|]. right. by eauto 10. }
  destruct (negb (bool_decide (expr f = "")) || EvalEmptyTags (options ev)); [|apply Hd].
  pose proof (fieldContext_not_OutOfFuel s extra subctx (long_name curr (name f)) f (mem w1)).
  destruct (fieldContext _ _ _ _ _ _) as [ctx|p| |]; try done.
  destruct (interpreter f) as [intr|]; [|done].
  destruct (el.Execute intr (expr f) ctx (mem w1)) as [h2 [result [e|]]]; [done|].
  destruct (negb (NonMutating (options ev)) && settable f); [|apply Hd].
  pose proof (reflectSet_not_OutOfFuel h2 (value f) (typ f) result). simpl.
  destruct (reflectSet _ _ _ _) as [[h3 [e|]]|p| |]; try done.
Qed.

Lemma evalFields_not_OutOfFuel field indices merr w :
  (forall i w, outcome_of (field i w) <> OutOfFuel) ->
  outcome_of (evalFields field indices merr w) <> OutOfFuel.
Proof.
  intros Hf. revert merr w. induction indices as [|i rest IH]; intros merr w; simpl; [done|].
  specialize (Hf i w). destruct (field i w) as [[w1 n] o]. unfold outcome_of in *.
  destruct o as [err|p| |]; try done.
  specialize (IH (match err with Some e => Some (multierror.Append merr e) | None => merr end) w1).
  by destruct (evalFields field rest _ w1) as [[w2 ns] o2].
Qed.

Lemma eval_bounded fuel ev rt s extra substruct subctx w t x :
  current s substruct = Some (t, x) -> interface_free t = true -> (nesting t < fuel)%nat ->
  outcome_of (eval fuel ev rt s extra substruct subctx w) <> OutOfFuel.
Proof.
  revert s substruct subctx w t x.
  induction fuel as [|k IH]; intros s substruct subctx w t x Hcurr Hfree Hn; [lia|].
  change (eval (S k) ev rt s extra substruct subctx w)
    with (eval_body (eval k ev rt) ev rt s extra substruct subctx w).
  unfold eval_body. rewrite Hcurr.
  pose proof (structIntrospect_not_OutOfFuel rt (mem w) (Some (t, x))) as Hs.
  destruct (structIntrospect rt (mem w) (Some (t, x))) as [[[val styp] [e|]]|p| |] eqn:Hsi;
    try done.
  destruct (structIntrospect_type _ _ _ _ _ _ _ Hsi) as [Hval Hty].
  assert (nesting styp = nesting t /\ interface_free styp = true) as [Hns Hfs].
  { destruct Hty as [->| ->]; done. }
  destruct (reflect.NumField styp) as [l|p| |] eqn:Hl; try done.
  - apply evalFields_not_OutOfFuel. intros i w'.
    apply evalField_not_OutOfFuel; [done..|].
    intros t' x' res w0 Hi' Hn'. eapply IH; [done|done|lia].
  - by destruct styp.
Qed.

(** The walk of a record whose type has no [interface{}] in it
    ends, and goes no deeper than records are nested in the type: with
    any bound on the depth above that nesting the run ends otherwise
    than by the bound, and the same for all of them. *)
Theorem eval_terminates ev rt s extra substruct subctx w t x :
  current s substruct = Some (t, x) -> interface_free t = true ->
  exists r, outcome_of r <> OutOfFuel /\
    forall fuel, (nesting t < fuel)%nat -> eval fuel ev rt s extra substruct subctx w = r.
Proof.
  intros Hcurr Hfree.
  exists (eval (S (nesting t)) ev rt s extra substruct subctx w).
  assert (outcome_of (eval (S (nesting t)) ev rt s extra substruct subctx w) <> OutOfFuel)
    as Hne by (eapply eval_bounded; [done|done|lia]).
  split; [done|]. intros fuel Hlt.
  replace fuel with (S (nesting t) + (fuel - S (nesting t)))%nat by lia.
  induction (fuel - S (nesting t))%nat as [|k IH]; [by rewrite Nat.add_0_r|].
  rewrite Nat.add_succ_r. apply eval_S_refines; [exact IH | exact Hne].
Qed.

Lemma eval_terminates_witness :
  exists r, outcome_of r <> OutOfFuel /\
    forall fuel, (nesting (TPtr outer) < fuel)%nat ->
      eval fuel ev_cc rt_fwd root_outer None None None (mkWorld heap_outer 0) = r.
Proof.
  apply (eval_terminates ev_cc rt_fwd root_outer None None None (mkWorld heap_outer 0)
           (TPtr outer) (VPtr (Some (0%nat, []))) eq_refl eq_refl).
Defined.

(** ** Records passed by value *)

Lemma fields_pointer_free (fs : list (StructField rtype)) i sf :
  fs !! i = Some sf ->
  forallb (fun f => pointer_free (Type_ f)) fs = true -> pointer_free (Type_ sf) = true.
Proof.
  revert i. induction fs as [|f fs IH]; intros [|i]; simpl; try done.
  - intros [= ->]. by intros [? ?]%andb_true_iff.
  - intros H [? ?]%andb_true_iff. by eauto.
Qed.

Lemma structIntrospect_by_value rt h t x val styp err :
  pointer_free t = true ->
  structIntrospect rt h (Some (t, x)) = Ret (val, styp, err) ->
  val = reflect.MkValue t (reflect.Temp x) false /\ styp = t.
Proof.
  intros Hpf. unfold structIntrospect, reflect.ValueOf, reflect.Indirect.
  rewrite decide_False by (by destruct t). simpl.
  case_match; intros; by simplify_eq.
Qed.

(** A field of a record held by value, of a type without pointers:
    its value is held by value too, and it is not settable. *)
Lemma fieldIntrospect_by_value ev rt t x i w w1 f err :
  pointer_free t = true ->
  fieldIntrospect ev rt (reflect.MkValue t (reflect.Temp x) false) t i w = (w1, Ret (f, err)) ->
  settable f = false /\
  exists t' x' ro, value f = reflect.MkValue t' (reflect.Temp x') ro /\ pointer_free t' = true.
Proof.
  intros Hpf Hfi.
  destruct (fieldIntrospect_inv _ _ _ _ _ _ _ _ _ Hfi)
    as (sf & fv & Hsf & Hfv & Hind & _ & _ & _ & _ & Hset).
  destruct (Field_handle (reflect.MkValue t (reflect.Temp x) false) t _ _ _ eq_refl Hsf Hfv)
    as (p & ro & -> & _ & Htemp).
  destruct (Htemp eq_refl) as [x' ->].
  assert (pointer_free (Type_ sf) = true) as Hpf'.
  { destruct t; simpl in Hsf; try done. destruct (fields !! i) eqn:Hf; [|done].
    injection Hsf as ->. by eapply fields_pointer_free. }
  apply Indirect_handle in Hind as [[_ Hv]|(e & He & _)]; [|by rewrite He in Hpf'].
  rewrite Hv in Hset. split; [by destruct err|]. by eauto 10.
Qed.

Lemma descend_by_value (rec1 rec2 : eval_fn) s extra f result call w t x ro :
  value f = reflect.MkValue t (reflect.Temp x) ro -> pointer_free t = true ->
  (forall t' x' res w0, pointer_free t' = true ->
     rec1 s extra (Some (t', x')) res w0 = rec2 s extra (Some (t', x')) res w0) ->
  descend rec1 s extra f result call w = descend rec2 s extra f result call w.
Proof.
  intros Hv Hpf Hrec. unfold descend. rewrite Hv. cbn [reflect.Kind].
  rewrite decide_False by (by destruct t).
  destruct (decide (kind_of t = Struct)); [|done].
  unfold byRef. cbn [reflect.CanAddr reflect.Interface reflect.read].
  destruct ro; [done|]. cbn [of_option mbind outcome_bind obind].
  destruct t; try done. by rewrite Hrec.
Qed.

Lemma evalField_by_value rec1 rec2 ev rt s extra curr subctx t x i w :
  pointer_free t = true ->
  (forall t' x' res w0, pointer_free t' = true ->
     rec1 s extra (Some (t', x')) res w0 = rec2 s extra (Some (t', x')) res w0) ->
  evalField rec1 ev rt s extra curr subctx (reflect.MkValue t (reflect.Temp x) false) t i w
    = evalField rec2 (nonmutating ev) rt s extra curr subctx
        (reflect.MkValue t (reflect.Temp x) false) t i w.
Proof.
  intros Hpf Hrec. unfold evalField.
  change (fieldIntrospect (nonmutating ev) rt (reflect.MkValue t (reflect.Temp x) false) t i w)
    with (fieldIntrospect ev rt (reflect.MkValue t (reflect.Temp x) false) t i w).
  destruct (fieldIntrospect ev rt _ t i w) as [w1 [[f [e|]]|p| |]] eqn:Hfi; try done.
  destruct (fieldIntrospect_by_value _ _ _ _ _ _ _ _ _ Hpf Hfi)
    as (Hset & t' & x' & ro & Hv & Hpf').
  cbn [nonmutating options EvalEmptyTags NonMutating].
  destruct (negb (bool_decide (expr f = "")) || EvalEmptyTags (options ev)).
  2: { by eapply descend_by_value. }
  destruct (fieldContext _ _ _ _ _ _) as [ctx|p| |]; try done.
  destruct (interpreter f) as [intr|]; try done.
  destruct (el.Execute intr (expr f) ctx (mem w1)) as [h2 [result [e|]]]; [done|].
  rewrite Hset, andb_false_r. cbn [negb andb]. by eapply descend_by_value.
Qed.

Lemma eval_by_value_nonmutating fuel ev rt s extra substruct subctx w t x :
  current s substruct = Some (t, x) -> pointer_free t = true ->
  eval fuel ev rt s extra substruct subctx w
    = eval fuel (nonmutating ev) rt s extra substruct subctx w.
Proof.
  revert s substruct subctx w t x.
  induction fuel as [|k IH]; intros s substruct subctx w t x Hcurr Hpf; [done|].
  change (eval (S k) ev rt s extra substruct subctx w)
    with (eval_body (eval k ev rt) ev rt s extra substruct subctx w).
  change (eval (S k) (nonmutating ev) rt s extra substruct subctx w)
    with (eval_body (eval k (nonmutating ev) rt) (nonmutating ev) rt s extra substruct subctx w).
  unfold eval_body. rewrite Hcurr.
  destruct (structIntrospect rt (mem w) (Some (t, x))) as [[[val styp] [e|]]|p| |] eqn:Hs;
    try done.
  destruct (structIntrospect_by_value _ _ _ _ _ _ _ Hpf Hs) as [-> ->].
  destruct (reflect.NumField t) as [l|p| |]; try done.
  apply evalFields_ext. intros i w0. apply evalField_by_value; [done|].
  intros t' x' res w1 Hpf'. by eapply IH.
Qed.

(** A record passed by value, of a type that holds its records by
    value, is never changed: no field of it is settable, at any depth,
    so that an evaluator walks it as the evaluator with the
    [NonMutating] option does. The interpreters are run, their results
    are handed down, and nothing is assigned: the store is what the
    interpreters made of it, and untouched if they leave it alone. No
    error says so. *)
Theorem eval_by_value fuel ev rt s extra substruct subctx w t x :
  current s substruct = Some (t, x) -> pointer_free t = true ->
  let r := eval fuel ev rt s extra substruct subctx w in
  r = eval fuel (nonmutating ev) rt s extra substruct subctx w /\
  mem (final_world r) = replay_all (nodes_of r) (mem w) /\
  (pure_interpreters ev -> mem (final_world r) = mem w).
Proof.
  intros Hcurr Hpf r. subst r.
  rewrite (eval_by_value_nonmutating fuel ev rt s extra substruct subctx w t x Hcurr Hpf).
  split; [done|]. split.
  - by apply eval_replay.
  - intros Hpure. by apply eval_mem_unchanged.
Qed.

Lemma eval_by_value_witness :
  let r := Eval 2 ev_cc rt_fwd (Some (theStruct, VStruct [VInt 0])) None world0 in
  outcome_of r = Ret None /\ length (nodes_of r) = 1%nat /\ mem (final_world r) = heap0.
Proof.
  split; [vm_compute; reflexivity|]. split; [vm_compute; reflexivity|].
  refine (proj2 (proj2 (eval_by_value 2 ev_cc rt_fwd (Some (theStruct, VStruct [VInt 0])) None
    None None world0 theStruct (VStruct [VInt 0]) eq_refl eq_refl)) _).
  intros k intr Hk e ctx h. simpl in Hk.
  apply lookup_singleton_Some in Hk as [_ [= <-]]. reflexivity.
Defined.

(** ** What the interpreter is shown, and what becomes of its result *)

(** The context of a field names the field, and its long name is
    the type of the record at hand, as [%T] prints it, a dot, and the
    name. The [Val] slot holds the value of the field as it is when the
    field is reached, before anything is assigned: for a field declared
    as a pointer that is the value pointed to, not the pointer, and nil
    for a nil pointer; for an interface, what it holds. *)
Theorem fieldContext_value ev rt s extra curr subctx val styp i w w1 f sf ctx :
  reflect.TypeOf val = Ret styp ->
  reflect.TypeField styp i = Ret sf ->
  fieldIntrospect ev rt val styp i w = (w1, Ret (f, None)) ->
  fieldContext s extra subctx (long_name curr (name f)) f (mem w1) = Ret ctx ->
  el.Name ctx = Name sf /\
  el.LongName ctx = (fmt_T curr ++ "." ++ Name sf)%string /\
  (reflect.IsValid (value f) = false -> el.Val ctx = None) /\
  (forall t p, value f = reflect.MkValue t p false -> t <> TInterface ->
     exists x, reflect.read (mem w) p = Some x /\ el.Val ctx = Some (t, x)) /\
  (forall p, value f = reflect.MkValue TInterface p false ->
     exists d, reflect.read (mem w) p = Some (VIface d) /\ el.Val ctx = d) /\
  (forall T, Type_ sf = TPtr T -> T <> TInterface ->
     el.Val ctx = None \/ exists x, el.Val ctx = Some (T, x)).
Proof.
  intros Hval Hsf Hfi Hctx.
  destruct (fieldIntrospect_inv _ _ _ _ _ _ _ _ _ Hfi)
    as (sf' & fv & Hsf' & Hfv & Hind & Hname & _ & Hmem & _).
  rewrite Hsf in Hsf'. injection Hsf' as <-.
  assert (exists v,
    (if reflect.IsValid (value f) then reflect.Interface (mem w) (value f) else Ret None)
      = Ret v /\
    ctx = el.mkContext (Name sf) (long_name curr (Name sf)) (tags f) s extra subctx v)
    as (v & Hv & ->).
  { unfold fieldContext in Hctx. rewrite Hmem, Hname in Hctx.
    destruct (if reflect.IsValid (value f) then _ else _) as [v| | |]; simpl in Hctx;
      try done. exists v. by simplify_eq. }
  cbn [el.Name el.LongName el.Val].
  assert (forall t p, value f = reflect.MkValue t p false -> t <> TInterface ->
    exists x, reflect.read (mem w) p = Some x /\ v = Some (t, x)) as Hplain.
  { intros t p Hf Hni. rewrite Hf in Hv. simpl in Hv.
    destruct (reflect.read (mem w) p) as [x|]; simpl in Hv; [|done].
    exists x. split; [done|]. destruct t; simpl in Hv; by simplify_eq. }
  split; [done|]. split; [done|]. split; [|split; [|split]].
  - intros Hinv. rewrite Hinv in Hv. simpl in Hv. by simplify_eq.
  - exact Hplain.
  - intros p Hf. rewrite Hf in Hv. simpl in Hv.
    destruct (reflect.read (mem w) p) as [x|]; simpl in Hv; [|done].
    destruct x; try done. simplify_eq. by eauto.
  - intros T HT Hni.
    destruct (Field_handle _ _ _ _ _ Hval Hsf Hfv) as (p & ro & -> & _).
    rewrite HT in Hind.
    apply Indirect_handle in Hind as [[Hk _]|(e & [= <-] & [Hf|[r Hf]])]; [done| |].
    + left. rewrite Hf in Hv. simpl in Hv. by simplify_eq.
    + right. destruct ro.
      * rewrite Hf in Hv. simpl in Hv. done.
      * destruct (Hplain _ _ Hf Hni) as (x & _ & ?). by eauto.
Qed.

Lemma fieldContext_value_witness :
  exists f ctx,
    fieldIntrospect ev_cc rt_fwd val_holder holder 0 (mkWorld heap_holder 0)
      = (mkWorld heap_holder 1, Ret (f, None)) /\
    fieldContext root_holder None None (long_name root_holder (name f)) f heap_holder
      = Ret ctx /\
    el.Val ctx = Some (TInt, VInt 5) /\
    el.Name ctx = "D" /\ el.LongName ctx = "*structor_test.holder.D".
Proof.
  eexists _, _. split; [vm_compute; reflexivity|]. split; [vm_compute; reflexivity|].
  split; [reflexivity|].
  pose proof (fieldContext_value ev_cc rt_fwd root_holder None root_holder None val_holder
    holder 0 (mkWorld heap_holder 0) (mkWorld heap_holder 1) _ _ _
    eq_refl eq_refl eq_refl eq_refl) as (Hn & Hl & _).
  split; [exact Hn | exact Hl].
Defined.

(** The way through for a field that is neither a record nor an
    interface, and whose value is in the store, can be set and has the
    declared type of the field, as it is for a settable field that is
    not declared as a pointer (for a field declared [*T] the value is of
    type [T], and nothing is assigned): the interpreter returned a
    result without error, the evaluator mutates, and the type of the
    result converts to the declared type. Then the closure returns nil
    and the field holds the result converted, which is the result
    itself when it has the declared type; the node of the field has the
    call, no error and nothing nested. *)
Theorem evalField_assigns rec ev rt s extra curr subctx val styp i w w1 f ctx intr h2 t x vt r :
  reaches_Execute ev rt s extra curr subctx val styp i w w1 f ctx intr ->
  el.Execute intr (expr f) ctx (mem w1) = (h2, (Some (t, x), None)) ->
  NonMutating (options ev) = false ->
  value f = reflect.MkValue vt (reflect.Stored r) false -> typ f = vt ->
  kind_of vt <> Struct -> kind_of vt <> Interface ->
  reflect.ConvertibleTo t vt = true ->
  (t = TInt -> exists n, x = VInt n) ->
  is_Some (load h2 r) ->
  exists h3 y,
    reflect.Convert h2 (reflect.ValueOf (Some (t, x))) vt
      = Ret (reflect.MkValue vt (reflect.Temp y) false) /\
    load h3 r = Some y /\
    (t = vt -> y = x) /\
    evalField rec ev rt s extra curr subctx val styp i w
      = (mkWorld h3 (ticks w1),
         TNode (Some (mkCall intr (expr f) ctx (Some (t, x)) None)) None None, Ret None).
Proof.
  intros Hreach Hex Hnm Hv Htyp Hks Hki Hc Hshape Hl.
  destruct (reflectSet_converts h2 vt r t x Hc Hshape Hl) as (h3 & y & Hconv & Hset & Hload).
  exists h3, y. split; [done|]. split; [done|]. split.
  - intros ->. unfold reflect.Convert, reflect.ValueOf in Hconv. rewrite Hc in Hconv.
    simpl in Hconv. destruct vt; by simplify_eq.
  - rewrite (evalField_executed rec _ _ _ _ _ _ _ _ _ _ _ _ _ _ Hreach). rewrite Hex.
    assert (settable f = true) as ->.
    { destruct Hreach as (Hfi & _).
      destruct (fieldIntrospect_inv _ _ _ _ _ _ _ _ _ Hfi)
        as (sf & fv & _ & _ & _ & _ & _ & _ & _ & ->). by rewrite Hv. }
    rewrite Hnm. cbn [negb andb mem]. rewrite Hv, Htyp, Hset.
    unfold descend. rewrite Hv. cbn [reflect.Kind ticks].
    rewrite decide_False by done. by rewrite decide_False.
Qed.

Lemma evalField_assigns_witness :
  exists h3,
    load h3 (0%nat, [0%nat]) = Some (VInt 9) /\
    evalField (eval 1 ev_cc rt_fwd) ev_cc rt_fwd root0 None root0 None val0 theStruct 0 world0
      = (mkWorld h3 1,
         TNode (Some (mkCall cc "something"
                  (el.mkContext "A" "*structor_test.theStruct.A" ∅ root0 None None
                     (Some (TInt, VInt 0)))
                  (Some (TInt, VInt 9)) None)) None None,
         Ret None).
Proof.
  assert (reaches_Execute ev_cc rt_fwd root0 None root0 None val0 theStruct 0 world0
            (mkWorld heap0 1) field_A
            (el.mkContext "A" "*structor_test.theStruct.A" ∅ root0 None None
               (Some (TInt, VInt 0))) cc) as Hreach.
  { repeat split; try reflexivity. left. discriminate. }
  destruct (evalField_assigns (eval 1 ev_cc rt_fwd) ev_cc rt_fwd root0 None root0 None val0
    theStruct 0 world0 (mkWorld heap0 1) field_A _ cc heap0 TInt (VInt 9) TInt
    (0%nat, [0%nat]) Hreach eq_refl eq_refl eq_refl eq_refl
    ltac:(discriminate) ltac:(discriminate) eq_refl
    (fun _ => ex_intro _ 9%Z eq_refl) (ex_intro _ (VInt 0) eq_refl))
    as (h3 & y & _ & Hload & Hy & Hstep).
  exists h3. rewrite (Hy eq_refl) in Hload. done.
Defined.

(** ** What a walk leaves in a record of plain fields *)

Lemma value_upd_sibling v p i j x v' :
  value_upd v (p ++ [i]) x = Some v' -> i <> j ->
  value_at v' (p ++ [j]) = value_at v (p ++ [j]).
Proof.
  revert v v'. induction p as [|k p IH]; intros v v'; simpl.
  - destruct v; try done. destruct (fields !! i) as [f|] eqn:Hf; simpl; [|done].
    intros [= <-] Hij. simpl. by rewrite list_lookup_insert_ne.
  - destruct v; try done. destruct (fields !! k) as [f|] eqn:Hf; simpl; [|done].
    destruct (value_upd f (p ++ [i]) x) as [f'|] eqn:Hf'; simpl; [|done].
    intros [= <-] Hij. simpl.
    rewrite list_lookup_insert_eq by (by eapply lookup_lt_Some). simpl. by eapply IH.
Qed.

Lemma store_sibling h l p i j x h' :
  store h (l, p ++ [i]) x = Some h' -> i <> j ->
  load h' (l, p ++ [j]) = load h (l, p ++ [j]).
Proof.
  unfold load, store. simpl. destruct (h !! l) as [v|]; simpl; [|done].
  destruct (value_upd v (p ++ [i]) x) as [v'|] eqn:Hv'; simpl; [|done].
  intros [= <-] Hij. rewrite lookup_insert_eq. simpl. by eapply value_upd_sibling.
Qed.

(** A conversion of an interpreter's result gives a value of the
    declared type, whatever the store. *)
Lemma Convert_result h t x vt xv :
  reflect.Convert h (reflect.MkValue t (reflect.Temp x) false) vt = Ret xv ->
  exists y, xv = reflect.MkValue vt (reflect.Temp y) false /\
    (forall h', reflect.Convert h' (reflect.MkValue t (reflect.Temp x) false) vt = Ret xv) /\
    (t = vt -> vt <> TInterface -> y = x).
Proof.
  unfold reflect.Convert. destruct (negb (reflect.ConvertibleTo t vt)); [done|]. simpl.
  intros H. assert (exists y, xv = reflect.MkValue vt (reflect.Temp y) false
                      /\ (t = vt -> vt <> TInterface -> y = x)) as (y & -> & Hy).
  { repeat case_match; simplify_eq; eexists; (split; [done|]); intros; by simplify_eq. }
  by eauto.
Qed.

Lemma evalFields_frame (path : nat -> ref) field indices merr w w' ns merr' j :
  (forall i w w1 nd e, field i w = (w1, nd, Ret e) -> i <> j ->
     load (mem w1) (path j) = load (mem w) (path j)) ->
  evalFields field indices merr w = (w', ns, Ret merr') -> j ∉ indices ->
  load (mem w') (path j) = load (mem w) (path j).
Proof.
  intros Hstep. revert merr w ns. induction indices as [|i rest IH]; intros merr w ns; simpl.
  - by intros [= <- <- <-].
  - destruct (field i w) as [[w1 n] o] eqn:Hf. destruct o as [err| | |]; try done.
    destruct (evalFields field rest _ w1) as [[w2 ns2] o2] eqn:Hrest.
    intros [= <- <- ->] Hj. apply not_elem_of_cons in Hj as [Hne Hj].
    rewrite (IH _ _ _ Hrest Hj). eapply Hstep; [exact Hf | done].
Qed.

Lemma evalFields_post (Q : nat -> tnode -> option gval -> option gval -> Prop)
    (path : nat -> ref) field a len merr w w' ns merr' :
  (forall i w w1 nd e, field i w = (w1, nd, Ret e) ->
     (forall j, i <> j -> load (mem w1) (path j) = load (mem w) (path j)) /\
     (node_err nd = None -> Q i nd (load (mem w) (path i)) (load (mem w1) (path i)))) ->
  evalFields field (seq a len) merr w = (w', ns, Ret merr') ->
  forall k nd, ns !! k = Some nd -> node_err nd = None ->
    Q (a + k)%nat nd (load (mem w) (path (a + k)%nat)) (load (mem w') (path (a + k)%nat)).
Proof.
  intros Hstep. revert a merr w ns. induction len as [|len IH]; intros a merr w ns; simpl.
  - by intros [= <- <- <-] k nd.
  - destruct (field a w) as [[w1 n] o] eqn:Hf. destruct o as [err| | |]; try done.
    destruct (evalFields field (seq (S a) len) _ w1) as [[w2 ns2] o2] eqn:Hrest.
    intros [= <- <- ->] k nd Hk Herr.
    destruct (Hstep _ _ _ _ _ Hf) as [Hframe Hpost].
    destruct k as [|k]; simpl in Hk.
    + injection Hk as ->. rewrite Nat.add_0_r.
      assert (load (mem w2) (path a) = load (mem w1) (path a)) as ->; [|by apply Hpost].
      eapply (evalFields_frame path field); [|exact Hrest|rewrite elem_of_seq; lia].
      intros i w0 w3 nd0 e Hi Hne. destruct (Hstep _ _ _ _ _ Hi) as [Hfr _]. by apply Hfr.
    + replace (a + S k)%nat with (S a + k)%nat by lia.
      rewrite <- (Hframe (S a + k)%nat) by lia. by eapply IH.
Qed.

(** The closure of a field of a record in the store, all of whose
    fields are plain, with interpreters that leave the store alone:
    it writes to no other field, and leaves in its own what
    [field_post] says. *)
Lemma evalField_plain rec ev rt s extra curr subctx n fs r i w w1 nd e :
  Forall (fun f => plain (Type_ f) = true) fs ->
  NonMutating (options ev) = false -> pure_interpreters ev ->
  evalField rec ev rt s extra curr subctx
    (reflect.MkValue (TStruct n fs) (reflect.Stored r) false) (TStruct n fs) i w
    = (w1, nd, Ret e) ->
  (forall j, i <> j -> load (mem w1) (r.1, r.2 ++ [j]) = load (mem w) (r.1, r.2 ++ [j])) /\
  (node_err nd = None ->
     node_nested nd = None /\
     field_post fs i nd (load (mem w) (r.1, r.2 ++ [i])) (load (mem w1) (r.1, r.2 ++ [i]))).
Proof.
  intros Hplain Hnm Hpure. unfold evalField.
  pose proof (fieldIntrospect_mem ev rt
    (reflect.MkValue (TStruct n fs) (reflect.Stored r) false) (TStruct n fs) i w) as Hm.
  destruct (fieldIntrospect ev rt _ (TStruct n fs) i w) as [w0 [[f [e0|]]|p| |]] eqn:Hfi;
    simpl in Hm; try done.
  { intros [= <- <- <-]. by rewrite Hm. }
  destruct (fieldIntrospect_inv _ _ _ _ _ _ _ _ _ Hfi)
    as (sf & fv & Hsf & Hfv & Hind & _ & Htyp & Hmem & _ & Hset).
  simpl in Hsf, Hfv. destruct (fs !! i) as [sf'|] eqn:Hlook; [|done].
  injection Hsf as ->. injection Hfv as <-.
  assert (plain (Type_ sf) = true) as Hp.
  { eapply (proj1 (Forall_lookup _ _) Hplain); exact Hlook. }
  assert (value f = reflect.MkValue (Type_ sf) (reflect.Stored (r.1, r.2 ++ [i]))
                      (negb (exported sf))) as Hv.
  { unfold reflect.Indirect in Hind. rewrite decide_False in Hind; [by simplify_eq|].
    simpl. by destruct (Type_ sf). }
  clear Hind.
  assert (forall result call w2, descend rec s extra f result call w2
            = (w2, TNode call None None, Ret None)) as Hd.
  { intros. unfold descend. rewrite Hv. cbn [reflect.Kind].
    rewrite decide_False by (by destruct (Type_ sf)).
    by rewrite decide_False by (by destruct (Type_ sf)). }
  destruct (negb (bool_decide (expr f = "")) || EvalEmptyTags (options ev)).
  2: { rewrite Hd. intros [= <- <- <-]. rewrite Hmem. split; [done|]. intros _.
       split; [done|]. exists sf. by split. }
  destruct (fieldContext _ _ _ _ _ _) as [ctx|p| |] eqn:Hctx; try done.
  destruct (interpreter f) as [intr|] eqn:Hi; try done.
  destruct (fieldIntrospect_interpreter _ _ _ _ _ _ _ _ _ _ Hfi Hi) as [k Hk].
  pose proof (Hpure k intr Hk (expr f) ctx (mem w0)) as Hh.
  destruct (el.Execute intr (expr f) ctx (mem w0)) as [h2 [result [e1|]]]; simpl in Hh;
    subst h2.
  { intros [= <- <- <-]. simpl. by rewrite Hmem. }
  rewrite Hnm. cbn [negb andb mem ticks].
  assert (exported sf = true) as Hexp.
  { destruct (exported sf) eqn:Hx; [done|].
    unfold fieldContext in Hctx. rewrite Hv in Hctx. done. }
  rewrite Hexp in Hv. cbn [negb] in Hv.
  rewrite Hset, Hv. cbn [reflect.CanSet negb orb]. rewrite <- Hv.
  destruct (reflectSet (mem w0) (value f) (typ f) result) as [[h3 [e1|]]|p| |] eqn:Hrs;
    try done.
  { intros [= <- <- <-]. simpl.
    destruct (reflectSet_no_panic (mem w0) (value f) (typ f) result)
      as [[h' Hr]|[[e' Hr]|Hr]]; rewrite Hr in Hrs; simplify_eq. by rewrite Hmem. }
  rewrite Hd. intros [= <- <- <-]. cbn [mem node_err node_call]. rewrite <- Hmem.
  rewrite Hv, Htyp in Hrs.
  assert (exists y, store (mem w0) (r.1, r.2 ++ [i]) y = Some h3 /\
    match result with
    | None => y = zero_value (Type_ sf)
    | Some (t, x) =>
        (forall h, reflect.Convert h (reflect.ValueOf (Some (t, x))) (Type_ sf)
           = Ret (reflect.MkValue (Type_ sf) (reflect.Temp y) false)) /\
        (t = Type_ sf -> y = x)
    end) as (y & Hstore & Hy).
  { unfold reflectSet in Hrs.
    destruct (reflectSet_body _ _ _ _) as [h'|[m|e']| |] eqn:Hb; simpl in Hrs; simplify_eq.
    unfold reflectSet_body in Hb. destruct result as [[t x]|].
    - cbn [reflect.ValueOf reflect.TypeOf reflect.Kind mbind outcome_bind obind] in Hb.
      rewrite bool_decide_eq_false_2 in Hb by (by destruct (Type_ sf)).
      rewrite andb_false_r in Hb.
      destruct (reflect.Convert (mem w0) _ (Type_ sf)) as [xv| | |] eqn:Hc; try done.
      destruct (Convert_result _ _ _ _ _ Hc) as (y & -> & Hany & Hsame).
      cbn [mbind outcome_bind obind reflect.Set_] in Hb.
      rewrite decide_True in Hb by done.
      cbn [reflect.read of_option mbind outcome_bind obind] in Hb.
      destruct (store (mem w0) (r.1, r.2 ++ [i]) y) as [h'|] eqn:Hst; simpl in Hb;
        simplify_eq.
      exists y. split; [done|]. split; [done|]. intros Ht. apply Hsame; [done|].
      by destruct (Type_ sf).
    - cbn [reflect.IsValid reflect.Zero reflect.Set_] in Hb.
      rewrite decide_True in Hb by done.
      cbn [reflect.read of_option mbind outcome_bind obind] in Hb.
      destruct (store (mem w0) (r.1, r.2 ++ [i]) (zero_value (Type_ sf))) as [h'|] eqn:Hst;
        simpl in Hb; simplify_eq. by eauto. }
  split.
  - intros j Hij. by eapply store_sibling.
  - intros _. split; [done|]. exists sf. split; [done|]. cbn [node_call c_result].
    rewrite (store_load _ _ _ _ Hstore).
    destruct result as [[t x]|]; [|by subst]. destruct Hy. by eauto.
Qed.

(** The result of a walk without error of a record in the store
    whose fields are all plain, by an evaluator that mutates, with
    interpreters that leave the store alone: every field has been
    visited, in order, and each holds what [field_post] says of its
    node: the result of its interpreter converted to its type, the zero
    value where the interpreter returned nil, and what it held where
    no interpreter was run. *)
Theorem Eval_assigns_results fuel ev rt extra w n fs r w' ns :
  Forall (fun f => plain (Type_ f) = true) fs ->
  NonMutating (options ev) = false -> pure_interpreters ev ->
  Eval (S fuel) ev rt (Some (TPtr (TStruct n fs), VPtr (Some r))) extra w
    = (w', ns, Ret None) ->
  length ns = length fs /\
  forall i nd, ns !! i = Some nd ->
    node_err nd = None /\ node_nested nd = None /\
    field_post fs i nd (load (mem w) (r.1, r.2 ++ [i])) (load (mem w') (r.1, r.2 ++ [i])).
Proof.
  intros Hplain Hnm Hpure. unfold Eval.
  set (s := Some (TPtr (TStruct n fs), VPtr (Some r))).
  set (val := reflect.MkValue (TStruct n fs) (reflect.Stored r) false).
  rewrite (eval_fields ev rt fuel s extra None None w val (TStruct n fs) (length fs)
             eq_refl eq_refl).
  intros Hev.
  pose proof (evalFields_length _ _ _ _ _ _ _ Hev) as Hlen. rewrite length_seq in Hlen.
  destruct (evalFields_aggregate _ _ _ _ _ _ _
              (evalField_node_err (eval fuel ev rt) ev rt s extra _ None val (TStruct n fs)) Hev)
    as [_ Hnil].
  destruct (proj1 Hnil eq_refl) as [_ Hall].
  split; [done|]. intros i nd Hi.
  assert (node_err nd = None) as Herr.
  { eapply (proj1 (Forall_lookup _ _) Hall); exact Hi. }
  split; [done|].
  refine (evalFields_post
            (fun j nd0 b a => node_nested nd0 = None /\ field_post fs j nd0 b a)
            (fun j => (r.1, r.2 ++ [j])) _ 0 (length fs) None w w' ns None _ Hev i nd Hi Herr).
  intros j w0 w1 nd0 e Hstep. by eapply evalField_plain.
Qed.


Lemma Eval_assigns_results_witness :
  exists w' ns,
    Eval 2 ev_cc rt_fwd root_twin None (mkWorld heap_pair 0) = (w', ns, Ret None) /\
    length ns = 2%nat /\
    load (mem w') (0%nat, [0%nat]) = Some (VInt 9) /\
    load (mem w') (0%nat, [1%nat]) = Some (VInt 9).
Proof.
  eexists _, _. split; [vm_compute; reflexivity|].
  split; [|split; vm_compute; reflexivity].
  refine (proj1 (Eval_assigns_results 1 ev_cc rt_fwd None (mkWorld heap_pair 0)
    "structor_test.twin" [mkField "A" "cc:something" TInt; mkField "B" "cc:something" TInt]
    (0%nat, []) _ _ _ eq_refl _ _)).
  - by repeat constructor.
  - intros k intr Hk e ctx h. simpl in Hk. apply lookup_singleton_Some in Hk as [_ [= <-]].
    reflexivity.
  - vm_compute. reflexivity.
Defined.

(** ** Fields that are interfaces *)

(** What the closure does with a field that is an [interface{}], by
    what the interface holds. Nothing, if it is nil, or holds a value
    that is no record and no pointer to one, or a nil pointer. If it
    holds a pointer to a record, the walk goes into that record where
    it is: [eval] is handed the pointer the interface holds. If it
    holds a record by value, [eval] is handed that value: the walk is
    over a copy, and what it may assign does not reach the field. *)
Theorem descend_interface (rec : eval_fn) s extra f result call w p d :
  value f = reflect.MkValue TInterface p false ->
  reflect.read (mem w) p = Some (VIface d) ->
  let walk sub :=
    let '(w', ns, o) := rec s extra sub result w in
    (w', TNode call (returned o) (Some ns), o) in
  let skip := (w, TNode call None None, Ret None) in
  (d = None -> descend rec s extra f result call w = skip) /\
  (forall t x, d = Some (t, x) -> kind_of t <> Struct -> kind_of t <> Ptr ->
     descend rec s extra f result call w = skip) /\
  (forall t x, d = Some (t, x) -> kind_of t = Struct ->
     descend rec s extra f result call w = walk (Some (t, x))) /\
  (forall t r, d = Some (TPtr t, VPtr (Some r)) -> kind_of t = Struct ->
     descend rec s extra f result call w = walk (Some (TPtr t, VPtr (Some r)))) /\
  (forall t r, d = Some (TPtr t, VPtr (Some r)) -> kind_of t <> Struct ->
     descend rec s extra f result call w = skip) /\
  (forall t, d = Some (TPtr t, VPtr None) -> descend rec s extra f result call w = skip).
Proof.
  intros Hv Hread walk skip. unfold descend. rewrite Hv. cbn [reflect.Kind kind_of].
  rewrite decide_True by done. unfold reflect.Elem. rewrite Hread.
  cbn [of_option mbind outcome_bind obind].
  split; [|split; [|split; [|split; [|split]]]].
  - by intros ->.
  - intros t x -> Hs Hp. by destruct t.
  - intros t x -> Hs. by destruct t.
  - intros t r -> Hs. by destruct t.
  - intros t r -> Hs. by destruct t.
  - by intros t ->.
Qed.

Lemma descend_interface_witness :
  fieldIntrospect ev_cc rt_fwd (reflect.MkValue box (reflect.Stored (0%nat, [])) false) box 0
      (mkWorld heap_box 0)
    = (mkWorld heap_box 1, Ret (field_box_V, None)) /\
  descend (eval 1 ev_cc rt_fwd) root_box None field_box_V None None (mkWorld heap_box 1)
    = (let '(w', ns, o) := eval 1 ev_cc rt_fwd root_box None root_box None (mkWorld heap_box 1) in
       (w', TNode None (returned o) (Some ns), o)).
Proof.
  split; [vm_compute; reflexivity|].
  apply (proj1 (proj2 (proj2 (proj2 (descend_interface (eval 1 ev_cc rt_fwd) root_box None
    field_box_V None None (mkWorld heap_box 1) (reflect.Stored (0%nat, [0%nat]))
    (Some (TPtr box, VPtr (Some (0%nat, [])))) eq_refl eq_refl)))) box (0%nat, []) eq_refl
    eq_refl).
Defined.
